(** * RAP-DIBC: the breakpoint-search algorithm of [Alg_disjoint.py]

    A shallow embedding of [RAP_disjoint] (quadratic resource allocation
    with structured disjoint interval bounds) and the properties of it
    that the specification states.

    - Numbers are exact rationals [Q]; the values [math.inf],
      [-math.inf] and the [nan] that [0 * math.inf] yields are kept as
      separate constructors of [num].  Sums, products and the quotient
      of line 159 are the exact ones: the rounding of floats is not
      modelled, and a float result that rounds to an infinity is only
      modelled where Python raises on it, in [math.pow].  On the
      instances that satisfy [exact_in_floats] the two feasibility
      sums are the same in floats.
    - Python exceptions are values of [exn], and a computation is a
      [result]: a value, a raised exception, or the exhaustion of the
      budget the model gives to the two [while] loops (which never
      happens, see [RAP_disjoint_ends]).
    - The local variables of the function form a [frame].  The lists
      made by [list(partition)] live in a store and the variables
      [partition_full] and [current_best_partition] hold references
      into it, since the source assigns the one to the other and then
      updates the list in place.
    - A [heapq] heap is kept as the ascending list of its entries. *)

From Stdlib Require Import ZArith QArith Qminmax Qabs List Bool Lia Lqa
  Sorted.
Import ListNotations.
Local Open Scope Z_scope.

(** ** Outcomes of a Python computation *)

Inductive exn : Type :=
| ValueError          (* combinations_with_replacement with r < 0 *)
| IndexError          (* list index out of range *)
| TypeError           (* subscripting or subtracting from None *)
| ZeroDivisionError
| OverflowError       (* math.pow with a result beyond the floats *)
| UnboundLocalError.  (* local variable read before assignment *)

Inductive result (A : Type) : Type :=
| Ok (a : A)
| Raise (e : exn)
| Exhausted.            (* the model's loop budget ran out *)

Arguments Ok {A} a.
Arguments Raise {A} e.
Arguments Exhausted {A}.

Definition bind {A B} (c : result A) (k : A -> result B) : result B :=
  match c with
  | Ok a => k a
  | Raise e => Raise e
  | Exhausted => Exhausted
  end.

Declare Scope py_scope.
Delimit Scope py_scope with py.
Notation "x <- c ;; k" := (bind c (fun x => k))
  (at level 61, c at next level, right associativity) : py_scope.
Notation "' pat <- c ;; k" := (bind c (fun x => match x with pat => k end))
  (at level 61, pat pattern, c at next level, right associativity) : py_scope.
Local Open Scope py_scope.

(** ** Numbers: finite rationals, the two infinities and nan *)

Inductive num : Type :=
| Fin (q : Q)
| PInf
| NInf
| NaN.

Definition sgn (q : Q) : comparison := (q ?= 0)%Q.

Definition nadd (x y : num) : num :=
  match x, y with
  | NaN, _ | _, NaN => NaN
  | Fin a, Fin b => Fin (a + b)%Q
  | PInf, NInf | NInf, PInf => NaN
  | PInf, _ | _, PInf => PInf
  | NInf, _ | _, NInf => NInf
  end.

Definition nneg (x : num) : num :=
  match x with
  | Fin a => Fin (- a)%Q
  | PInf => NInf
  | NInf => PInf
  | NaN => NaN
  end.

Definition nsub (x y : num) : num := nadd x (nneg y).

Definition ninf_of (c d : comparison) : num :=
  match c, d with
  | Eq, _ | _, Eq => NaN
  | Gt, Gt | Lt, Lt => PInf
  | _, _ => NInf
  end.

Definition nmul (x y : num) : num :=
  match x, y with
  | NaN, _ | _, NaN => NaN
  | Fin a, Fin b => Fin (a * b)%Q
  | Fin a, PInf => ninf_of (sgn a) Gt
  | Fin a, NInf => ninf_of (sgn a) Lt
  | PInf, Fin b => ninf_of Gt (sgn b)
  | NInf, Fin b => ninf_of Lt (sgn b)
  | PInf, PInf | NInf, NInf => PInf
  | PInf, NInf | NInf, PInf => NInf
  end.

(** The exact square. *)
Definition pow2 (q : Q) : Q := (q * q)%Q.

(** The least real number that a 64-bit float cannot hold: it rounds
    to an infinity. *)
Definition float_overflow : Q := inject_Z (2 ^ 1024 - 2 ^ 970).

(** [math.pow(x, 2)] raises [OverflowError] when [x] is finite and the
    square is not a finite float; the squares of the infinities and of
    nan are returned as they are. *)
Definition math_pow2 (q : Q) : result Q :=
  if Qle_bool float_overflow (pow2 q) then Raise OverflowError
  else Ok (pow2 q).

Definition math_npow2 (x : num) : result num :=
  match x with
  | Fin q => sq <- math_pow2 q ;; Ok (Fin sq)
  | _ => Ok (nmul x x)
  end.

Arguments float_overflow : simpl never.
Arguments math_pow2 : simpl never.

(** [x < y]; any comparison with nan is false. *)
Definition nlt (x y : num) : bool :=
  match x, y with
  | NaN, _ | _, NaN => false
  | Fin a, Fin b => match (a ?= b)%Q with Lt => true | _ => false end
  | NInf, NInf => false
  | NInf, _ => true
  | _, PInf => match x with PInf => false | _ => true end
  | _, _ => false
  end.

(** [x == y] *)
Definition neq (x y : num) : bool :=
  match x, y with
  | Fin a, Fin b => Qeq_bool a b
  | PInf, PInf | NInf, NInf => true
  | _, _ => false
  end.

(** The builtins [min(x, y)] and [max(x, y)]: the first argument is kept
    unless the second is strictly smaller (larger). *)
Definition pymin (x y : num) : num := if nlt y x then y else x.
Definition pymax (x y : num) : num := if nlt x y then y else x.

Definition Qltb (a b : Q) : bool :=
  match (a ?= b)%Q with Lt => true | _ => false end.

(** ** Python lists *)

Section PyList.
Context {A : Type}.

(** Position of index [i] in a list of length [len], counting negative
    indices from the end. *)
Definition py_pos (len : nat) (i : Z) : result nat :=
  if (0 <=? i) && (i <? Z.of_nat len) then Ok (Z.to_nat i)
  else if (- Z.of_nat len <=? i) && (i <? 0)
       then Ok (Z.to_nat (Z.of_nat len + i))
       else Raise IndexError.

(** [l[i]] *)
Definition py_get (l : list A) (i : Z) : result A :=
  p <- py_pos (length l) i ;;
  match nth_error l p with
  | Some a => Ok a
  | None => Raise IndexError
  end.

Fixpoint set_nth (p : nat) (a : A) (l : list A) : list A :=
  match l, p with
  | [], _ => []
  | _ :: l', O => a :: l'
  | x :: l', S p' => x :: set_nth p' a l'
  end.

(** [l[i] = a] *)
Definition py_set (l : list A) (i : Z) (a : A) : result (list A) :=
  p <- py_pos (length l) i ;;
  Ok (set_nth p a l).
End PyList.

(** [range(a, b)] *)
Definition py_range (a b : Z) : list Z :=
  map (fun k => a + Z.of_nat k) (seq 0 (Z.to_nat (b - a))).

(** [for x in xs: s = body x s] *)
Fixpoint for_each {X S : Type} (xs : list X) (body : X -> S -> result S)
    (s : S) : result S :=
  match xs with
  | [] => Ok s
  | x :: xs' => s' <- body x s ;; for_each xs' body s'
  end.

(** [[f(i) for i in xs]] *)
Fixpoint comprehension {B : Type} (xs : list Z) (f : Z -> result B)
    : result (list B) :=
  match xs with
  | [] => Ok []
  | x :: xs' => y <- f x ;; ys <- comprehension xs' f ;; Ok (y :: ys)
  end.

(** [sum(l)] *)
Definition py_sum (l : list Q) : Q := fold_left Qplus l 0%Q.

(** [itertools.combinations_with_replacement(pool, r)] for [r >= 0]:
    the non-decreasing selections of [r] pool positions, in
    lexicographic order. *)
Fixpoint cwr (r : nat) (pool : list Z) : list (list Z) :=
  match r with
  | O => [[]]
  | S r' =>
      (fix over (p : list Z) : list (list Z) :=
         match p with
         | [] => []
         | x :: p' => map (cons x) (cwr r' p) ++ over p'
         end) pool
  end.

Definition combinations_with_replacement (pool : list Z) (r : Z)
    : result (list (list Z)) :=
  if r <? 0 then Raise ValueError else Ok (cwr (Z.to_nat r) pool).

(** ** Breakpoint heaps

    A heap entry is the Python list [[breakpoint, index, tag]]; lists
    compare lexicographically.  [heapq] keeps the least entry at position
    0, and the algorithm only ever reads position 0, pops and pushes: the
    model keeps the entries in ascending order, so position 0 is the head. *)

Record entry : Type := Entry { e_bp : Q; e_idx : Z; e_tag : Z }.

Definition entry_compare (x y : entry) : comparison :=
  match (e_bp x ?= e_bp y)%Q with
  | Eq => match e_idx x ?= e_idx y with
          | Eq => e_tag x ?= e_tag y
          | c => c
          end
  | c => c
  end.

Definition entry_ltb (x y : entry) : bool :=
  match entry_compare x y with Lt => true | _ => false end.

Definition heap := list entry.

Fixpoint heappush (h : heap) (e : entry) : heap :=
  match h with
  | [] => [e]
  | x :: h' => if entry_ltb e x then e :: h else x :: heappush h' e
  end.

Definition heapify (l : list entry) : heap := fold_left heappush l [].

(** [heapq.heappop(h)], the popped entry dropped *)
Definition heappop (h : heap) : result heap :=
  match h with
  | [] => Raise IndexError
  | _ :: h' => Ok h'
  end.

(** [h[0]] *)
Definition heap_top (h : heap) : result entry :=
  match h with
  | [] => Raise IndexError
  | e :: _ => Ok e
  end.

(** The order of the entries, and the heaps that respect it. *)
Definition entry_le (x y : entry) : Prop := entry_compare x y <> Gt.

Definition heap_ordered (h : heap) : Prop := StronglySorted entry_le h.

(** ** The instance and the local variables of [RAP_disjoint] *)

Record instance : Type := Instance {
  R : Q;
  b : list Q;
  lower_fixed : list Q;
  upper_fixed : list Q;
  lower_var : list Q;
  upper_var : list Q
}.

Definition num_var (I : instance) : Z := Z.of_nat (length (b I)).
Definition num_intervals (I : instance) : Z :=
  Z.of_nat (length (lower_fixed I)) + 1.

(** The bound arrays, their breakpoints and the two feasibility sums. *)
Record bounds : Type := Bounds {
  lower_bounds : list Q;
  upper_bounds : list Q;
  lower_breakpoints : list Q;
  upper_breakpoints : list Q;
  HELP_feasible_check_lower : Q;
  HELP_feasible_check_upper : Q
}.

(** The running totals of the breakpoint search and its two heaps. *)
Record engine : Type := Engine {
  HELP_var_Bounded : Q;
  HELP_var_Free : Q;
  HELP_var_num_free : Z;
  HELP_var_value_Bound : Q;
  heap_lower_BPs : heap;
  HELP_num_lower_heap : Z;
  heap_upper_BPs : heap;
  HELP_num_upper_heap : Z
}.

(** The best record.  [current_best_partition] holds a reference to a
    list object ([None] is Python's [None]). *)
Record tracker : Type := Tracker {
  current_best_obj : num;
  current_best_partition : option nat;
  current_best_mult : option num
}.

(** All locals that live across the iterations of the loops.  [store]
    holds the list objects made by [list(partition)], in creation order;
    [partition_full] is a reference into it.  A local that has not been
    assigned yet is [None]. *)
Record frame : Type := Frame {
  store : list (list Z);
  partition_full : nat;
  bnds : bounds;
  eng : engine;
  Opt_mult : option num;
  Obj_value : option num;
  best : tracker
}.

Definition deref (st : list (list Z)) (r : nat) : result (list Z) :=
  match nth_error st r with
  | Some l => Ok l
  | None => Raise IndexError
  end.

Definition local {A} (v : option A) : result A :=
  match v with
  | Some a => Ok a
  | None => Raise UnboundLocalError
  end.

(** ** Lines 68-106: bounds, breakpoints, totals and heaps of a trunk *)

Section Sweep.
Variable I : instance.

Local Abbreviation n := (num_var I).
Local Abbreviation m := (num_intervals I).

(** The three-loop block that fills a bound array from a partition.
    It occurs four times: at lines 69-76 and 78-85, where every range
    runs from [boundary + 1] to [boundary + 1] ([shift = 1]), and at
    lines 243-250 and 252-259, where it runs from [boundary] to
    [boundary] ([shift = 0]).  [first i], [middle j] and [final i] are
    the right-hand sides of the three assignments. *)
Definition assign_bounds (shift : Z) (pf : list Z)
    (first : Z -> result Q) (middle : Z -> result Q)
    (final : Z -> result Q) : result (list Q) :=
  let arr := repeat 0%Q (Z.to_nat n) in
  p0 <- py_get pf 0 ;;
  arr <- for_each (py_range 0 (p0 + shift))
           (fun i arr => v <- first i ;; py_set arr i v) arr ;;
  arr <- for_each (py_range 1 (m - 2))
           (fun j arr =>
              lo <- py_get pf (j - 1) ;;
              hi <- py_get pf j ;;
              for_each (py_range (lo + shift) (hi + shift))
                (fun i arr => v <- middle j ;; py_set arr i v) arr) arr ;;
  pl <- py_get pf (m - 2) ;;
  for_each (py_range (pl + shift) n)
    (fun i arr => v <- final i ;; py_set arr i v) arr.

(** The three functions that fill the lower and the upper array. *)
Definition lower_of (shift : Z) (pf : list Z) : result (list Q) :=
  assign_bounds shift pf
    (fun i => py_get (lower_var I) i)
    (fun j => py_get (lower_fixed I) (j - 1))
    (fun _ => py_get (lower_fixed I) (m - 2)).

Definition upper_of (shift : Z) (pf : list Z) : result (list Q) :=
  assign_bounds shift pf
    (fun _ => py_get (upper_fixed I) 0)
    (fun j => py_get (upper_fixed I) j)
    (fun i => py_get (upper_var I) i).

(** Lines 69-76 and 78-85: the ranges end at [boundary + 1]. *)
Definition initial_lower_bounds (pf : list Z) : result (list Q) :=
  lower_of 1 pf.
Definition initial_upper_bounds (pf : list Z) : result (list Q) :=
  upper_of 1 pf.

(** [[bnd[i] + b[i] for i in range(0, num_var)]] *)
Definition breakpoints_of (bnd : list Q) : result (list Q) :=
  comprehension (py_range 0 n)
    (fun i => x <- py_get bnd i ;; y <- py_get (b I) i ;; Ok (x + y)%Q).

Definition entries_of (bps : list Q) : result (list entry) :=
  comprehension (py_range 0 n)
    (fun i => x <- py_get bps i ;; Ok (Entry x i 0)).

Definition initial_bounds (pf : list Z) : result bounds :=
  lb <- initial_lower_bounds pf ;;
  ub <- initial_upper_bounds pf ;;
  lbp <- breakpoints_of lb ;;
  ubp <- breakpoints_of ub ;;
  Ok (Bounds lb ub lbp ubp (py_sum lb) (py_sum ub)).

Definition initial_engine (bs : bounds) : result engine :=
  sq <- comprehension (py_range 0 n)
          (fun i => x <- py_get (lower_breakpoints bs) i ;; math_pow2 x) ;;
  hl <- entries_of (lower_breakpoints bs) ;;
  hu <- entries_of (upper_breakpoints bs) ;;
  Ok (Engine (py_sum (lower_bounds bs)) 0 0 (py_sum sq)
             (heapify hl) n (heapify hu) n).

(** ** Lines 115-178: the breakpoint search of one window *)

(** [HELP_part_bound]: the boundary before the sliding one. *)
Definition part_bound (pf : list Z) : result Z :=
  if (length pf =? 1)%nat then Ok (-1) else py_get pf (-2).

(** The test of lines 125 and 141 on the entry at the top of a heap:
    a tag-0 entry of a variable strictly after the previous boundary
    and before the cursor ([<] for the lower heap, [<=] for the upper
    one) is dropped. *)
Definition dropped (upto : bool) (pf : list Z) (e : entry) : result bool :=
  HELP_part_bound <- part_bound pf ;;
  if HELP_part_bound <? e_idx e then
    cursor <- py_get pf (-1) ;;
    Ok ((if upto then e_idx e <=? cursor else e_idx e <? cursor)
        && (e_tag e =? 0))
  else Ok false.

(** Lines 118-132 ([upto = false]) and 134-148 ([upto = true]): the
    candidate breakpoint, with the heap and its counter after the
    dropped entries are popped. *)
Fixpoint find_candidate (upto : bool) (pf : list Z) (h : heap) (cnt : Z)
    : result (num * heap * Z) :=
  if 0 <? cnt then
    match h with
    | [] => Raise IndexError
    | e :: h' =>
        d <- dropped upto pf e ;;
        if d then find_candidate upto pf h' (cnt - 1)
        else Ok (Fin (e_bp e), h, cnt)
    end
  else Ok (PInf, h, cnt).

(** What one pass through the body of the [while FLAG_found == 0] loop
    ends with: the multiplier is found (lines 154-161), or an entry has
    been popped (lines 163-178) and the loop goes on. *)
Inductive round_outcome : Type :=
| Found (e : engine) (mult obj : num)
| Continue (e : engine).

(** Lines 117-178, one pass.  The quotient of line 159 is the exact
    one. *)
Definition search_round (pf : list Z) (bs : bounds) (e : engine)
    : result round_outcome :=
  '(Candidate_BP_lower, hl, nl) <-
    find_candidate false pf (heap_lower_BPs e) (HELP_num_lower_heap e) ;;
  '(Candidate_BP_upper, hu, nu) <-
    find_candidate true pf (heap_upper_BPs e) (HELP_num_upper_heap e) ;;
  let e := Engine (HELP_var_Bounded e) (HELP_var_Free e)
             (HELP_var_num_free e) (HELP_var_value_Bound e)
             hl nl hu nu in
  let nf := Fin (inject_Z (HELP_var_num_free e)) in
  let Candidate_BP := pymin Candidate_BP_lower Candidate_BP_upper in
  let HELP_resource :=
    nsub (nadd (Fin (HELP_var_Bounded e)) (nmul nf Candidate_BP))
         (Fin (HELP_var_Free e)) in
  if neq HELP_resource (Fin (R I)) then
    let mult := Candidate_BP in
    sq <- math_npow2 mult ;;
    Ok (Found e mult (nadd (Fin (HELP_var_value_Bound e)) (nmul nf sq)))
  else if nlt (Fin (R I)) HELP_resource then
    if HELP_var_num_free e =? 0 then Raise ZeroDivisionError
    else
      let mult :=
        Fin ((R I - HELP_var_Bounded e + HELP_var_Free e)
             / inject_Z (HELP_var_num_free e))%Q in
      sq <- math_npow2 mult ;;
      Ok (Found e mult (nadd (Fin (HELP_var_value_Bound e)) (nmul nf sq)))
  else if nlt Candidate_BP_lower Candidate_BP_upper then
    top <- heap_top hl ;;
    let HELP_index := e_idx top in
    lo <- py_get (lower_bounds bs) HELP_index ;;
    bi <- py_get (b I) HELP_index ;;
    sq <- math_pow2 (lo + bi) ;;
    hl' <- heappop hl ;;
    Ok (Continue
          (Engine (HELP_var_Bounded e - lo)%Q
                  (HELP_var_Free e + bi)%Q
                  (HELP_var_num_free e + 1)
                  (HELP_var_value_Bound e - sq)%Q
                  hl' (nl - 1) hu nu))
  else
    top <- heap_top hu ;;
    let HELP_index := e_idx top in
    up <- py_get (upper_bounds bs) HELP_index ;;
    bi <- py_get (b I) HELP_index ;;
    sq <- math_pow2 (up + bi) ;;
    hu' <- heappop hu ;;
    Ok (Continue
          (Engine (HELP_var_Bounded e + up)%Q
                  (HELP_var_Free e - bi)%Q
                  (HELP_var_num_free e - 1)
                  (HELP_var_value_Bound e + sq)%Q
                  hl nl hu' (nu - 1))).

(** The [while FLAG_found == 0] loop; [fuel] bounds its iterations.
    The result is the engine with [Opt_mult] and [Obj_value]. *)
Fixpoint search (fuel : nat) (pf : list Z) (bs : bounds) (e : engine)
    : result (engine * num * num) :=
  match fuel with
  | O => Exhausted
  | S fuel' =>
      o <- search_round pf bs e ;;
      match o with
      | Found e mult obj => Ok (e, mult, obj)
      | Continue e => search fuel' pf bs e
      end
  end.

Definition search_fuel (e : engine) : nat :=
  S (length (heap_lower_BPs e) + length (heap_upper_BPs e)).

(** ** Lines 180-184: the best record *)

Definition track (obj mult : num) (ref : nat) (t : tracker) : tracker :=
  if nlt obj (current_best_obj t)
  then Tracker obj (Some ref) (Some mult)
  else t.

(** ** Lines 110-184: one window.  [None] is the [break] of line 113. *)
Definition evaluate (f : frame) : result (option frame) :=
  if Qltb (R I) (HELP_feasible_check_lower (bnds f)) then
    Ok (Some (Frame (store f) (partition_full f) (bnds f) (eng f)
                    (Some NInf) (Obj_value f) (best f)))
  else if Qltb (HELP_feasible_check_upper (bnds f)) (R I) then
    Ok None
  else
    pf <- deref (store f) (partition_full f) ;;
    '(e, mult, obj) <- search (search_fuel (eng f)) pf (bnds f) (eng f) ;;
    Ok (Some (Frame (store f) (partition_full f) (bnds f) e
                    (Some mult) (Some obj)
                    (track obj mult (partition_full f) (best f)))).

(** ** Lines 187-239: the cursor moves by one *)

(** Which of the three branches of lines 194-202 and 225-239 is taken. *)
Inductive regime : Type := PinnedLow | Free | PinnedHigh.

Definition regime_of (mult : num) (lbp ubp : Q) : regime :=
  if nlt mult (Fin lbp) then PinnedLow
  else if nlt (Fin lbp) mult && nlt mult (Fin ubp) then Free
  else PinnedHigh.

(** Lines 205-222: the bound arrays, the breakpoints and the two
    feasibility sums when variable [HELP_index] changes segment.  The
    sums are updated exactly; in floats the updated sum can differ from
    the sum of the updated array by rounding. *)
Definition slide_bounds (HELP_index : Z) (bs : bounds) : result bounds :=
  bi <- py_get (b I) HELP_index ;;
  lo <- py_get (lower_bounds bs) HELP_index ;;
  up <- py_get (upper_bounds bs) HELP_index ;;
  let chk_lo := (HELP_feasible_check_lower bs - lo)%Q in
  let chk_up := (HELP_feasible_check_upper bs - up)%Q in
  new_lo <- (if (length (lower_fixed I) =? 1)%nat
             then py_get (lower_var I) HELP_index
             else py_get (lower_fixed I) (-2)) ;;
  lbps <- py_set (lower_breakpoints bs) HELP_index (new_lo + bi)%Q ;;
  new_up <- py_get (upper_fixed I) (-1) ;;
  ubps <- py_set (upper_breakpoints bs) HELP_index (new_up + bi)%Q ;;
  lbs <- py_set (lower_bounds bs) HELP_index new_lo ;;
  ubs <- py_set (upper_bounds bs) HELP_index new_up ;;
  lo <- py_get lbs HELP_index ;;
  up <- py_get ubs HELP_index ;;
  Ok (Bounds lbs ubs lbps ubps (chk_lo + lo)%Q (chk_up + up)%Q).

(** Lines 194-202, the first update round: the contribution of
    [HELP_index] under its old bounds is taken out of the totals.  The
    cells of the four arrays are read before the branch is chosen; the
    arrays all have [num_var] cells, so this raises in the same cases. *)
Definition first_round (mult : num) (HELP_index : Z) (bs : bounds)
    (e : engine) : result engine :=
  bi <- py_get (b I) HELP_index ;;
  lbp <- py_get (lower_breakpoints bs) HELP_index ;;
  ubp <- py_get (upper_breakpoints bs) HELP_index ;;
  lo <- py_get (lower_bounds bs) HELP_index ;;
  up <- py_get (upper_bounds bs) HELP_index ;;
  match regime_of mult lbp ubp with
  | PinnedLow =>
      sq <- math_pow2 (lo + bi) ;;
      Ok (Engine (HELP_var_Bounded e - lo)%Q (HELP_var_Free e)
            (HELP_var_num_free e)
            (HELP_var_value_Bound e - sq)%Q
            (heap_lower_BPs e) (HELP_num_lower_heap e)
            (heap_upper_BPs e) (HELP_num_upper_heap e))
  | Free =>
      Ok (Engine (HELP_var_Bounded e) (HELP_var_Free e - bi)%Q
            (HELP_var_num_free e - 1) (HELP_var_value_Bound e)
            (heap_lower_BPs e) (HELP_num_lower_heap e)
            (heap_upper_BPs e) (HELP_num_upper_heap e))
  | PinnedHigh =>
      sq <- math_pow2 (up + bi) ;;
      Ok (Engine (HELP_var_Bounded e - up)%Q (HELP_var_Free e)
            (HELP_var_num_free e)
            (HELP_var_value_Bound e - sq)%Q
            (heap_lower_BPs e) (HELP_num_lower_heap e)
            (heap_upper_BPs e) (HELP_num_upper_heap e))
  end.

(** Lines 225-239, the second update round: the contribution under
    the new bounds is put back and fresh entries, tagged 1, are pushed. *)
Definition second_round (mult : num) (HELP_index : Z) (bs : bounds)
    (e : engine) : result engine :=
  bi <- py_get (b I) HELP_index ;;
  lbp <- py_get (lower_breakpoints bs) HELP_index ;;
  ubp <- py_get (upper_breakpoints bs) HELP_index ;;
  lo <- py_get (lower_bounds bs) HELP_index ;;
  up <- py_get (upper_bounds bs) HELP_index ;;
  match regime_of mult lbp ubp with
  | PinnedLow =>
      sq <- math_pow2 (lo + bi) ;;
      Ok (Engine (HELP_var_Bounded e + lo)%Q (HELP_var_Free e)
            (HELP_var_num_free e)
            (HELP_var_value_Bound e + sq)%Q
            (heappush (heap_lower_BPs e) (Entry lbp HELP_index 1))
            (HELP_num_lower_heap e + 1)
            (heappush (heap_upper_BPs e) (Entry ubp HELP_index 1))
            (HELP_num_upper_heap e + 1))
  | Free =>
      Ok (Engine (HELP_var_Bounded e) (HELP_var_Free e + bi)%Q
            (HELP_var_num_free e + 1) (HELP_var_value_Bound e)
            (heap_lower_BPs e) (HELP_num_lower_heap e)
            (heappush (heap_upper_BPs e) (Entry ubp HELP_index 1))
            (HELP_num_upper_heap e + 1))
  | PinnedHigh =>
      sq <- math_pow2 (up + bi) ;;
      Ok (Engine (HELP_var_Bounded e + up)%Q (HELP_var_Free e)
            (HELP_var_num_free e)
            (HELP_var_value_Bound e + sq)%Q
            (heap_lower_BPs e) (HELP_num_lower_heap e)
            (heap_upper_BPs e) (HELP_num_upper_heap e))
  end.

(** Lines 187-239.  The result carries [false] for the [break] of
    line 191. *)
Definition advance (f : frame) : result (frame * bool) :=
  pf <- deref (store f) (partition_full f) ;;
  c <- py_get pf (-1) ;;
  pf <- py_set pf (-1) (c + 1) ;;
  let st := set_nth (partition_full f) pf (store f) in
  HELP_index <- py_get pf (-1) ;;
  if n <=? HELP_index then
    Ok (Frame st (partition_full f) (bnds f) (eng f)
              (Opt_mult f) (Obj_value f) (best f), false)
  else
    mult <- local (Opt_mult f) ;;
    e <- first_round mult HELP_index (bnds f) (eng f) ;;
    bs <- slide_bounds HELP_index (bnds f) ;;
    e <- second_round mult HELP_index bs e ;;
    Ok (Frame st (partition_full f) bs e
              (Opt_mult f) (Obj_value f) (best f), true).

(** ** Lines 109-239: the [while] loop of one trunk *)
Fixpoint sweep (fuel : nat) (f : frame) : result frame :=
  match fuel with
  | O => Exhausted
  | S fuel' =>
      pf <- deref (store f) (partition_full f) ;;
      cur <- py_get pf (-1) ;;
      if cur <? n then
        o <- evaluate f ;;
        match o with
        | None => Ok f
        | Some f =>
            '(f, go) <- advance f ;;
            if go then sweep fuel' f else Ok f
        end
      else Ok f
  end.

(** ** Lines 62-106: the frame at the start of a trunk's [while] loop.
    [list(partition)] makes a new list object. *)
Definition trunk_init (partition : list Z) (f : frame) : result frame :=
  tl <- (if (length partition =? 0)%nat then Ok (-1)
         else py_get partition (-1)) ;;
  let pf := partition ++ [tl] in
  bs <- initial_bounds pf ;;
  e <- initial_engine bs ;;
  Ok (Frame (store f ++ [pf]) (length (store f)) bs e
            (Opt_mult f) (Obj_value f) (best f)).

(** ** Lines 61-239: the body of the [for] loop over the trunks *)
Definition trunk_body (partition : list Z) (f : frame) : result frame :=
  f <- trunk_init partition f ;;
  sweep (Z.to_nat n + 2) f.

(** ** Lines 242-266: the final answer *)
Definition reconstruct (st : list (list Z)) (t : tracker)
    : result (list num) :=
  cbp <- match current_best_partition t with
         | None => Raise TypeError
         | Some r => deref st r
         end ;;
  lb <- lower_of 0 cbp ;;
  ub <- upper_of 0 cbp ;;
  _ <- breakpoints_of lb ;;
  _ <- breakpoints_of ub ;;
  comprehension (py_range 0 n)
    (fun i =>
       up <- py_get ub i ;;
       lo <- py_get lb i ;;
       mult <- match current_best_mult t with
               | None => Raise TypeError
               | Some v => Ok v
               end ;;
       bi <- py_get (b I) i ;;
       Ok (pymin (Fin up) (pymax (Fin lo) (nsub mult (Fin bi))))).

Definition empty_bounds : bounds := Bounds [] [] [] [] 0 0.
Definition empty_engine : engine := Engine 0 0 0 0 [] 0 [] 0.

(** The frame at line 59, before the first trunk. *)
Definition initial_frame : frame :=
  Frame [] O empty_bounds empty_engine None None
        (Tracker PInf None None).

(** Lines 53-239 *)
Definition enumerate : result frame :=
  list_partitions <- combinations_with_replacement (py_range (-1) n) (m - 2) ;;
  for_each list_partitions trunk_body initial_frame.

Definition RAP_disjoint : result (list num) :=
  f <- enumerate ;;
  reconstruct (store f) (best f).

(** ** The windows of a trunk

    [window_bounds partition k] is the value of the bound arrays and of
    the feasibility sums when the cursor has moved [k] times: the
    arrays of lines 68-106 followed by [k] runs of lines 205-222. *)
Definition seed (partition : list Z) : Z := last partition (-1).

Fixpoint window_bounds (partition : list Z) (k : nat) : result bounds :=
  match k with
  | O => initial_bounds (partition ++ [seed partition])
  | S k' =>
      bs <- window_bounds partition k' ;;
      slide_bounds (seed partition + Z.of_nat k) bs
  end.

Definition trunks : list (list Z) :=
  cwr (Z.to_nat (m - 2)) (py_range (-1) n).

End Sweep.

(** The lengths the docstring of the module asks for, with at least two
    intervals. *)
Record well_formed (I : instance) : Prop := WellFormed {
  wf_lower_var : length (lower_var I) = length (b I);
  wf_upper_var : length (upper_var I) = length (b I);
  wf_fixed : length (upper_fixed I) = length (lower_fixed I);
  wf_intervals : (1 <= length (lower_fixed I))%nat
}.

(** ** Lines 43-44: the module seeds the global generator when it is
    imported.  A call of [RAP_disjoint] runs in that module state. *)
Record module_state : Type := ModuleState { random_seed : Z }.

Definition module_import : module_state := ModuleState 42.

Definition call_RAP_disjoint (g : module_state) (I : instance)
    : result (list num) * module_state :=
  (RAP_disjoint I, g).

(** ** The reference the specification compares with

    The brute-force search of the specification: every assignment of the
    variables to the [m] interval segments, and for each one the
    quadratic program restricted to the intervals it selects.  These
    definitions follow the specification, not the source. *)

Definition clip (v lo up : Q) : Q := Qmin up (Qmax lo v).

Definition Qsum (l : list Q) : Q := fold_right Qplus 0%Q l.

(** The objective, the sum of [(x_i + b_i)^2]. *)
Definition objective (x shifts : list Q) : Q :=
  Qsum (map (fun p => pow2 (fst p + snd p)) (combine x shifts)).

Record box : Type := Box { box_b : Q; box_lo : Q; box_up : Q }.

Definition alloc (lam : Q) (v : box) : Q :=
  clip (lam - box_b v) (box_lo v) (box_up v).

Definition total (vs : list box) (lam : Q) : Q := Qsum (map (alloc lam) vs).

Definition breaks (vs : list box) : list Q :=
  flat_map (fun v => [box_lo v + box_b v; box_up v + box_b v]%Q) vs.

(** The largest breakpoint whose total is at most [r] and the smallest
    one whose total is at least [r]. *)
Definition best_below (vs : list box) (r : Q) : option Q :=
  fold_right (fun p acc =>
                if Qle_bool (total vs p) r
                then match acc with
                     | Some q => Some (Qmax p q)
                     | None => Some p
                     end
                else acc) None (breaks vs).

Definition best_above (vs : list box) (r : Q) : option Q :=
  fold_right (fun p acc =>
                if Qle_bool r (total vs p)
                then match acc with
                     | Some q => Some (Qmin p q)
                     | None => Some p
                     end
                else acc) None (breaks vs).

(** The multiplier of the restricted program: the total is linear
    between two neighbouring breakpoints. *)
Definition multiplier (vs : list box) (r : Q) : option Q :=
  match best_below vs r, best_above vs r with
  | Some lo, Some hi =>
      if Qeq_bool (total vs lo) r then Some lo
      else Some (lo + (r - total vs lo) * (hi - lo)
                      / (total vs hi - total vs lo))%Q
  | _, _ => None
  end.

(** The minimiser of the sum of [(x_i + b_i)^2] over the boxes with the
    sum of the [x_i] equal to [r]; [None] when there is none. *)
Definition solve_qp (vs : list box) (r : Q) : option (list Q) :=
  match vs with
  | [] => if Qeq_bool r 0 then Some [] else None
  | _ => option_map (fun lam => map (alloc lam) vs) (multiplier vs r)
  end.

Fixpoint assignments (vars segments : nat) : list (list nat) :=
  match vars with
  | O => [[]]
  | S vars' =>
      flat_map (fun j => map (cons j) (assignments vars' segments))
               (seq 0 segments)
  end.

(** Interval [j] of variable [i]: segment 0 starts at [lower_var[i]],
    the last segment ends at [upper_var[i]], every other end is shared. *)
Definition segment_box (I : instance) (i j : nat) : box :=
  Box (nth i (b I) 0%Q)
      (match j with
       | O => nth i (lower_var I) 0%Q
       | S j' => nth j' (lower_fixed I) 0%Q
       end)
      (if (j =? length (lower_fixed I))%nat
       then nth i (upper_var I) 0%Q
       else nth j (upper_fixed I) 0%Q).

Definition boxes (I : instance) (a : list nat) : list box :=
  map (fun p => segment_box I (fst p) (snd p))
      (combine (seq 0 (length a)) a).

Definition opt_min (x y : option Q) : option Q :=
  match x, y with
  | Some a, Some c => Some (Qmin a c)
  | Some a, None => Some a
  | None, _ => y
  end.

(** The least objective over all segment assignments. *)
Definition brute_force (I : instance) : option Q :=
  fold_right
    (fun a acc =>
       opt_min (option_map (fun x => objective x (b I))
                           (solve_qp (boxes I a) (R I))) acc)
    None
    (assignments (length (b I)) (S (length (lower_fixed I)))).

(** Membership of [x] in the union of the intervals of variable [i]. *)
Definition in_intervals (I : instance) (i : nat) (x : Q) : bool :=
  existsb (fun j => let v := segment_box I i j in
                    Qle_bool (box_lo v) x && Qle_bool x (box_up v))
          (seq 0 (S (length (lower_fixed I)))).

(** The finite value of a number, for sums and objectives of outputs. *)
Definition value (x : num) : Q := match x with Fin q => q | _ => 0%Q end.

(** The closed form of the two-variable problem of the specification:
    minimise [(x1 + 3)^2 + (x2 + 1)^2] with [x1 + x2 = r] and both
    variables in [[-5, 5]]. *)
Definition closed_form_two (r : Q) : list Q :=
  let x1 := ((r - 2) / 2)%Q in
  let x2 := ((r + 2) / 2)%Q in
  if Qltb 5 x2 then [r - 5; 5]%Q
  else if Qltb x1 (-5) then [-5; r + 5]%Q
  else [x1; x2].

(** ** Reading results

    Rational results are compared after reduction to lowest terms. *)

Definition canon_num (x : num) : num :=
  match x with
  | Fin q => Fin (Qred q)
  | _ => x
  end.

Definition canon (r : result (list num)) : result (list num) :=
  match r with
  | Ok l => Ok (map canon_num l)
  | _ => r
  end.

Definition canon_tracker (t : tracker) : tracker :=
  Tracker (canon_num (current_best_obj t)) (current_best_partition t)
          (option_map canon_num (current_best_mult t)).

(** The best record and the partition object it refers to. *)
Definition recorded (f : frame) : tracker * option (list Z) :=
  (canon_tracker (best f),
   match current_best_partition (best f) with
   | Some r => nth_error (store f) r
   | None => None
   end).

(** The objective of the vector a run returns. *)
Definition returned_objective (I : instance) : result Q :=
  x <- RAP_disjoint I ;; Ok (Qred (objective (map value x) (b I))).

(** ** Instances used below *)

Local Open Scope Q_scope.

(** Two variables, each in [{0}] or [[2, 6]], shifts 1 and 0, [R = 5.5].
    The minimiser is [(2.25, 3.25)] with objective [21.125]. *)
Definition two_semicontinuous : instance :=
  Instance (11 # 2) [1; 0] [2] [0] [0; 0] [6; 6].

(** Two variables, each in [[0, 3]] or [[4, 7]], shifts 1 and 0,
    [R = 9.5].  The minimiser is [(4.25, 5.25)] with objective [55.125]. *)
Definition two_equal_intervals : instance :=
  Instance (19 # 2) [1; 0] [4] [3] [0; 0] [7; 7].

(** Two variables, each in [[1, 2]], [[3, 4]] or [[5, 6]], no shifts,
    [R = 7].  The minimiser is [(3.5, 3.5)], both in the middle interval. *)
Definition three_intervals : instance :=
  Instance 7 [0; 0] [3; 5] [2; 4] [1; 1] [6; 6].

(** Three variables without shifts: the first two in [{0}] or [{2}], the
    third in [{0}] or [[2, 3]], [R = 4.5].  [(0, 2, 2.5)] is feasible. *)
Definition single_point : instance :=
  Instance (9 # 2) [0; 0; 0] [2] [0] [0; 0; 0] [2; 2; 3].

(** The single-interval scenario of the specification. *)
Definition one_interval (r : Q) : instance :=
  Instance r [3; 1] [] [] [-5; -5] [5; 5].

Local Close Scope Q_scope.

(** The first window of the only trunk of [two_semicontinuous]. *)
Definition first_window : result frame :=
  trunk_init two_semicontinuous [] initial_frame.

Definition first_window_evaluated : result frame :=
  f <- first_window ;;
  o <- evaluate two_semicontinuous f ;;
  match o with
  | Some f' => Ok f'
  | None => Raise IndexError
  end.

Definition frame_of (r : result frame) : frame :=
  match r with
  | Ok f => f
  | _ => initial_frame
  end.

(** The frames before and after the first window of
    [two_semicontinuous] is evaluated, and after the cursor has moved. *)
Definition first_frame : frame := frame_of first_window.
Definition evaluated_frame : frame := frame_of first_window_evaluated.
Definition second_frame : frame :=
  match advance two_semicontinuous evaluated_frame with
  | Ok (f, _) => f
  | _ => initial_frame
  end.

(** What the specification says of the cursor step: the variable at the
    new cursor position gets the bounds of the final segment. *)
Definition enters_final_segment (I : instance) (f : frame) : Prop :=
  forall pf c f',
    deref (store f) (partition_full f) = Ok pf ->
    py_get pf (-1) = Ok c ->
    advance I f = Ok (f', true) ->
    py_get (lower_bounds (bnds f')) (c + 1)
      = py_get (lower_fixed I) (num_intervals I - 2)
    /\ py_get (upper_bounds (bnds f')) (c + 1)
      = py_get (upper_var I) (c + 1).

(** ** Invariants of the sweep *)

(** The four arrays have one cell per variable and the two feasibility
    sums are the sums of the bound arrays. *)
Definition bounds_ok (I : instance) (bs : bounds) : Prop :=
  length (lower_bounds bs) = length (b I)
  /\ length (upper_bounds bs) = length (b I)
  /\ length (lower_breakpoints bs) = length (b I)
  /\ length (upper_breakpoints bs) = length (b I)
  /\ (HELP_feasible_check_lower bs == py_sum (lower_bounds bs))%Q
  /\ (HELP_feasible_check_upper bs == py_sum (upper_bounds bs))%Q.

(** A window no multiplier can serve: the lower bounds already exceed
    [R], or the upper bounds do not reach it. *)
Definition out_of_reach (I : instance) (bs : bounds) : Prop :=
  (R I < py_sum (lower_bounds bs))%Q \/ (py_sum (upper_bounds bs) < R I)%Q.

(** A result that is neither the exhaustion of the model's loop budget
    nor a [TypeError]. *)
Definition quiet {A : Type} (r : result A) : Prop :=
  r <> Exhausted /\ r <> Raise TypeError.

(** The partition and the multiplier of the best record are set
    together. *)
Definition recorded_together (t : tracker) : Prop :=
  current_best_partition t <> None -> current_best_mult t <> None.

(** Nothing has been recorded. *)
Definition no_record : tracker := Tracker PInf None None.

(** An instance far above every upper sum. *)
Definition out_of_reach_instance : instance :=
  Instance 100 [1; 0]%Q [2]%Q [0]%Q [0; 0]%Q [6; 6]%Q.

(** ** Notions for the further properties *)

(** A number that is neither an infinity nor nan. *)
Definition finite (x : num) : Prop := exists q, x = Fin q.

(** The vector the run on [two_semicontinuous] returns. *)
Definition returned_two : list num :=
  match RAP_disjoint two_semicontinuous with
  | Ok x => x
  | _ => []
  end.

(** The exceptions a computation can raise all satisfy [P]. *)
Definition raises_only {A : Type} (P : exn -> Prop) (r : result A) : Prop :=
  forall e, r = Raise e -> P e.

(** The resource the engine's totals give at the multiplier [lam]
    equals [R]. *)
Definition balanced (I : instance) (e : engine) (lam : Q) : Prop :=
  (HELP_var_Bounded e + inject_Z (HELP_var_num_free e) * lam
   - HELP_var_Free e == R I)%Q.

(** The objective lines 156 and 160 compute from the engine's totals. *)
Definition engine_objective (e : engine) (lam : Q) : Q :=
  (HELP_var_value_Bound e
   + inject_Z (HELP_var_num_free e) * (lam * lam))%Q.

(** A best record that is empty, or holds a finite objective, a
    reference to a list of the store and a finite multiplier. *)
Definition record_ok (st : list (list Z)) (t : tracker) : Prop :=
  t = no_record
  \/ exists q r lam,
       t = Tracker (Fin q) (Some r) (Some (Fin lam))
       /\ (r < length st)%nat.

(** The frame the enumeration of [two_semicontinuous] ends with. *)
Definition final_frame : frame := frame_of (enumerate two_semicontinuous).

(** The two counters equal the sizes of the two heaps. *)
Definition counted (e : engine) : Prop :=
  HELP_num_lower_heap e = Z.of_nat (length (heap_lower_BPs e))
  /\ HELP_num_upper_heap e = Z.of_nat (length (heap_upper_BPs e)).

(** Every breakpoint is the bound of its variable plus its shift. *)
Definition breakpoints_ok (I : instance) (bs : bounds) : Prop :=
  forall p, (p < length (b I))%nat ->
    nth p (lower_breakpoints bs) 0%Q
      = (nth p (lower_bounds bs) 0 + nth p (b I) 0)%Q
    /\ nth p (upper_breakpoints bs) 0%Q
      = (nth p (upper_bounds bs) 0 + nth p (b I) 0)%Q.

(** The test of line 109: the cursor, the last cell of the current
    partition list, is below [num_var]. *)
Definition cursor_in_range (I : instance) (f : frame) : bool :=
  match (pf <- deref (store f) (partition_full f) ;; py_get pf (-1)) with
  | Ok cur => cur <? num_var I
  | _ => false
  end.

(** The objective the search stores in iteration [k] (from 0) of the
    [while] loop started in frame [f]; [None] when the loop does not get
    that far or the window of that iteration is not searched. *)
Fixpoint window_objective (I : instance) (k : nat) (f : frame)
    : option num :=
  if cursor_in_range I f then
    match evaluate I f with
    | Ok (Some f1) =>
        match k with
        | O => if Qltb (R I) (HELP_feasible_check_lower (bnds f))
               then None else Obj_value f1
        | S k' =>
            match advance I f1 with
            | Ok (f2, true) => window_objective I k' f2
            | _ => None
            end
        end
    | _ => None
    end
  else None.

(** The same for iteration [k] of trunk [j] of the enumeration. *)
Definition trunk_window_objective (I : instance) (j k : nat)
    : option num :=
  match combinations_with_replacement (py_range (-1) (num_var I))
          (num_intervals I - 2) with
  | Ok ps =>
      match for_each (firstn j ps) (trunk_body I) initial_frame,
            nth_error ps j with
      | Ok f0, Some p =>
          match trunk_init I p f0 with
          | Ok f => window_objective I k f
          | _ => None
          end
      | _, _ => None
      end
  | _ => None
  end.

(** The best objective is a finite number, at most [q]. *)
Definition below (q : Q) (t : tracker) : Prop :=
  exists q', current_best_obj t = Fin q' /\ (q' <= q)%Q.

(** The best objective is the initial infinity or a finite number. *)
Definition sane (t : tracker) : Prop :=
  current_best_obj t = PInf \/ exists q, current_best_obj t = Fin q.

(** Two bound records with the same bound and breakpoint arrays. *)
Definition same_arrays (bs bs' : bounds) : Prop :=
  lower_bounds bs = lower_bounds bs'
  /\ upper_bounds bs = upper_bounds bs'
  /\ lower_breakpoints bs = lower_breakpoints bs'
  /\ upper_breakpoints bs = upper_breakpoints bs'.

(** An instance whose first shift squares beyond the floats. *)
Definition huge_shift : instance :=
  Instance 100 [inject_Z (10 ^ 200); 0]%Q [2]%Q [0]%Q [0; 0]%Q [6; 6]%Q.

(** ** The reach of an instance *)

(** The lower ends and the upper ends of the intervals of variable
    [i]: its own bound first, then the shared ones. *)
Definition lower_ends (I : instance) (i : nat) : list Q :=
  nth i (lower_var I) 0%Q :: lower_fixed I.

Definition upper_ends (I : instance) (i : nat) : list Q :=
  nth i (upper_var I) 0%Q :: upper_fixed I.

Definition largest (x : Q) (l : list Q) : Q := fold_right Qmax x l.
Definition least (x : Q) (l : list Q) : Q := fold_right Qmin x l.

(** The largest sum of upper bounds, and the least sum of lower bounds,
    over all ways of choosing one interval for every variable. *)
Definition max_upper_sum (I : instance) : Q :=
  Qsum (map (fun i => largest (nth i (upper_var I) 0%Q) (upper_fixed I))
            (seq 0 (length (b I)))).

Definition min_lower_sum (I : instance) : Q :=
  Qsum (map (fun i => least (nth i (lower_var I) 0%Q) (lower_fixed I))
            (seq 0 (length (b I)))).

(** [R] is above the one or below the other: no choice of intervals
    can meet it. *)
Definition beyond_reach (I : instance) : Prop :=
  (max_upper_sum I < R I)%Q \/ (R I < min_lower_sum I)%Q.

(** No lower breakpoint, whatever interval its variable is in, has a
    square beyond the floats. *)
Definition squares_in_range (I : instance) : bool :=
  forallb (fun i =>
             forallb (fun l =>
                        negb (Qle_bool float_overflow
                                (pow2 (l + nth i (b I) 0)%Q)))
                     (lower_ends I i))
          (seq 0 (length (b I))).

(** Floats hold the whole numbers up to [2 ^ 53] and add them without
    rounding as long as the sums stay in that range. *)
Definition exact_limit : Q := inject_Z (2 ^ 53).

Arguments exact_limit : simpl never.

(** A whole number small enough for [k + 1] such numbers to be added
    within that range. *)
Definition whole_and_small (k : nat) (q : Q) : bool :=
  (Qden (Qred q) =? 1)%positive
  && Qle_bool (Qabs q * inject_Z (Z.of_nat (S k))) exact_limit.

Definition numbers_of (I : instance) : list Q :=
  R I :: b I ++ lower_fixed I ++ upper_fixed I ++ lower_var I
      ++ upper_var I.

(** The data of the instance are whole numbers on which the floating
    point sums of the run are the exact sums. *)
Definition exact_in_floats (I : instance) : bool :=
  forallb (whole_and_small (length (b I))) (numbers_of I).

(** Every cell of the two bound arrays holds an end of an interval of
    its variable. *)
Definition cells_within (I : instance) (bs : bounds) : Prop :=
  forall k, (k < length (b I))%nat ->
    In (nth k (lower_bounds bs) 0%Q) (lower_ends I k)
    /\ In (nth k (upper_bounds bs) 0%Q) (upper_ends I k).

(** The cells before position [c] hold allowed values. *)
Definition good_upto (I : instance) (allowed : nat -> Q -> Prop) (c : Z)
    (arr : list Q) : Prop :=
  forall k, Z.of_nat k < c -> (k < length (b I))%nat ->
            allowed k (nth k arr 0%Q).

(** The allocation [x] meets the constraints of the problem: one value
    per variable, each in one of the intervals of its variable, with
    sum [R]. *)
Definition admits (I : instance) (x : list Q) : bool :=
  (length x =? length (b I))%nat
  && Qeq_bool (Qsum x) (R I)
  && forallb (fun i => in_intervals I i (nth i x 0%Q))
             (seq 0 (length (b I))).

(** What the specification asks of the outcome on the instances beyond
    reach, a distinct "Infeasible" outcome: it is one outcome, the same
    on all of them, and it tells infeasibility apart, so no instance
    that admits an allocation ends in it. *)
Definition same_beyond_reach (o : result (list num)) : Prop :=
  forall I, well_formed I -> beyond_reach I -> RAP_disjoint I = o.

Definition kept_for_infeasible (o : result (list num)) : Prop :=
  forall I x, well_formed I -> RAP_disjoint I = o -> admits I x = false.

Definition infeasible_outcome (o : result (list num)) : Prop :=
  same_beyond_reach o /\ kept_for_infeasible o.

(** Two variables that are 0 or at least 4, with capacities 20 and 6. *)
Definition hidden_feasible : instance :=
  Instance 7 [2; 0]%Q [4]%Q [0]%Q [0; 0]%Q [20; 6]%Q.

(** ** Ties between breakpoints *)

Definition heaps_ordered (e : engine) : Prop :=
  heap_ordered (heap_lower_BPs e) /\ heap_ordered (heap_upper_BPs e).

(** [top] comes first among the entries of [h]: it has the least
    breakpoint and, among the entries with that breakpoint, the least
    index. *)
Definition comes_first (top : entry) (h : heap) : Prop :=
  forall e, In e h ->
    (e_bp top <= e_bp e)%Q
    /\ ((e_bp top == e_bp e)%Q -> e_idx top <= e_idx e).

(** The engine a pass through the search loop ends with. *)
Definition engine_of (o : round_outcome) : engine :=
  match o with
  | Found e _ _ => e
  | Continue e => e
  end.

(** An instance in whose first window the lower breakpoint of variable
    0 equals the upper breakpoint of variable 1; the engine after the
    first pass of the search of that window, and after the second. *)
Definition tie_instance : instance :=
  Instance (11 # 2) [1; 0]%Q [2]%Q [0]%Q [0; 0]%Q [6; 3]%Q.

Definition tie_frame : frame :=
  frame_of (trunk_init tie_instance [] initial_frame).

Definition next_engine (I : instance) (pf : list Z) (bs : bounds)
    (e : engine) : engine :=
  match search_round I pf bs e with
  | Ok o => engine_of o
  | _ => empty_engine
  end.

Definition tie_engine : engine :=
  next_engine tie_instance [-1] (bnds tie_frame) (eng tie_frame).

Definition tie_next : engine :=
  next_engine tie_instance [-1] (bnds tie_frame) tie_engine.

(** What the specification says of ties: when the two candidates of a
    pass have equal breakpoints, the entry of the smaller variable
    index is the one that is processed. *)
Definition ties_by_ascending_index (I : instance) (pf : list Z)
    (bs : bounds) (e : engine) : Prop :=
  forall e' tl hl nl tu hu nu,
    find_candidate false pf (heap_lower_BPs e) (HELP_num_lower_heap e)
    = Ok (Fin (e_bp tl), tl :: hl, nl) ->
    find_candidate true pf (heap_upper_BPs e) (HELP_num_upper_heap e)
    = Ok (Fin (e_bp tu), tu :: hu, nu) ->
    search_round I pf bs e = Ok (Continue e') ->
    (e_bp tl == e_bp tu)%Q ->
    e_idx tl < e_idx tu ->
    heap_lower_BPs e' = hl /\ heap_upper_BPs e' = tu :: hu.

(** * Properties *)

(** ** Runs on the instances *)

(** C1 (the code departs from the claim).  On [two_semicontinuous]
    ([n = 2], [m = 2], feasible) the vector [RAP_disjoint] returns has
    objective [185/16], while the brute-force search over the segment
    assignments finds the minimum [169/8], reached at [(9/4, 13/4)] with
    both variables in their second interval.  On [two_equal_intervals]
    the returned vector has objective [697/16] and the minimum is
    [441/8], reached at [(17/4, 21/4)]. *)
Theorem returned_objective_is_not_the_brute_force_minimum :
  returned_objective two_semicontinuous = Ok (185 # 16)%Q
  /\ option_map Qred (brute_force two_semicontinuous) = Some (169 # 8)%Q
  /\ option_map (map Qred)
       (solve_qp (boxes two_semicontinuous [1; 1]%nat)
                 (R two_semicontinuous))
     = Some [9 # 4; 13 # 4]%Q
  /\ returned_objective two_equal_intervals = Ok (697 # 16)%Q
  /\ option_map Qred (brute_force two_equal_intervals) = Some (441 # 8)%Q
  /\ option_map (map Qred)
       (solve_qp (boxes two_equal_intervals [1; 1]%nat)
                 (R two_equal_intervals))
     = Some [17 # 4; 21 # 4]%Q.
Proof. repeat split; vm_compute; reflexivity. Qed.

(** C2 (the code departs from the claim).  On [two_semicontinuous] the
    returned vector is [(0, 13/4)], whose sum is not [R = 11/2]; on
    [three_intervals] it is [(0, 0)], and [0] lies in none of the
    intervals [[1, 2]], [[3, 4]], [[5, 6]] of the first variable.  Both
    instances are feasible: the brute-force search finds a minimum. *)
Theorem returned_vector_is_not_feasible :
  (exists x, RAP_disjoint two_semicontinuous = Ok x
             /\ map canon_num x = [Fin 0; Fin (13 # 4)]
             /\ ~ (Qsum (map value x) == R two_semicontinuous)%Q)
  /\ (exists x, RAP_disjoint three_intervals = Ok x
                /\ map canon_num x = [Fin 0; Fin 0]
                /\ in_intervals three_intervals 0 (value (nth 0 x NaN)) = false)
  /\ brute_force two_semicontinuous <> None
  /\ brute_force three_intervals <> None.
Proof.
  split; [|split; [|split]].
  - eexists; split; [vm_compute; reflexivity|].
    split; [vm_compute; reflexivity|].
    vm_compute; discriminate.
  - eexists; split; [vm_compute; reflexivity|].
    split; vm_compute; reflexivity.
  - vm_compute; discriminate.
  - vm_compute; discriminate.
Qed.

(** C4 (the code departs from the claim).  On [three_intervals] the best
    window is the third one of the trunk [(-1)]: both variables are in
    the middle interval, the sweep works with the lower bounds [[3; 3]]
    and the upper bounds [[4; 4]], and the multiplier is [7/2].  The
    recorded partition is [[-1; 2]]; lines 243-259 run on it leave both
    bound arrays at [[0; 0]], so that the vector returned is [(0, 0)]
    rather than the clipping of [7/2] to [[3, 4]]. *)
Theorem reconstructor_bounds_differ_from_sweep_bounds :
  (exists f, enumerate three_intervals = Ok f
             /\ recorded f
                = (Tracker (Fin (49 # 2)) (Some 0%nat) (Some (Fin (7 # 2))),
                   Some [-1; 2]))
  /\ (exists bs, window_bounds three_intervals [-1] 2 = Ok bs
                 /\ lower_bounds bs = [3; 3]%Q
                 /\ upper_bounds bs = [4; 4]%Q)
  /\ lower_of three_intervals 0 [-1; 2] = Ok [0; 0]%Q
  /\ upper_of three_intervals 0 [-1; 2] = Ok [0; 0]%Q
  /\ canon (RAP_disjoint three_intervals) = Ok [Fin 0; Fin 0].
Proof.
  repeat split; try (vm_compute; reflexivity);
    eexists; split; vm_compute; try reflexivity; split; reflexivity.
Qed.

(** C7 (the code departs from the claim).  On [two_semicontinuous] the
    best objective [169/8] is observed in the first window, when the
    partition is [[-1]]; the record holds a reference to the partition
    list, and at the end of the enumeration the same record refers to
    the list [[1]]. *)
Theorem recorded_partition_changes_after_recording :
  (exists f, first_window_evaluated = Ok f
             /\ recorded f
                = (Tracker (Fin (169 # 8)) (Some 0%nat) (Some (Fin (13 # 4))),
                   Some [-1]))
  /\ (exists f, enumerate two_semicontinuous = Ok f
                /\ recorded f
                   = (Tracker (Fin (169 # 8)) (Some 0%nat)
                              (Some (Fin (13 # 4))),
                      Some [1])).
Proof.
  split; eexists; split; vm_compute; reflexivity.
Qed.

(** C8 (the code departs from the claim).  [single_point] is feasible
    (the brute-force search finds the minimum [41/4]), and the run on it
    reaches line 159 with [HELP_var_num_free = 0]: it ends in
    [ZeroDivisionError]. *)
Theorem analytic_branch_divides_by_zero :
  RAP_disjoint single_point = Raise ZeroDivisionError
  /\ option_map Qred (brute_force single_point) = Some (41 # 4)%Q.
Proof. split; vm_compute; reflexivity. Qed.

(** C9, as amended.  With a single interval ([lower_fixed] empty) the
    call [combinations_with_replacement(range(-1, 2), -1)] of line 53
    raises [ValueError], whatever [R] is: no vector is returned. *)
Theorem one_interval_raises_ValueError :
  forall r : Q, RAP_disjoint (one_interval r) = Raise ValueError.
Proof. intro r. reflexivity. Qed.

(** C9 as stated fails: for [R = 0] the closed form is [(-1, 1)], and
    the run does not return it. *)
Lemma one_interval_is_not_water_filling :
  map Qred (closed_form_two 0) = [-1; 1]%Q
  /\ RAP_disjoint (one_interval 0) <> Ok (map Fin (closed_form_two 0)).
Proof.
  split; [vm_compute; reflexivity|].
  intro H. vm_compute in H. discriminate H.
Qed.

(** C5 as stated fails: after the first window of [two_semicontinuous]
    the cursor moves to variable 0, whose bounds become [0] and [0]
    (the first segment), not [lower_fixed[0] = 2] and [upper_var[0] = 6]. *)
Lemma cursor_variable_leaves_final_segment :
  exists f, first_window_evaluated = Ok f
            /\ ~ enters_final_segment two_semicontinuous f.
Proof.
  eexists; split; [vm_compute; reflexivity|].
  intro H.
  specialize (H [-1] (-1)).
  edestruct H as [Hl _]; [reflexivity | reflexivity | vm_compute; reflexivity |].
  vm_compute in Hl. discriminate Hl.
Qed.

(** ** Results and binds *)

Lemma bind_Ok_inv {A B} (c : result A) (k : A -> result B) (y : B) :
  bind c k = Ok y -> exists a, c = Ok a /\ k a = Ok y.
Proof.
  destruct c as [a| |]; simpl; intro H; try discriminate.
  exists a; split; [reflexivity | exact H].
Qed.

Ltac bind_inv H :=
  let a := fresh "a" in
  let Ha := fresh "Ha" in
  apply bind_Ok_inv in H; destruct H as (a & Ha & H).

Lemma Qltb_lt (x y : Q) : Qltb x y = true <-> (x < y)%Q.
Proof.
  unfold Qltb. rewrite Qlt_alt.
  destruct (x ?= y)%Q; split; intro H; congruence.
Qed.

Lemma Qltb_ge (x y : Q) : Qltb x y = false <-> (y <= x)%Q.
Proof.
  rewrite <- Bool.not_true_iff_false, Qltb_lt. split.
  - apply Qnot_lt_le.
  - apply Qle_not_lt.
Qed.

(** ** Indexing *)

Lemma py_pos_nonneg (len : nat) (i : Z) :
  0 <= i < Z.of_nat len -> py_pos len i = Ok (Z.to_nat i).
Proof.
  intros [H0 H1]. unfold py_pos.
  apply Z.leb_le in H0. apply Z.ltb_lt in H1.
  rewrite H0, H1. reflexivity.
Qed.

Lemma py_pos_last (len : nat) :
  py_pos (S len) (-1) = Ok len.
Proof.
  unfold py_pos.
  assert (H0 : (- Z.of_nat (S len) <=? -1) = true) by (apply Z.leb_le; lia).
  rewrite H0. cbn [Z.leb Z.compare andb Z.ltb]. f_equal. lia.
Qed.

Lemma py_pos_lt (len : nat) (i : Z) (p : nat) :
  py_pos len i = Ok p -> (p < len)%nat.
Proof.
  unfold py_pos.
  destruct ((0 <=? i) && (i <? Z.of_nat len)) eqn:E1.
  - apply andb_prop in E1 as [H0 H1].
    apply Z.leb_le in H0. apply Z.ltb_lt in H1.
    intro H; injection H as <-. lia.
  - destruct ((- Z.of_nat len <=? i) && (i <? 0)) eqn:E2; [|discriminate].
    apply andb_prop in E2 as [H0 H1].
    apply Z.leb_le in H0. apply Z.ltb_lt in H1.
    intro H; injection H as <-. lia.
Qed.

Section Indexing.
Context {A : Type}.
Implicit Types (l : list A) (a : A).

Lemma py_get_nth l i a :
  0 <= i < Z.of_nat (length l) ->
  py_get l i = Ok (nth (Z.to_nat i) l a).
Proof.
  intro H. unfold py_get. rewrite (py_pos_nonneg _ _ H). simpl.
  rewrite (nth_error_nth' l a) by lia. reflexivity.
Qed.

Lemma py_get_defined l i :
  0 <= i < Z.of_nat (length l) -> exists a, py_get l i = Ok a.
Proof.
  intro H. destruct l as [|d l'].
  - simpl in H. lia.
  - eexists. apply (py_get_nth _ _ d H).
Qed.

Lemma py_get_last l a : py_get (l ++ [a]) (-1) = Ok a.
Proof.
  unfold py_get. rewrite length_app, Nat.add_comm. simpl length.
  rewrite py_pos_last. simpl.
  rewrite nth_error_app2 by lia. rewrite Nat.sub_diag. reflexivity.
Qed.

Lemma set_nth_length p a l : length (set_nth p a l) = length l.
Proof.
  revert p; induction l as [|x l IH]; intros [|p]; simpl; auto.
Qed.

Lemma nth_error_set_nth p a l :
  (p < length l)%nat -> nth_error (set_nth p a l) p = Some a.
Proof.
  revert p; induction l as [|x l IH]; intros [|p]; simpl; intro H;
    try lia; auto.
  apply IH. lia.
Qed.

Lemma set_nth_last l x a : set_nth (length l) a (l ++ [x]) = l ++ [a].
Proof.
  induction l as [|y l IH]; simpl; [reflexivity | now rewrite IH].
Qed.

Lemma py_set_last l x a : py_set (l ++ [x]) (-1) a = Ok (l ++ [a]).
Proof.
  unfold py_set. rewrite length_app, Nat.add_comm. simpl length.
  rewrite py_pos_last. simpl. now rewrite set_nth_last.
Qed.

Lemma py_set_defined l i a :
  0 <= i < Z.of_nat (length l) ->
  py_set l i a = Ok (set_nth (Z.to_nat i) a l).
Proof.
  intro H. unfold py_set. now rewrite (py_pos_nonneg _ _ H).
Qed.

Lemma py_set_length l i a l' :
  py_set l i a = Ok l' -> length l' = length l.
Proof.
  unfold py_set. intro H. bind_inv H. injection H as <-.
  apply set_nth_length.
Qed.

(** Reading an index just written gives the value written. *)
Lemma py_get_set l i a l' :
  py_set l i a = Ok l' -> py_get l' i = Ok a.
Proof.
  unfold py_set, py_get. intro H. bind_inv H. injection H as <-.
  rewrite set_nth_length, Ha. simpl.
  rewrite nth_error_set_nth; [reflexivity|].
  eapply py_pos_lt; eassumption.
Qed.
End Indexing.

Lemma in_py_range (a c x : Z) : In x (py_range a c) <-> a <= x < c.
Proof.
  unfold py_range. rewrite in_map_iff. split.
  - intros (k & <- & Hk). apply in_seq in Hk. lia.
  - intro H. exists (Z.to_nat (x - a)). split; [lia|].
    apply in_seq. lia.
Qed.

(** ** The cursor step *)

Lemma slide_bounds_spec (I : instance) (v : Z) (bs bs' : bounds) :
  slide_bounds I v bs = Ok bs' ->
  exists lo up bv,
    (if (length (lower_fixed I) =? 1)%nat
     then py_get (lower_var I) v
     else py_get (lower_fixed I) (-2)) = Ok lo
    /\ py_get (upper_fixed I) (-1) = Ok up
    /\ py_get (b I) v = Ok bv
    /\ py_get (lower_bounds bs') v = Ok lo
    /\ py_get (upper_bounds bs') v = Ok up
    /\ py_get (lower_breakpoints bs') v = Ok (lo + bv)%Q
    /\ py_get (upper_breakpoints bs') v = Ok (up + bv)%Q.
Proof.
  unfold slide_bounds. intro H.
  bind_inv H. rename a into bv, Ha into Hb.
  bind_inv H. bind_inv H.
  bind_inv H. rename a1 into lo, Ha1 into Hlo.
  bind_inv H. rename a1 into lbps, Ha1 into Hlbps.
  bind_inv H. rename a1 into up, Ha1 into Hup.
  bind_inv H. rename a1 into ubps, Ha1 into Hubps.
  bind_inv H. rename a1 into lbs, Ha1 into Hlbs.
  bind_inv H. rename a1 into ubs, Ha1 into Hubs.
  bind_inv H. bind_inv H. injection H as <-. simpl.
  exists lo, up, bv. repeat split; auto; eapply py_get_set; eassumption.
Qed.

(** C5, as amended.  When the cursor moves from [c] to [c + 1] and the
    loop goes on, variable [v = c + 1] leaves the final segment for the
    segment before it: its new lower bound is [lower_var[v]] when there
    are two intervals and [lower_fixed[-2]] otherwise, its new upper
    bound is [upper_fixed[-1]], and its new breakpoints are these bounds
    plus [b[v]]. *)
Theorem cursor_variable_enters_previous_segment
    (I : instance) (f f' : frame) (pf : list Z) (c : Z) :
  deref (store f) (partition_full f) = Ok pf ->
  py_get pf (-1) = Ok c ->
  advance I f = Ok (f', true) ->
  exists lo up bv,
    (if (length (lower_fixed I) =? 1)%nat
     then py_get (lower_var I) (c + 1)
     else py_get (lower_fixed I) (-2)) = Ok lo
    /\ py_get (upper_fixed I) (-1) = Ok up
    /\ py_get (b I) (c + 1) = Ok bv
    /\ py_get (lower_bounds (bnds f')) (c + 1) = Ok lo
    /\ py_get (upper_bounds (bnds f')) (c + 1) = Ok up
    /\ py_get (lower_breakpoints (bnds f')) (c + 1) = Ok (lo + bv)%Q
    /\ py_get (upper_breakpoints (bnds f')) (c + 1) = Ok (up + bv)%Q.
Proof.
  intros Hpf Hc H. unfold advance in H.
  rewrite Hpf in H. simpl in H. rewrite Hc in H. simpl in H.
  bind_inv H. rename a into pf', Ha into Hset.
  rewrite (py_get_set _ _ _ _ Hset) in H. simpl in H.
  destruct (num_var I <=? c + 1); [discriminate H|].
  bind_inv H. bind_inv H. bind_inv H. rename a1 into bs, Ha1 into Hbs.
  bind_inv H. injection H as <-. simpl.
  eapply slide_bounds_spec; eassumption.
Qed.

Lemma cursor_variable_enters_previous_segment_witness :
  deref (store evaluated_frame) (partition_full evaluated_frame) = Ok [-1]
  /\ py_get [-1] (-1) = Ok (-1)
  /\ advance two_semicontinuous evaluated_frame = Ok (second_frame, true)
  /\ exists lo up bv,
       py_get (lower_var two_semicontinuous) 0 = Ok lo
       /\ py_get (upper_fixed two_semicontinuous) (-1) = Ok up
       /\ py_get (b two_semicontinuous) 0 = Ok bv
       /\ py_get (lower_bounds (bnds second_frame)) 0 = Ok lo
       /\ py_get (upper_bounds (bnds second_frame)) 0 = Ok up
       /\ py_get (lower_breakpoints (bnds second_frame)) 0 = Ok (lo + bv)%Q
       /\ py_get (upper_breakpoints (bnds second_frame)) 0 = Ok (up + bv)%Q.
Proof.
  split; [vm_compute; reflexivity|].
  split; [vm_compute; reflexivity|].
  split; [vm_compute; reflexivity|].
  apply (cursor_variable_enters_previous_segment
           two_semicontinuous evaluated_frame second_frame [-1] (-1));
    vm_compute; reflexivity.
Defined.

(** ** The best record *)



(** ** The order of the heaps *)

Ltac entry_cases x y :=
  destruct (Qcompare_spec (e_bp x) (e_bp y)) as [?Hq|?Hq|?Hq];
  [destruct (Z.compare_spec (e_idx x) (e_idx y)) as [?Hi|?Hi|?Hi];
   [destruct (Z.compare_spec (e_tag x) (e_tag y)) as [?Ht|?Ht|?Ht]| |]| |].

Lemma entry_le_iff (x y : entry) :
  entry_le x y <->
  (e_bp x < e_bp y)%Q
  \/ ((e_bp x == e_bp y)%Q
      /\ (e_idx x < e_idx y
          \/ (e_idx x = e_idx y /\ e_tag x <= e_tag y))).
Proof.
  unfold entry_le, entry_compare.
  entry_cases x y;
    (split;
     [ intro Hle;
       first [ exfalso; apply Hle; reflexivity
             | left; assumption
             | right; split; [assumption|];
               first [left; assumption | right; split; lia] ]
     | intros [Hl|[He [Hl|[Hl1 Hl2]]]] Hc;
       first [discriminate Hc | lia | lra] ]).
Qed.

Lemma entry_le_trans (x y z : entry) :
  entry_le x y -> entry_le y z -> entry_le x z.
Proof.
  rewrite !entry_le_iff.
  intros [H1|[H1 H1']] [H2|[H2 H2']].
  - left. eapply Qlt_trans; eassumption.
  - left. rewrite <- H2. assumption.
  - left. rewrite H1. assumption.
  - right. split; [rewrite H1; assumption | lia].
Qed.

Lemma entry_ltb_false (x y : entry) :
  entry_ltb x y = false -> entry_le y x.
Proof.
  unfold entry_ltb, entry_compare. intro Hlt. rewrite entry_le_iff.
  entry_cases x y;
    first [ discriminate Hlt
          | left; assumption
          | right; split;
            [lra | first [left; lia | right; split; lia]] ].
Qed.

Lemma entry_ltb_true (x y : entry) : entry_ltb x y = true -> entry_le x y.
Proof.
  unfold entry_ltb, entry_le.
  destruct (entry_compare x y); congruence.
Qed.

Lemma heappush_In (h : heap) (e x : entry) :
  In x (heappush h e) -> x = e \/ In x h.
Proof.
  induction h as [|y h IH]; simpl.
  - intros [<-|[]]. left; reflexivity.
  - destruct (entry_ltb e y); simpl.
    + intros [<-|H]; auto.
    + intros [<-|H]; auto. destruct (IH H); auto.
Qed.

Lemma heappush_ordered (h : heap) (e : entry) :
  heap_ordered h -> heap_ordered (heappush h e).
Proof.
  unfold heap_ordered.
  induction h as [|y h IH]; simpl; intro Hs.
  - constructor; constructor.
  - inversion Hs as [|? ? Hs' Hall]; subst.
    destruct (entry_ltb e y) eqn:E.
    + constructor; [assumption|].
      apply entry_ltb_true in E.
      constructor; [assumption|].
      rewrite Forall_forall in *. intros z Hz.
      eapply entry_le_trans; [exact E | auto].
    + constructor; [auto|].
      apply entry_ltb_false in E.
      rewrite Forall_forall in *. intros z Hz.
      destruct (heappush_In _ _ _ Hz) as [->|Hz']; auto.
Qed.

Lemma heapify_ordered (l : list entry) : heap_ordered (heapify l).
Proof.
  unfold heapify.
  assert (H : forall h, heap_ordered h -> heap_ordered (fold_left heappush l h)).
  { induction l as [|x l IH]; simpl; intros h Hh; [assumption|].
    apply IH. apply heappush_ordered. assumption. }
  apply H. constructor.
Qed.

(** ** Loops that cannot fail *)

Lemma for_each_invariant {X S : Type} (P : S -> Prop) (xs : list X)
    (body : X -> S -> result S) (s : S) :
  (forall x s, In x xs -> P s -> exists s', body x s = Ok s' /\ P s') ->
  P s ->
  exists s', for_each xs body s = Ok s' /\ P s'.
Proof.
  revert s. induction xs as [|x xs IH]; intros s Hbody Hs; simpl.
  - exists s. split; [reflexivity | assumption].
  - destruct (Hbody x s (or_introl eq_refl) Hs) as (s1 & -> & Hs1). simpl.
    apply IH; [|assumption].
    intros y t Hy. apply Hbody. right. assumption.
Qed.

Lemma comprehension_defined {B : Type} (xs : list Z) (f : Z -> result B) :
  (forall x, In x xs -> exists y, f x = Ok y) ->
  exists ys, comprehension xs f = Ok ys /\ length ys = length xs.
Proof.
  induction xs as [|x xs IH]; intro Hf; simpl.
  - exists []. split; reflexivity.
  - destruct (Hf x (or_introl eq_refl)) as (y & ->). simpl.
    destruct IH as (ys & -> & Hlen).
    + intros z Hz. apply Hf. right. assumption.
    + simpl. exists (y :: ys). split; [reflexivity | simpl; congruence].
Qed.

Lemma py_range_length (a c : Z) : length (py_range a c) = Z.to_nat (c - a).
Proof. unfold py_range. now rewrite length_map, length_seq. Qed.

Section MoreIndexing.
Context {A : Type}.
Implicit Types (l : list A) (a : A).

Lemma py_get_from_end l i a :
  - Z.of_nat (length l) <= i < 0 ->
  py_get l i = Ok (nth (Z.to_nat (Z.of_nat (length l) + i)) l a).
Proof.
  intros [H0 H1]. unfold py_get, py_pos.
  assert (E1 : (0 <=? i) = false) by (apply Z.leb_gt; lia).
  apply Z.leb_le in H0. pose proof H1 as H1'. apply Z.ltb_lt in H1.
  rewrite E1, H0, H1. simpl.
  rewrite (nth_error_nth' l a); [reflexivity|]. apply Z.leb_le in H0. lia.
Qed.

Lemma py_get_In l i a : py_get l i = Ok a -> In a l.
Proof.
  unfold py_get. intro H. bind_inv H.
  destruct (nth_error l a0) eqn:E; [|discriminate H].
  injection H as <-. eapply nth_error_In; eassumption.
Qed.

Lemma py_get_nonempty_last l a :
  l <> [] -> py_get l (-1) = Ok (last l a).
Proof.
  intro Hl. destruct (exists_last Hl) as (l' & x & ->).
  rewrite py_get_last, last_last. reflexivity.
Qed.

Lemma deref_set_nth (st : list (list Z)) r x y :
  deref st r = Ok x -> deref (set_nth r y st) r = Ok y.
Proof.
  unfold deref. destruct (nth_error st r) eqn:E; [|discriminate].
  intros _. rewrite nth_error_set_nth; [reflexivity|].
  apply nth_error_Some. congruence.
Qed.
End MoreIndexing.

(** ** Sums *)

Lemma fold_left_Qplus (l : list Q) (a : Q) :
  (fold_left Qplus l a == a + Qsum l)%Q.
Proof.
  revert a. induction l as [|x l IH]; intro a; simpl.
  - ring.
  - rewrite IH. ring.
Qed.

Lemma py_sum_Qsum (l : list Q) : (py_sum l == Qsum l)%Q.
Proof. unfold py_sum. rewrite fold_left_Qplus. ring. Qed.

Lemma Qsum_set_nth (p : nat) (a : Q) (l : list Q) :
  (p < length l)%nat ->
  (Qsum (set_nth p a l) == Qsum l - nth p l 0 + a)%Q.
Proof.
  revert p. induction l as [|x l IH]; intros [|p] H; simpl in *; try lia.
  - ring.
  - rewrite IH by lia. ring.
Qed.

Lemma py_sum_set_nth (p : nat) (a : Q) (l : list Q) :
  (p < length l)%nat ->
  (py_sum (set_nth p a l) == py_sum l - nth p l 0 + a)%Q.
Proof.
  intro H. rewrite !py_sum_Qsum. apply Qsum_set_nth. assumption.
Qed.

(** ** The trunks *)

Lemma cwr_spec (r : nat) (pool p : list Z) :
  In p (cwr r pool) ->
  length p = r /\ Forall (fun x => In x pool) p.
Proof.
  revert pool p. induction r as [|r IH]; intros pool p.
  - simpl. intros [<-|[]]. split; [reflexivity | constructor].
  - induction pool as [|x pool IHpool].
    + simpl. intros [].
    + change (cwr (S r) (x :: pool))
        with (map (cons x) (cwr r (x :: pool)) ++ cwr (S r) pool).
      intro H. apply in_app_or in H as [H|H].
      * apply in_map_iff in H as (q & <- & Hq).
        destruct (IH _ _ Hq) as [Hlen Hall].
        split; [simpl; congruence|].
        constructor; [left; reflexivity | assumption].
      * destruct (IHpool H) as [Hlen Hall]. split; [assumption|].
        eapply Forall_impl; [|exact Hall].
        intros y Hy. right. assumption.
Qed.

(** ** The bounds of the windows are defined *)

Section WindowBounds.
Variable I : instance.
Hypothesis Hwf : well_formed I.

Local Abbreviation n := (num_var I).
Local Abbreviation m := (num_intervals I).

Lemma two_intervals : 2 <= m.
Proof. unfold num_intervals. pose proof (wf_intervals I Hwf). lia. Qed.

Lemma cells_set (arr : list Q) (i : Z) (v : Q) :
  length arr = length (b I) -> 0 <= i < n ->
  exists arr', py_set arr i v = Ok arr' /\ length arr' = length (b I).
Proof.
  intros Hlen Hi. unfold num_var in Hi.
  rewrite py_set_defined by lia.
  eexists. split; [reflexivity|]. now rewrite set_nth_length.
Qed.

Lemma assign_bounds_defined (pf : list Z)
    (first middle final : Z -> result Q) :
  Z.of_nat (length pf) = m - 1 ->
  Forall (fun x => -1 <= x < n) pf ->
  (forall i, 0 <= i < n -> exists v, first i = Ok v) ->
  (forall j, 1 <= j < m - 2 -> exists v, middle j = Ok v) ->
  (forall i, 0 <= i < n -> exists v, final i = Ok v) ->
  exists arr, assign_bounds I 1 pf first middle final = Ok arr
              /\ length arr = length (b I).
Proof.
  intros Hlen Hpf Hfirst Hmiddle Hfinal.
  pose proof two_intervals as Hm.
  rewrite Forall_forall in Hpf.
  assert (Hcell : forall j, 0 <= j < m - 1 ->
            exists x, py_get pf j = Ok x /\ -1 <= x < n).
  { intros j Hj. destruct (py_get_defined pf j) as (x & Hx); [lia|].
    exists x. split; [assumption|]. apply Hpf.
    eapply py_get_In; eassumption. }
  unfold assign_bounds.
  destruct (Hcell 0) as (p0 & -> & Hp0); [lia|]. simpl.
  destruct (for_each_invariant
              (fun arr : list Q => length arr = length (b I))
              (py_range 0 (p0 + 1))
              (fun i arr => v <- first i ;; py_set arr i v)
              (repeat 0%Q (Z.to_nat n))) as (arr1 & -> & H1).
  { intros i arr Hi Harr. apply in_py_range in Hi.
    destruct (Hfirst i) as (v & ->); [lia|]. simpl.
    apply cells_set; [assumption | lia]. }
  { rewrite repeat_length. unfold num_var. apply Nat2Z.id. }
  simpl.
  destruct (for_each_invariant
              (fun arr : list Q => length arr = length (b I))
              (py_range 1 (m - 2))
              (fun j arr =>
                 lo <- py_get pf (j - 1) ;;
                 hi <- py_get pf j ;;
                 for_each (py_range (lo + 1) (hi + 1))
                   (fun i arr => v <- middle j ;; py_set arr i v) arr)
              arr1) as (arr2 & -> & H2); [|assumption|].
  { intros j arr Hj Harr. apply in_py_range in Hj.
    destruct (Hcell (j - 1)) as (lo & -> & Hlo); [lia|]. simpl.
    destruct (Hcell j) as (hi & -> & Hhi); [lia|]. simpl.
    apply for_each_invariant; [|assumption].
    intros i arr' Hi Harr'. apply in_py_range in Hi.
    destruct (Hmiddle j) as (v & ->); [lia|]. simpl.
    apply cells_set; [assumption | lia]. }
  simpl.
  destruct (Hcell (m - 2)) as (pl & -> & Hpl); [lia|]. simpl.
  apply for_each_invariant; [|assumption].
  intros i arr Hi Harr. apply in_py_range in Hi.
  destruct (Hfinal i) as (v & ->); [lia|]. simpl.
  apply cells_set; [assumption | lia].
Qed.

Lemma lower_of_defined (pf : list Z) :
  Z.of_nat (length pf) = m - 1 ->
  Forall (fun x => -1 <= x < n) pf ->
  exists arr, lower_of I 1 pf = Ok arr /\ length arr = length (b I).
Proof.
  intros Hlen Hpf. pose proof two_intervals as Hm.
  unfold lower_of.
  apply assign_bounds_defined; auto;
    intros i Hi; apply py_get_defined;
    unfold num_intervals, num_var in *.
  - rewrite (wf_lower_var I Hwf). lia.
  - lia.
  - lia.
Qed.

Lemma upper_of_defined (pf : list Z) :
  Z.of_nat (length pf) = m - 1 ->
  Forall (fun x => -1 <= x < n) pf ->
  exists arr, upper_of I 1 pf = Ok arr /\ length arr = length (b I).
Proof.
  intros Hlen Hpf. pose proof two_intervals as Hm.
  unfold upper_of.
  apply assign_bounds_defined; auto;
    intros i Hi; apply py_get_defined;
    unfold num_intervals, num_var in *.
  - rewrite (wf_fixed I Hwf). lia.
  - rewrite (wf_fixed I Hwf). lia.
  - rewrite (wf_upper_var I Hwf). lia.
Qed.

Lemma breakpoints_of_defined (bnd : list Q) :
  length bnd = length (b I) ->
  exists bps, breakpoints_of I bnd = Ok bps /\ length bps = length (b I).
Proof.
  intro Hlen. unfold breakpoints_of.
  destruct (comprehension_defined (py_range 0 n)
              (fun i => x <- py_get bnd i ;;
                        y <- py_get (b I) i ;; Ok (x + y)%Q))
    as (bps & -> & Hbps).
  - intros i Hi. apply in_py_range in Hi. unfold num_var in Hi.
    destruct (py_get_defined bnd i) as (x & ->); [lia|]. simpl.
    destruct (py_get_defined (b I) i) as (y & ->); [lia|]. simpl.
    eexists; reflexivity.
  - exists bps. split; [reflexivity|].
    rewrite Hbps, py_range_length. unfold num_var. lia.
Qed.

Lemma initial_bounds_defined (pf : list Z) :
  Z.of_nat (length pf) = m - 1 ->
  Forall (fun x => -1 <= x < n) pf ->
  exists bs, initial_bounds I pf = Ok bs /\ bounds_ok I bs.
Proof.
  intros Hlen Hpf. unfold initial_bounds, initial_lower_bounds,
    initial_upper_bounds.
  destruct (lower_of_defined pf Hlen Hpf) as (lb & -> & Hlb). simpl.
  destruct (upper_of_defined pf Hlen Hpf) as (ub & -> & Hub). simpl.
  destruct (breakpoints_of_defined lb Hlb) as (lbp & -> & Hlbp). simpl.
  destruct (breakpoints_of_defined ub Hub) as (ubp & -> & Hubp). simpl.
  eexists. split; [reflexivity|].
  unfold bounds_ok; simpl. repeat split; auto; reflexivity.
Qed.

Lemma py_get_set_nth (l : list Q) (i : Z) (a : Q) :
  0 <= i < Z.of_nat (length l) ->
  py_get (set_nth (Z.to_nat i) a l) i = Ok a.
Proof.
  intro H. eapply py_get_set. apply py_set_defined. assumption.
Qed.

Lemma slide_bounds_defined (v : Z) (bs : bounds) :
  bounds_ok I bs -> 0 <= v < n ->
  exists bs', slide_bounds I v bs = Ok bs' /\ bounds_ok I bs'.
Proof.
  intros (Hlb & Hub & Hlbp & Hubp & Hcl & Hcu) Hv. unfold num_var in Hv.
  pose proof (wf_intervals I Hwf) as Hone.
  pose proof (wf_fixed I Hwf) as Hfixed.
  pose proof (wf_lower_var I Hwf) as Hlv.
  unfold slide_bounds.
  rewrite (py_get_nth (b I) v 0%Q) by lia. simpl.
  rewrite (py_get_nth (lower_bounds bs) v 0%Q) by lia. simpl.
  rewrite (py_get_nth (upper_bounds bs) v 0%Q) by lia. simpl.
  assert (Hnew : exists new_lo,
             (if (length (lower_fixed I) =? 1)%nat
              then py_get (lower_var I) v
              else py_get (lower_fixed I) (-2)) = Ok new_lo).
  { destruct (length (lower_fixed I) =? 1)%nat eqn:E.
    - apply py_get_defined. lia.
    - apply Nat.eqb_neq in E. eexists.
      apply (py_get_from_end _ _ 0%Q). lia. }
  destruct Hnew as (new_lo & ->). simpl.
  rewrite (py_set_defined (lower_breakpoints bs) v) by lia. simpl.
  rewrite (py_get_from_end (upper_fixed I) (-1) 0%Q) by lia. simpl.
  rewrite (py_set_defined (upper_breakpoints bs) v) by lia. simpl.
  rewrite (py_set_defined (lower_bounds bs) v) by lia. simpl.
  rewrite (py_set_defined (upper_bounds bs) v) by lia. simpl.
  rewrite !py_get_set_nth by lia. simpl.
  eexists. split; [reflexivity|].
  unfold bounds_ok; simpl. rewrite !set_nth_length.
  repeat split; auto.
  - rewrite py_sum_set_nth by lia. rewrite Hcl. reflexivity.
  - rewrite py_sum_set_nth by lia. rewrite Hcu. reflexivity.
Qed.

(** The trunks are the non-decreasing tuples over [-1 .. n-1]. *)
Lemma trunk_shape (p : list Z) :
  In p (trunks I) ->
  Z.of_nat (length p) = m - 2 /\ Forall (fun x => -1 <= x < n) p.
Proof.
  intro Hp. pose proof two_intervals as Hm.
  destruct (cwr_spec _ _ _ Hp) as [Hlen Hall]. split; [lia|].
  eapply Forall_impl; [|exact Hall].
  intros x Hx. apply in_py_range in Hx. lia.
Qed.

Lemma seed_range (p : list Z) :
  Forall (fun x => -1 <= x < n) p -> -1 <= seed p < n.
Proof.
  intro Hall. unfold seed. destruct p as [|x p].
  - simpl. unfold num_var. lia.
  - rewrite Forall_forall in Hall. apply Hall.
    destruct (@exists_last _ (x :: p)) as (q & y & ->); [discriminate|].
    rewrite last_last. apply in_or_app. right. left. reflexivity.
Qed.

Lemma full_partition_shape (p : list Z) :
  In p (trunks I) ->
  Z.of_nat (length (p ++ [seed p])) = m - 1
  /\ Forall (fun x => -1 <= x < n) (p ++ [seed p]).
Proof.
  intro Hp. destruct (trunk_shape p Hp) as [Hlen Hall]. split.
  - rewrite length_app. simpl. lia.
  - apply Forall_app. split; [assumption|].
    constructor; [|constructor]. apply seed_range. assumption.
Qed.

Lemma window_bounds_S (p : list Z) (k : nat) :
  window_bounds I p (S k)
  = bind (window_bounds I p k) (slide_bounds I (seed p + Z.of_nat (S k))).
Proof. reflexivity. Qed.

Lemma py_get_upper_end (l : list Q) (i : Z) (a : Q) :
  0 <= i -> py_get l i = Ok a -> i < Z.of_nat (length l).
Proof.
  intros Hi H. unfold py_get, py_pos in H.
  destruct ((0 <=? i) && (i <? Z.of_nat (length l))) eqn:E.
  - apply andb_prop in E as [_ E]. apply Z.ltb_lt in E. assumption.
  - assert (E' : (i <? 0) = false) by (apply Z.ltb_ge; assumption).
    rewrite E', andb_false_r in H. discriminate H.
Qed.

Lemma slide_index_range (v : Z) (bs bs' : bounds) :
  0 <= v -> slide_bounds I v bs = Ok bs' -> 0 <= v < n.
Proof.
  intros Hv H. unfold slide_bounds in H. bind_inv H.
  split; [assumption|]. unfold num_var.
  eapply py_get_upper_end; eassumption.
Qed.

Lemma window_bounds_ok (p : list Z) (k : nat) (bs : bounds) :
  In p (trunks I) ->
  window_bounds I p k = Ok bs -> bounds_ok I bs.
Proof.
  intro Hp. revert bs. induction k as [|k IH]; intros bs H.
  - destruct (full_partition_shape p Hp) as [Hlen Hall].
    destruct (initial_bounds_defined _ Hlen Hall) as (bs0 & H0 & Hok).
    simpl in H. congruence.
  - rewrite window_bounds_S in H. bind_inv H.
    destruct (trunk_shape p Hp) as [_ Hall].
    pose proof (seed_range p Hall) as Hseed.
    assert (Hv : 0 <= seed p + Z.of_nat (S k)) by lia.
    pose proof (slide_index_range _ _ _ Hv H) as Hrange.
    destruct (slide_bounds_defined _ a (IH _ Ha) Hrange)
      as (bs' & H' & Hok).
    congruence.
Qed.

End WindowBounds.

(** ** Every run ends, and [TypeError] has a single source

    A result is quiet when it is neither the exhaustion of the model's
    loop budget nor a [TypeError]. *)

Lemma quiet_bind {A B : Type} (c : result A) (k : A -> result B) :
  quiet c -> (forall a, c = Ok a -> quiet (k a)) -> quiet (bind c k).
Proof.
  intros [Ht He] Hk. destruct c as [a|e|]; simpl.
  - apply Hk. reflexivity.
  - split; [discriminate|].
    intro H. injection H as ->. apply He. reflexivity.
  - contradiction.
Qed.

Lemma quiet_Ok {A : Type} (a : A) : quiet (Ok a).
Proof. split; discriminate. Qed.

Lemma quiet_py_pos (len : nat) (i : Z) : quiet (py_pos len i).
Proof.
  unfold py_pos.
  destruct ((0 <=? i) && (i <? Z.of_nat len));
    [|destruct ((- Z.of_nat len <=? i) && (i <? 0))];
    split; discriminate.
Qed.

Lemma quiet_py_get {A : Type} (l : list A) (i : Z) : quiet (py_get l i).
Proof.
  unfold py_get. apply quiet_bind; [apply quiet_py_pos|].
  intros p _. destruct (nth_error l p); split; discriminate.
Qed.

Lemma quiet_py_set {A : Type} (l : list A) (i : Z) (a : A) :
  quiet (py_set l i a).
Proof.
  unfold py_set. apply quiet_bind; [apply quiet_py_pos|].
  intros p _. apply quiet_Ok.
Qed.

Lemma quiet_heap_top (h : heap) : quiet (heap_top h).
Proof. destruct h; split; discriminate. Qed.

Lemma quiet_heappop (h : heap) : quiet (heappop h).
Proof. destruct h; split; discriminate. Qed.

Lemma quiet_local {A : Type} (v : option A) : quiet (local v).
Proof. destruct v; split; discriminate. Qed.

Lemma quiet_deref (st : list (list Z)) (r : nat) : quiet (deref st r).
Proof. unfold deref. destruct (nth_error st r); split; discriminate. Qed.

Lemma quiet_for_each {X S : Type} (xs : list X)
    (body : X -> S -> result S) (s : S) :
  (forall x s, In x xs -> quiet (body x s)) -> quiet (for_each xs body s).
Proof.
  revert s. induction xs as [|x xs IH]; intros s Hbody; simpl.
  - apply quiet_Ok.
  - apply quiet_bind; [apply Hbody; left; reflexivity|].
    intros s' _. apply IH. intros y t Hy. apply Hbody. right. assumption.
Qed.

Lemma quiet_comprehension {B : Type} (xs : list Z) (f : Z -> result B) :
  (forall x, quiet (f x)) -> quiet (comprehension xs f).
Proof.
  intro Hf. induction xs as [|x xs IH]; simpl.
  - apply quiet_Ok.
  - apply quiet_bind; [apply Hf|]. intros y _.
    apply quiet_bind; [apply IH|]. intros ys _. apply quiet_Ok.
Qed.

Lemma quiet_math_pow2 (q : Q) : quiet (math_pow2 q).
Proof.
  unfold math_pow2. destruct (Qle_bool float_overflow (pow2 q));
    split; discriminate.
Qed.

Lemma quiet_math_npow2 (x : num) : quiet (math_npow2 x).
Proof.
  destruct x as [q| | |]; cbn [math_npow2]; try (split; discriminate).
  apply quiet_bind; [apply quiet_math_pow2|].
  intros sq _. split; discriminate.
Qed.

Ltac quiet_step :=
  first
    [ apply quiet_Ok
    | apply quiet_math_pow2
    | apply quiet_math_npow2
    | apply quiet_py_get
    | apply quiet_py_set
    | apply quiet_heap_top
    | apply quiet_heappop
    | apply quiet_local
    | apply quiet_deref
    | apply quiet_for_each; intros
    | apply quiet_comprehension; intros
    | apply quiet_bind; [|intros ? ?]
    | match goal with
      | |- quiet (if ?c then _ else _) => destruct c
      | |- quiet (match ?x with _ => _ end) => destruct x
      | |- quiet (Raise _) => split; discriminate
      end ].

Ltac quiet_auto := repeat quiet_step.

Lemma quiet_assign_bounds (I : instance) (shift : Z) (pf : list Z)
    (first middle final : Z -> result Q) :
  (forall i, quiet (first i)) -> (forall j, quiet (middle j)) ->
  (forall i, quiet (final i)) ->
  quiet (assign_bounds I shift pf first middle final).
Proof.
  intros H1 H2 H3. unfold assign_bounds. quiet_auto; auto.
Qed.

Lemma quiet_lower_of (I : instance) (shift : Z) (pf : list Z) :
  quiet (lower_of I shift pf).
Proof.
  unfold lower_of. apply quiet_assign_bounds; intros; apply quiet_py_get.
Qed.

Lemma quiet_upper_of (I : instance) (shift : Z) (pf : list Z) :
  quiet (upper_of I shift pf).
Proof.
  unfold upper_of. apply quiet_assign_bounds; intros; apply quiet_py_get.
Qed.

Lemma quiet_breakpoints_of (I : instance) (bnd : list Q) :
  quiet (breakpoints_of I bnd).
Proof. unfold breakpoints_of. quiet_auto. Qed.

Lemma quiet_initial_bounds (I : instance) (pf : list Z) :
  quiet (initial_bounds I pf).
Proof.
  unfold initial_bounds, initial_lower_bounds, initial_upper_bounds.
  apply quiet_bind; [apply quiet_lower_of | intros lb _].
  apply quiet_bind; [apply quiet_upper_of | intros ub _].
  apply quiet_bind; [apply quiet_breakpoints_of | intros lbp _].
  apply quiet_bind; [apply quiet_breakpoints_of | intros ubp _].
  apply quiet_Ok.
Qed.

Lemma quiet_initial_engine (I : instance) (bs : bounds) :
  quiet (initial_engine I bs).
Proof. unfold initial_engine, entries_of. quiet_auto. Qed.

Lemma quiet_trunk_init (I : instance) (p : list Z) (f : frame) :
  quiet (trunk_init I p f).
Proof.
  unfold trunk_init.
  apply quiet_bind; [quiet_auto | intros tl _].
  apply quiet_bind; [apply quiet_initial_bounds | intros bs _].
  apply quiet_bind; [apply quiet_initial_engine | intros e _].
  apply quiet_Ok.
Qed.

Lemma quiet_slide_bounds (I : instance) (v : Z) (bs : bounds) :
  quiet (slide_bounds I v bs).
Proof. unfold slide_bounds. quiet_auto. Qed.

Lemma quiet_first_round (I : instance) (mult : num) (v : Z)
    (bs : bounds) (e : engine) :
  quiet (first_round I mult v bs e).
Proof. unfold first_round. quiet_auto. Qed.

Lemma quiet_second_round (I : instance) (mult : num) (v : Z)
    (bs : bounds) (e : engine) :
  quiet (second_round I mult v bs e).
Proof. unfold second_round. quiet_auto. Qed.

Lemma quiet_advance (I : instance) (f : frame) : quiet (advance I f).
Proof.
  unfold advance.
  apply quiet_bind; [apply quiet_deref | intros pf _].
  apply quiet_bind; [apply quiet_py_get | intros c _].
  apply quiet_bind; [apply quiet_py_set | intros pf' _].
  apply quiet_bind; [apply quiet_py_get | intros v _].
  destruct (num_var I <=? v); [apply quiet_Ok|].
  apply quiet_bind; [apply quiet_local | intros mult _].
  apply quiet_bind; [apply quiet_first_round | intros e _].
  apply quiet_bind; [apply quiet_slide_bounds | intros bs _].
  apply quiet_bind; [apply quiet_second_round | intros e' _].
  apply quiet_Ok.
Qed.

Lemma quiet_dropped (upto : bool) (pf : list Z) (e : entry) :
  quiet (dropped upto pf e).
Proof. unfold dropped, part_bound. quiet_auto. Qed.

Lemma quiet_find_candidate (upto : bool) (pf : list Z) (h : heap) :
  forall cnt, quiet (find_candidate upto pf h cnt).
Proof.
  induction h as [|e h IH]; intro cnt; cbn [find_candidate];
    destruct (0 <? cnt); try apply quiet_Ok.
  - split; discriminate.
  - apply quiet_bind; [apply quiet_dropped | intros d _].
    destruct d; [apply IH | apply quiet_Ok].
Qed.

(** The candidate search only pops entries. *)
Lemma find_candidate_length (upto : bool) (pf : list Z) (h : heap) :
  forall cnt c h' cnt',
    find_candidate upto pf h cnt = Ok (c, h', cnt') ->
    (length h' <= length h)%nat.
Proof.
  induction h as [|e h IH]; intros cnt c h' cnt' H;
    cbn [find_candidate] in H; destruct (0 <? cnt).
  - discriminate H.
  - injection H as _ <- _. apply Nat.le_refl.
  - bind_inv H. destruct a.
    + apply IH in H. simpl. lia.
    + injection H as _ <- _. apply Nat.le_refl.
  - injection H as _ <- _. apply Nat.le_refl.
Qed.

Lemma heappop_length (h h' : heap) :
  heappop h = Ok h' -> length h = S (length h').
Proof. destruct h; [discriminate|]. intro H; injection H as <-. reflexivity. Qed.

(** A pass that goes on has popped the top of one heap, after the
    entries that [find_candidate] dropped: the lower heap when the lower
    candidate is strictly smaller, the upper heap otherwise. *)
Lemma search_round_Continue (I : instance) (pf : list Z) (bs : bounds)
    (e e' : engine) :
  search_round I pf bs e = Ok (Continue e') ->
  exists cl hl nl cu hu nu top,
    find_candidate false pf (heap_lower_BPs e) (HELP_num_lower_heap e)
    = Ok (cl, hl, nl)
    /\ find_candidate true pf (heap_upper_BPs e) (HELP_num_upper_heap e)
       = Ok (cu, hu, nu)
    /\ ((nlt cl cu = true
         /\ hl = top :: heap_lower_BPs e'
         /\ HELP_num_lower_heap e' = nl - 1
         /\ heap_upper_BPs e' = hu /\ HELP_num_upper_heap e' = nu)
        \/ (nlt cl cu = false
            /\ hu = top :: heap_upper_BPs e'
            /\ HELP_num_upper_heap e' = nu - 1
            /\ heap_lower_BPs e' = hl /\ HELP_num_lower_heap e' = nl)).
Proof.
  unfold search_round. intro H.
  bind_inv H. destruct a as [[cl hl] nl].
  bind_inv H. destruct a as [[cu hu] nu].
  cbn [HELP_var_Bounded HELP_var_Free HELP_var_num_free
       HELP_var_value_Bound] in H.
  match type of H with
  | (if ?c then _ else _) = _ => destruct c
  end.
  { bind_inv H. discriminate H. }
  match type of H with
  | (if ?c then _ else _) = _ => destruct c
  end.
  { destruct (HELP_var_num_free e =? 0); [discriminate H|].
    bind_inv H. discriminate H. }
  exists cl, hl, nl, cu, hu, nu.
  destruct (nlt cl cu) eqn:E.
  - bind_inv H. rename a into top. exists top.
    bind_inv H. bind_inv H. bind_inv H. bind_inv H.
    injection H as <-. cbn [heap_lower_BPs heap_upper_BPs
                            HELP_num_lower_heap HELP_num_upper_heap].
    split; [assumption|]. split; [assumption|]. left.
    destruct hl as [|x hl0]; [discriminate Ha1|].
    injection Ha1 as <-. injection Ha5 as <-. auto.
  - bind_inv H. rename a into top. exists top.
    bind_inv H. bind_inv H. bind_inv H. bind_inv H.
    injection H as <-. cbn [heap_lower_BPs heap_upper_BPs
                            HELP_num_lower_heap HELP_num_upper_heap].
    split; [assumption|]. split; [assumption|]. right.
    destruct hu as [|x hu0]; [discriminate Ha1|].
    injection Ha1 as <-. injection Ha5 as <-. auto.
Qed.

Lemma quiet_search_round (I : instance) (pf : list Z) (bs : bounds)
    (e : engine) :
  quiet (search_round I pf bs e).
Proof.
  unfold search_round.
  apply quiet_bind; [apply quiet_find_candidate | intros [[cl hl] nl] _].
  apply quiet_bind; [apply quiet_find_candidate | intros [[cu hu] nu] _].
  cbn [HELP_var_Bounded HELP_var_Free HELP_var_num_free
       HELP_var_value_Bound].
  quiet_auto.
Qed.

(** The budget [search_fuel] is enough for the breakpoint search. *)
Lemma quiet_search (I : instance) (pf : list Z) (bs : bounds) (fuel : nat) :
  forall e,
    (length (heap_lower_BPs e) + length (heap_upper_BPs e) < fuel)%nat ->
    quiet (search I fuel pf bs e).
Proof.
  induction fuel as [|fuel IH]; intros e Hfuel; [lia|].
  cbn [search].
  apply quiet_bind; [apply quiet_search_round | intros [e' mult obj|e'] Ho].
  - apply quiet_Ok.
  - apply IH.
    destruct (search_round_Continue _ _ _ _ _ Ho)
      as (cl & hl & nl & cu & hu & nu & top & Hl & Hu & Hpop).
    apply find_candidate_length in Hl, Hu.
    destruct Hpop as [(_ & Hh & _ & -> & _)|(_ & Hh & _ & -> & _)];
      rewrite Hh in *; simpl in *; lia.
Qed.

Lemma quiet_evaluate (I : instance) (f : frame) : quiet (evaluate I f).
Proof.
  unfold evaluate.
  destruct (Qltb (R I) (HELP_feasible_check_lower (bnds f)));
    [apply quiet_Ok|].
  destruct (Qltb (HELP_feasible_check_upper (bnds f)) (R I));
    [apply quiet_Ok|].
  apply quiet_bind; [apply quiet_deref | intros pf _].
  apply quiet_bind.
  - apply quiet_search. unfold search_fuel. lia.
  - intros [[e mult] obj] _. apply quiet_Ok.
Qed.

(** What a window and a cursor step do to the frame. *)
Lemma evaluate_frame (I : instance) (f f' : frame) :
  evaluate I f = Ok (Some f') ->
  store f' = store f /\ partition_full f' = partition_full f
  /\ (best f' = best f
      \/ exists obj mult,
           best f' = Tracker obj (Some (partition_full f)) (Some mult)).
Proof.
  unfold evaluate. intro H.
  destruct (Qltb (R I) (HELP_feasible_check_lower (bnds f))).
  - injection H as <-. simpl. auto.
  - destruct (Qltb (HELP_feasible_check_upper (bnds f)) (R I));
      [discriminate H|].
    bind_inv H. bind_inv H. destruct a0 as [[e mult] obj].
    injection H as <-. simpl. split; [reflexivity|]. split; [reflexivity|].
    unfold track. destruct (nlt obj (current_best_obj (best f)));
      [right; eauto | left; reflexivity].
Qed.

Lemma advance_frame (I : instance) (f f' : frame) (go : bool)
    (pf : list Z) (c : Z) :
  deref (store f) (partition_full f) = Ok pf ->
  py_get pf (-1) = Ok c ->
  advance I f = Ok (f', go) ->
  best f' = best f
  /\ partition_full f' = partition_full f
  /\ (go = true -> c + 1 < num_var I)
  /\ exists pf', deref (store f') (partition_full f') = Ok pf'
                 /\ py_get pf' (-1) = Ok (c + 1).
Proof.
  intros Hpf Hc H. unfold advance in H.
  rewrite Hpf in H. cbn [bind] in H. rewrite Hc in H. cbn [bind] in H.
  bind_inv H. rename a into pf', Ha into Hset.
  pose proof (py_get_set _ _ _ _ Hset) as Hget.
  rewrite Hget in H. cbn [bind] in H.
  assert (Hst : deref (set_nth (partition_full f) pf' (store f))
                      (partition_full f) = Ok pf')
    by (eapply deref_set_nth; eassumption).
  destruct (num_var I <=? c + 1) eqn:E.
  - injection H as <- <-. cbn [best store partition_full].
    split; [reflexivity|]. split; [reflexivity|].
    split; [discriminate|]. exists pf'. split; assumption.
  - apply Z.leb_gt in E.
    bind_inv H. bind_inv H. bind_inv H. bind_inv H.
    injection H as <- <-. cbn [best store partition_full].
    split; [reflexivity|]. split; [reflexivity|].
    split; [intros _; assumption|]. exists pf'. split; assumption.
Qed.

Lemma advance_best (I : instance) (f f' : frame) (go : bool) :
  advance I f = Ok (f', go) -> best f' = best f.
Proof.
  unfold advance. intro H.
  bind_inv H. bind_inv H. bind_inv H. bind_inv H.
  destruct (num_var I <=? a2).
  - injection H as <- _. reflexivity.
  - bind_inv H. bind_inv H. bind_inv H. bind_inv H.
    injection H as <- _. reflexivity.
Qed.

(** The budget of the [while] loop is enough once it exceeds the
    distance of the cursor from [num_var]. *)
Lemma quiet_sweep (I : instance) (fuel : nat) :
  forall f,
    (0 < fuel)%nat ->
    (forall pf c, deref (store f) (partition_full f) = Ok pf ->
                  py_get pf (-1) = Ok c ->
                  (Z.to_nat (num_var I - c) < fuel)%nat) ->
    quiet (sweep I fuel f).
Proof.
  induction fuel as [|fuel IH]; intros f Hpos Hfuel; [lia|].
  cbn [sweep].
  apply quiet_bind; [apply quiet_deref | intros pf Hpf].
  apply quiet_bind; [apply quiet_py_get | intros c Hc].
  destruct (c <? num_var I) eqn:Ecur; [|apply quiet_Ok].
  apply Z.ltb_lt in Ecur.
  apply quiet_bind; [apply quiet_evaluate | intros [f1|] Hev];
    [|apply quiet_Ok].
  destruct (evaluate_frame _ _ _ Hev) as (Hst & Href & _).
  apply quiet_bind; [apply quiet_advance | intros [f2 go] Hadv].
  destruct go; [|apply quiet_Ok].
  rewrite <- Hst, <- Href in Hpf.
  destruct (advance_frame _ _ _ _ _ _ Hpf Hc Hadv)
    as (_ & _ & Hlt & pf' & Hpf' & Hc').
  specialize (Hlt eq_refl).
  specialize (Hfuel pf c).
  rewrite Hst, Href in Hpf. specialize (Hfuel Hpf Hc).
  apply IH; [lia|].
  intros pf2 c2 Hpf2 Hc2.
  rewrite Hpf' in Hpf2. injection Hpf2 as <-.
  rewrite Hc' in Hc2. injection Hc2 as <-. lia.
Qed.

Lemma quiet_trunk_body (I : instance) (p : list Z) (f : frame) :
  Forall (fun x => -1 <= x) p -> quiet (trunk_body I p f).
Proof.
  intro Hp. unfold trunk_body.
  apply quiet_bind; [apply quiet_trunk_init | intros f0 H0].
  apply quiet_sweep; [lia|].
  intros pf c Hpf Hc.
  unfold trunk_init in H0. bind_inv H0. rename a into tl, Ha into Htl.
  bind_inv H0. bind_inv H0. injection H0 as <-.
  cbn [store partition_full] in Hpf. unfold deref in Hpf.
  rewrite nth_error_app2 in Hpf by lia. rewrite Nat.sub_diag in Hpf.
  cbn [nth_error] in Hpf. injection Hpf as <-.
  rewrite py_get_last in Hc. injection Hc as <-.
  assert (Hge : -1 <= tl).
  { destruct (length p =? 0)%nat.
    - injection Htl as <-. lia.
    - apply py_get_In in Htl. rewrite Forall_forall in Hp. auto. }
  unfold num_var. lia.
Qed.

Lemma quiet_enumerate (I : instance) : quiet (enumerate I).
Proof.
  unfold enumerate, combinations_with_replacement.
  destruct (num_intervals I - 2 <? 0); [split; discriminate|].
  cbn [bind]. apply quiet_for_each. intros p f Hp.
  apply quiet_trunk_body.
  apply cwr_spec in Hp as [_ Hall].
  eapply Forall_impl; [|exact Hall].
  intros x Hx. apply in_py_range in Hx. lia.
Qed.

(** X13.  The model's loop budgets never run out: a call returns a
    vector or raises.  The [while] loop of line 109 runs at most
    [num_var + 1] times in a trunk and the search of lines 115-178 pops
    an entry in every round but its last. *)
Lemma RAP_disjoint_ends (I : instance) : RAP_disjoint I <> Exhausted.
Proof.
  unfold RAP_disjoint.
  destruct (quiet_enumerate I) as [Ht _].
  destruct (enumerate I) as [f| |]; cbn [bind];
    [|discriminate|contradiction].
  unfold reconstruct.
  destruct (current_best_partition (best f)) as [ref|]; [|discriminate].
  destruct (deref (store f) ref) as [cbp| |] eqn:E; cbn [bind];
    [|discriminate | destruct (quiet_deref (store f) ref); congruence].
  destruct (quiet_lower_of I 0 cbp) as [Hl _].
  destruct (lower_of I 0 cbp) as [lb| |]; cbn [bind];
    [|discriminate|contradiction].
  destruct (quiet_upper_of I 0 cbp) as [Hu _].
  destruct (upper_of I 0 cbp) as [ub| |]; cbn [bind];
    [|discriminate|contradiction].
  destruct (quiet_breakpoints_of I lb) as [Hlb _].
  destruct (breakpoints_of I lb) as [lbp| |]; cbn [bind];
    [|discriminate|contradiction].
  destruct (quiet_breakpoints_of I ub) as [Hub _].
  destruct (breakpoints_of I ub) as [ubp| |]; cbn [bind];
    [|discriminate|contradiction].
  generalize (py_range 0 (num_var I)). intro xs.
  induction xs as [|x xs IH]; cbn [comprehension]; [discriminate|].
  destruct (py_get ub x) as [up| |] eqn:Eu; cbn [bind];
    [|discriminate | destruct (quiet_py_get ub x); congruence].
  destruct (py_get lb x) as [lo| |] eqn:El; cbn [bind];
    [|discriminate | destruct (quiet_py_get lb x); congruence].
  destruct (current_best_mult (best f)); cbn [bind]; [|discriminate].
  destruct (py_get (b I) x) as [bi| |] eqn:Eb; cbn [bind];
    [|discriminate | destruct (quiet_py_get (b I) x); congruence].
  destruct (comprehension xs _) as [ys| |]; cbn [bind];
    [discriminate | discriminate | contradiction].
Qed.

(** ** The best record is written in one piece *)

Lemma for_each_preserves {X S : Type} (P : S -> Prop) (xs : list X)
    (body : X -> S -> result S) :
  (forall x s s', body x s = Ok s' -> P s -> P s') ->
  forall s s', for_each xs body s = Ok s' -> P s -> P s'.
Proof.
  intro Hbody. induction xs as [|x xs IH]; intros s s' H Hs; simpl in H.
  - injection H as <-. assumption.
  - bind_inv H. eapply IH; [eassumption|]. eapply Hbody; eassumption.
Qed.

Lemma sweep_recorded_together (I : instance) (fuel : nat) :
  forall f f',
    sweep I fuel f = Ok f' ->
    recorded_together (best f) -> recorded_together (best f').
Proof.
  induction fuel as [|fuel IH]; intros f f' H Hf; [discriminate H|].
  cbn [sweep] in H. bind_inv H. bind_inv H.
  destruct (a0 <? num_var I); [|injection H as <-; assumption].
  bind_inv H. destruct a1 as [f1|]; [|injection H as <-; assumption].
  assert (H1 : recorded_together (best f1)).
  { destruct (evaluate_frame _ _ _ Ha1) as (_ & _ & [->|(obj & mult & ->)]);
      [assumption|].
    intros _. discriminate. }
  bind_inv H. destruct a1 as [f2 go].
  pose proof (advance_best _ _ _ _ Ha2) as Hb.
  destruct go.
  - eapply IH; [eassumption|]. rewrite Hb. assumption.
  - injection H as <-. rewrite Hb. assumption.
Qed.

Lemma enumerate_recorded_together (I : instance) (f : frame) :
  enumerate I = Ok f -> recorded_together (best f).
Proof.
  unfold enumerate. intro H. bind_inv H.
  eapply (for_each_preserves (fun f => recorded_together (best f)));
    [|eassumption|].
  - intros p s s' Hbody Hs. unfold trunk_body in Hbody. bind_inv Hbody.
    eapply sweep_recorded_together; [eassumption|].
    unfold trunk_init in Ha0. bind_inv Ha0. bind_inv Ha0. bind_inv Ha0.
    injection Ha0 as <-. assumption.
  - intro Hn. exfalso. apply Hn. reflexivity.
Qed.

Lemma quiet_reconstruct (I : instance) (st : list (list Z)) (t : tracker) :
  current_best_partition t <> None ->
  current_best_mult t <> None ->
  quiet (reconstruct I st t).
Proof.
  intros Hp Hm. unfold reconstruct.
  destruct (current_best_partition t); [|contradiction].
  destruct (current_best_mult t); [|contradiction].
  apply quiet_bind; [apply quiet_deref | intros cbp _].
  apply quiet_bind; [apply quiet_lower_of | intros lb _].
  apply quiet_bind; [apply quiet_upper_of | intros ub _].
  apply quiet_bind; [apply quiet_breakpoints_of | intros lbp _].
  apply quiet_bind; [apply quiet_breakpoints_of | intros ubp _].
  quiet_auto.
Qed.

(** X14.  On any input, line 244 is the only place a [TypeError] can
    come from: the run ends in [TypeError] only when the enumeration has
    finished without recording a window. *)
Lemma TypeError_only_without_record (I : instance) :
  RAP_disjoint I = Raise TypeError ->
  exists f, enumerate I = Ok f /\ current_best_partition (best f) = None.
Proof.
  unfold RAP_disjoint. intro H.
  destruct (quiet_enumerate I) as [Ht He].
  destruct (enumerate I) as [f|e|] eqn:E; cbn [bind] in H;
    [|congruence|contradiction].
  exists f. split; [reflexivity|].
  destruct (current_best_partition (best f)) as [r|] eqn:Er;
    [|reflexivity].
  exfalso.
  pose proof (enumerate_recorded_together I f E) as Hrec.
  destruct (quiet_reconstruct I (store f) (best f)) as [_ Hq].
  - congruence.
  - apply Hrec. congruence.
  - contradiction.
Qed.

Lemma TypeError_only_without_record_witness :
  RAP_disjoint out_of_reach_instance = Raise TypeError
  /\ exists f, enumerate out_of_reach_instance = Ok f
               /\ current_best_partition (best f) = None.
Proof.
  assert (H : RAP_disjoint out_of_reach_instance = Raise TypeError)
    by (vm_compute; reflexivity).
  split; [exact H|].
  exact (TypeError_only_without_record out_of_reach_instance H).
Defined.

(** ** The recorded partition is the live list *)

(** X15.  Whatever a window records, the statement after it (line 187)
    moves the cursor cell of the very list the record refers to. *)
Lemma recording_is_followed_by_a_move (I : instance) (f f1 f2 : frame)
    (go : bool) (pf : list Z) (c : Z) :
  deref (store f) (partition_full f) = Ok pf ->
  py_get pf (-1) = Ok c ->
  evaluate I f = Ok (Some f1) ->
  advance I f1 = Ok (f2, go) ->
  exists pf', deref (store f2) (partition_full f) = Ok pf'
              /\ py_get pf' (-1) = Ok (c + 1).
Proof.
  intros Hpf Hc Hev Hadv.
  destruct (evaluate_frame _ _ _ Hev) as (Hst & Href & _).
  rewrite <- Hst, <- Href in Hpf.
  destruct (advance_frame _ _ _ _ _ _ Hpf Hc Hadv)
    as (_ & Href' & _ & pf' & Hpf' & Hc').
  exists pf'. split; [|assumption]. congruence.
Qed.

Lemma recording_is_followed_by_a_move_witness :
  deref (store first_frame) (partition_full first_frame) = Ok [-1]
  /\ py_get [-1] (-1) = Ok (-1)
  /\ evaluate two_semicontinuous first_frame = Ok (Some evaluated_frame)
  /\ advance two_semicontinuous evaluated_frame = Ok (second_frame, true)
  /\ exists pf',
       deref (store second_frame) (partition_full first_frame) = Ok pf'
       /\ py_get pf' (-1) = Ok (-1 + 1).
Proof.
  assert (Hd : deref (store first_frame) (partition_full first_frame)
               = Ok [-1]) by (vm_compute; reflexivity).
  assert (Hg : py_get [-1] (-1) = Ok (-1)) by reflexivity.
  assert (He : evaluate two_semicontinuous first_frame
               = Ok (Some evaluated_frame)) by (vm_compute; reflexivity).
  assert (Ha : advance two_semicontinuous evaluated_frame
               = Ok (second_frame, true)) by (vm_compute; reflexivity).
  split; [exact Hd|]. split; [exact Hg|]. split; [exact He|].
  split; [exact Ha|].
  exact (recording_is_followed_by_a_move two_semicontinuous
           _ _ _ _ _ _ Hd Hg He Ha).
Defined.

(** * Further properties of the code *)

(** ** The shape of the returned vector *)

Lemma comprehension_length {B : Type} (xs : list Z) (f : Z -> result B) :
  forall ys, comprehension xs f = Ok ys -> length ys = length xs.
Proof.
  induction xs as [|x xs IH]; intros ys H; simpl in H.
  - injection H as <-. reflexivity.
  - bind_inv H. bind_inv H. injection H as <-. simpl. f_equal. auto.
Qed.

Lemma comprehension_Forall {B : Type} (P : B -> Prop) (xs : list Z)
    (f : Z -> result B) :
  (forall x y, f x = Ok y -> P y) ->
  forall ys, comprehension xs f = Ok ys -> Forall P ys.
Proof.
  intro Hf. induction xs as [|x xs IH]; intros ys H; simpl in H.
  - injection H as <-. constructor.
  - bind_inv H. bind_inv H. injection H as <-.
    constructor; [eapply Hf; eassumption | auto].
Qed.

Lemma clipped_is_finite (lo up : Q) (z : num) :
  finite (pymin (Fin up) (pymax (Fin lo) z)).
Proof.
  unfold pymin, pymax, finite.
  destruct z as [q| | |]; simpl.
  - destruct (q ?= lo)%Q eqn:E1; destruct (lo ?= q)%Q eqn:E2; simpl;
      try destruct (q ?= up)%Q; try destruct (lo ?= up)%Q; eauto.
  - eauto.
  - destruct (lo ?= up)%Q; eauto.
  - destruct (lo ?= up)%Q; eauto.
Qed.

(** X1.  A vector that [RAP_disjoint] returns has one component per
    entry of [b], and every component is a finite number: line 265
    never lets an infinity or a nan through. *)
Theorem returned_vector_shape (I : instance) (x : list num) :
  RAP_disjoint I = Ok x ->
  length x = length (b I) /\ Forall finite x.
Proof.
  unfold RAP_disjoint. intro H. bind_inv H.
  unfold reconstruct in H.
  bind_inv H. bind_inv H. bind_inv H. bind_inv H. bind_inv H. split.
  - apply comprehension_length in H. rewrite H, py_range_length.
    unfold num_var. lia.
  - eapply comprehension_Forall; [|exact H].
    intros i y Hy. cbv beta in Hy.
    bind_inv Hy. bind_inv Hy. bind_inv Hy. bind_inv Hy.
    injection Hy as <-. apply clipped_is_finite.
Qed.

Lemma returned_vector_shape_witness :
  RAP_disjoint two_semicontinuous = Ok returned_two
  /\ length returned_two = length (b two_semicontinuous)
  /\ Forall finite returned_two.
Proof.
  assert (H : RAP_disjoint two_semicontinuous = Ok returned_two)
    by (vm_compute; reflexivity).
  split; [exact H|].
  exact (returned_vector_shape two_semicontinuous returned_two H).
Defined.

(** ** The exceptions a call can raise *)

Lemma raises_only_bind {A B : Type} (P : exn -> Prop) (c : result A)
    (k : A -> result B) :
  raises_only P c -> (forall a, c = Ok a -> raises_only P (k a)) ->
  raises_only P (bind c k).
Proof.
  intros Hc Hk e. destruct c as [a|e'|]; simpl.
  - apply Hk. reflexivity.
  - intro H. injection H as ->. apply Hc. reflexivity.
  - discriminate.
Qed.

Lemma raises_only_Ok {A : Type} (P : exn -> Prop) (a : A) :
  raises_only P (Ok a).
Proof. intros e H. discriminate H. Qed.

Lemma raises_only_Raise {A : Type} (P : exn -> Prop) (e : exn) :
  P e -> raises_only P (@Raise A e).
Proof. intros He e' H. injection H as <-. assumption. Qed.

Lemma raises_only_weaken {A : Type} (P Q : exn -> Prop) (r : result A) :
  (forall e, P e -> Q e) -> raises_only P r -> raises_only Q r.
Proof. intros HPQ Hr e He. auto. Qed.

Section RaisesOnly.
Variable P : exn -> Prop.
Hypothesis HP : P IndexError.
Hypothesis HO : P OverflowError.

Lemma raises_only_py_pos (len : nat) (i : Z) : raises_only P (py_pos len i).
Proof.
  unfold py_pos.
  destruct ((0 <=? i) && (i <? Z.of_nat len));
    [apply raises_only_Ok|].
  destruct ((- Z.of_nat len <=? i) && (i <? 0));
    [apply raises_only_Ok | apply raises_only_Raise; assumption].
Qed.

Lemma raises_only_py_get {A : Type} (l : list A) (i : Z) :
  raises_only P (py_get l i).
Proof.
  unfold py_get. apply raises_only_bind; [apply raises_only_py_pos|].
  intros p _. destruct (nth_error l p);
    [apply raises_only_Ok | apply raises_only_Raise; assumption].
Qed.

Lemma raises_only_py_set {A : Type} (l : list A) (i : Z) (a : A) :
  raises_only P (py_set l i a).
Proof.
  unfold py_set. apply raises_only_bind; [apply raises_only_py_pos|].
  intros p _. apply raises_only_Ok.
Qed.

Lemma raises_only_heap_top (h : heap) : raises_only P (heap_top h).
Proof.
  destruct h; [apply raises_only_Raise; assumption | apply raises_only_Ok].
Qed.

Lemma raises_only_heappop (h : heap) : raises_only P (heappop h).
Proof.
  destruct h; [apply raises_only_Raise; assumption | apply raises_only_Ok].
Qed.

Lemma raises_only_deref (st : list (list Z)) (r : nat) :
  raises_only P (deref st r).
Proof.
  unfold deref. destruct (nth_error st r);
    [apply raises_only_Ok | apply raises_only_Raise; assumption].
Qed.

Lemma raises_only_for_each {X S : Type} (xs : list X)
    (body : X -> S -> result S) (s : S) :
  (forall x s, raises_only P (body x s)) ->
  raises_only P (for_each xs body s).
Proof.
  intro Hbody. revert s. induction xs as [|x xs IH]; intro s; simpl.
  - apply raises_only_Ok.
  - apply raises_only_bind; [apply Hbody | intros; apply IH].
Qed.

Lemma raises_only_comprehension {B : Type} (xs : list Z)
    (f : Z -> result B) :
  (forall x, raises_only P (f x)) -> raises_only P (comprehension xs f).
Proof.
  intro Hf. induction xs as [|x xs IH]; simpl.
  - apply raises_only_Ok.
  - apply raises_only_bind; [apply Hf|]. intros y _.
    apply raises_only_bind; [apply IH|]. intros ys _. apply raises_only_Ok.
Qed.

Lemma raises_only_math_pow2 (q : Q) : raises_only P (math_pow2 q).
Proof.
  unfold math_pow2. destruct (Qle_bool float_overflow (pow2 q));
    [apply raises_only_Raise; exact HO | apply raises_only_Ok].
Qed.

Lemma raises_only_math_npow2 (x : num) : raises_only P (math_npow2 x).
Proof.
  destruct x as [q| | |]; cbn [math_npow2]; try apply raises_only_Ok.
  apply raises_only_bind; [apply raises_only_math_pow2|].
  intros sq _. apply raises_only_Ok.
Qed.

Ltac ro_step :=
  first
    [ apply raises_only_Ok
    | apply raises_only_math_pow2
    | apply raises_only_math_npow2
    | apply raises_only_py_get
    | apply raises_only_py_set
    | apply raises_only_heap_top
    | apply raises_only_heappop
    | apply raises_only_deref
    | apply raises_only_for_each; intros
    | apply raises_only_comprehension; intros
    | apply raises_only_bind; [|intros ? ?]
    | match goal with
      | |- raises_only _ (if ?c then _ else _) => destruct c
      | |- raises_only _ (match ?x with _ => _ end) => destruct x
      | |- raises_only _ (Raise IndexError) =>
          apply raises_only_Raise; exact HP
      end ].

Ltac ro_auto := repeat ro_step.

Lemma raises_only_assign_bounds (I : instance) (shift : Z) (pf : list Z)
    (first middle final : Z -> result Q) :
  (forall i, raises_only P (first i)) ->
  (forall j, raises_only P (middle j)) ->
  (forall i, raises_only P (final i)) ->
  raises_only P (assign_bounds I shift pf first middle final).
Proof. intros H1 H2 H3. unfold assign_bounds. ro_auto; auto. Qed.

Lemma raises_only_lower_of (I : instance) (shift : Z) (pf : list Z) :
  raises_only P (lower_of I shift pf).
Proof.
  unfold lower_of.
  apply raises_only_assign_bounds; intros; apply raises_only_py_get.
Qed.

Lemma raises_only_upper_of (I : instance) (shift : Z) (pf : list Z) :
  raises_only P (upper_of I shift pf).
Proof.
  unfold upper_of.
  apply raises_only_assign_bounds; intros; apply raises_only_py_get.
Qed.

Lemma raises_only_breakpoints_of (I : instance) (bnd : list Q) :
  raises_only P (breakpoints_of I bnd).
Proof. unfold breakpoints_of. ro_auto. Qed.

Lemma raises_only_trunk_init (I : instance) (p : list Z) (f : frame) :
  raises_only P (trunk_init I p f).
Proof.
  unfold trunk_init.
  apply raises_only_bind; [ro_auto | intros tl _].
  apply raises_only_bind; [|intros bs _].
  { unfold initial_bounds, initial_lower_bounds, initial_upper_bounds.
    apply raises_only_bind; [apply raises_only_lower_of | intros lb _].
    apply raises_only_bind; [apply raises_only_upper_of | intros ub _].
    apply raises_only_bind; [apply raises_only_breakpoints_of|intros ? _].
    apply raises_only_bind; [apply raises_only_breakpoints_of|intros ? _].
    apply raises_only_Ok. }
  apply raises_only_bind; [|intros e _; apply raises_only_Ok].
  unfold initial_engine, entries_of. ro_auto.
Qed.

Lemma raises_only_find_candidate (upto : bool) (pf : list Z) (h : heap) :
  forall cnt, raises_only P (find_candidate upto pf h cnt).
Proof.
  induction h as [|e h IH]; intro cnt; cbn [find_candidate];
    destruct (0 <? cnt); try apply raises_only_Ok.
  - apply raises_only_Raise. exact HP.
  - apply raises_only_bind.
    + unfold dropped, part_bound. ro_auto.
    + intros d _. destruct d; [apply IH | apply raises_only_Ok].
Qed.

Hypothesis HZ : P ZeroDivisionError.

Lemma raises_only_search (I : instance) (pf : list Z) (bs : bounds)
    (fuel : nat) :
  forall e, raises_only P (search I fuel pf bs e).
Proof.
  induction fuel as [|fuel IH]; intro e; cbn [search];
    [intros x Hx; discriminate Hx|].
  apply raises_only_bind.
  - unfold search_round.
    apply raises_only_bind;
      [apply raises_only_find_candidate | intros [[cl hl] nl] _].
    apply raises_only_bind;
      [apply raises_only_find_candidate | intros [[cu hu] nu] _].
    cbn [HELP_var_Bounded HELP_var_Free HELP_var_num_free
         HELP_var_value_Bound].
    match goal with
    | |- raises_only _ (if ?c then _ else _) => destruct c
    end; [ro_auto|].
    match goal with
    | |- raises_only _ (if ?c then _ else _) => destruct c
    end.
    { destruct (HELP_var_num_free e =? 0);
        [apply raises_only_Raise; exact HZ | ro_auto]. }
    ro_auto.
  - intros [e' mult obj|e'] _; [apply raises_only_Ok | apply IH].
Qed.

Lemma raises_only_evaluate (I : instance) (f : frame) :
  raises_only P (evaluate I f).
Proof.
  unfold evaluate.
  destruct (Qltb (R I) (HELP_feasible_check_lower (bnds f)));
    [apply raises_only_Ok|].
  destruct (Qltb (HELP_feasible_check_upper (bnds f)) (R I));
    [apply raises_only_Ok|].
  apply raises_only_bind; [apply raises_only_deref | intros pf _].
  apply raises_only_bind; [apply raises_only_search|].
  intros [[e mult] obj] _. apply raises_only_Ok.
Qed.

(** Line 194 reads [Opt_mult]: it has to be bound. *)
Lemma raises_only_advance (I : instance) (f : frame) :
  Opt_mult f <> None -> raises_only P (advance I f).
Proof.
  intro Hm. unfold advance.
  apply raises_only_bind; [apply raises_only_deref | intros pf _].
  apply raises_only_bind; [apply raises_only_py_get | intros c _].
  apply raises_only_bind; [apply raises_only_py_set | intros pf' _].
  apply raises_only_bind; [apply raises_only_py_get | intros v _].
  destruct (num_var I <=? v); [apply raises_only_Ok|].
  destruct (Opt_mult f) as [mult|]; [|contradiction]. cbn [local bind].
  apply raises_only_bind; [unfold first_round; ro_auto | intros e _].
  apply raises_only_bind; [unfold slide_bounds; ro_auto | intros bs _].
  apply raises_only_bind; [unfold second_round; ro_auto | intros e' _].
  apply raises_only_Ok.
Qed.

Lemma evaluate_binds_Opt_mult (I : instance) (f f' : frame) :
  evaluate I f = Ok (Some f') -> Opt_mult f' <> None.
Proof.
  unfold evaluate. intro H.
  destruct (Qltb (R I) (HELP_feasible_check_lower (bnds f))).
  - injection H as <-. discriminate.
  - destruct (Qltb (HELP_feasible_check_upper (bnds f)) (R I));
      [discriminate H|].
    bind_inv H. bind_inv H. destruct a0 as [[e mult] obj].
    injection H as <-. discriminate.
Qed.

Lemma raises_only_sweep (I : instance) (fuel : nat) :
  forall f, raises_only P (sweep I fuel f).
Proof.
  induction fuel as [|fuel IH]; intro f; cbn [sweep];
    [intros x Hx; discriminate Hx|].
  apply raises_only_bind; [apply raises_only_deref | intros pf _].
  apply raises_only_bind; [apply raises_only_py_get | intros c _].
  destruct (c <? num_var I); [|apply raises_only_Ok].
  apply raises_only_bind; [apply raises_only_evaluate | intros [f1|] Hev];
    [|apply raises_only_Ok].
  apply raises_only_bind.
  - apply raises_only_advance. eapply evaluate_binds_Opt_mult; eassumption.
  - intros [f2 go] _. destruct go; [apply IH | apply raises_only_Ok].
Qed.

Lemma raises_only_trunk_body (I : instance) (p : list Z) (f : frame) :
  raises_only P (trunk_body I p f).
Proof.
  unfold trunk_body.
  apply raises_only_bind; [apply raises_only_trunk_init | intros f0 _].
  apply raises_only_sweep.
Qed.

Lemma raises_only_enumerate (I : instance) :
  lower_fixed I <> [] -> raises_only P (enumerate I).
Proof.
  intro Hm. unfold enumerate, combinations_with_replacement.
  assert (E : (num_intervals I - 2 <? 0) = false).
  { apply Z.ltb_ge. unfold num_intervals.
    destruct (lower_fixed I); [contradiction | simpl length; lia]. }
  rewrite E. cbn [bind]. apply raises_only_for_each.
  intros p f. apply raises_only_trunk_body.
Qed.

Hypothesis HT : P TypeError.

Lemma raises_only_reconstruct (I : instance) (st : list (list Z))
    (t : tracker) :
  raises_only P (reconstruct I st t).
Proof.
  unfold reconstruct.
  apply raises_only_bind; [|intros cbp _].
  { destruct (current_best_partition t);
      [apply raises_only_deref | apply raises_only_Raise; exact HT]. }
  apply raises_only_bind; [apply raises_only_lower_of | intros lb _].
  apply raises_only_bind; [apply raises_only_upper_of | intros ub _].
  apply raises_only_bind; [apply raises_only_breakpoints_of | intros ? _].
  apply raises_only_bind; [apply raises_only_breakpoints_of | intros ? _].
  apply raises_only_comprehension. intro i.
  apply raises_only_bind; [apply raises_only_py_get | intros ? _].
  apply raises_only_bind; [apply raises_only_py_get | intros ? _].
  apply raises_only_bind; [|intros ? _].
  { destruct (current_best_mult t);
      [apply raises_only_Ok | apply raises_only_Raise; exact HT]. }
  apply raises_only_bind; [apply raises_only_py_get | intros ? _].
  apply raises_only_Ok.
Qed.

Lemma raises_only_RAP_disjoint (I : instance) :
  lower_fixed I <> [] -> raises_only P (RAP_disjoint I).
Proof.
  intro Hm. unfold RAP_disjoint.
  apply raises_only_bind; [apply raises_only_enumerate; assumption|].
  intros f _. apply raises_only_reconstruct.
Qed.
End RaisesOnly.

Lemma single_interval_ValueError (I : instance) :
  lower_fixed I = [] -> RAP_disjoint I = Raise ValueError.
Proof.
  intro H. unfold RAP_disjoint, enumerate, combinations_with_replacement,
    num_intervals.
  rewrite H. reflexivity.
Qed.

(** X2.  Line 53 raises [ValueError] exactly when [lower_fixed] is
    empty, that is when there is a single interval; with two intervals
    or more a call never ends in [ValueError]. *)
Theorem ValueError_iff_single_interval (I : instance) :
  RAP_disjoint I = Raise ValueError <-> lower_fixed I = [].
Proof.
  split; [|apply single_interval_ValueError].
  intro H. destruct (lower_fixed I) as [|x l] eqn:E; [reflexivity|].
  exfalso.
  assert (Hne : lower_fixed I <> []) by (rewrite E; discriminate).
  pose proof (raises_only_RAP_disjoint
                (fun e => e <> ValueError)
                ltac:(discriminate) ltac:(discriminate) ltac:(discriminate)
                ltac:(discriminate) I Hne _ H) as Hv.
  apply Hv. reflexivity.
Qed.

(** X3.  A call raises nothing but [ValueError], [IndexError],
    [ZeroDivisionError], [TypeError] and the [OverflowError] of
    [math.pow]: in particular [Opt_mult] is always bound when line 194
    reads it. *)
Theorem exceptions_of_RAP_disjoint (I : instance) (e : exn) :
  RAP_disjoint I = Raise e ->
  e = ValueError \/ e = IndexError \/ e = ZeroDivisionError
  \/ e = TypeError \/ e = OverflowError.
Proof.
  intro H. destruct (lower_fixed I) as [|x l] eqn:E.
  - rewrite (single_interval_ValueError I E) in H. injection H as <-. auto.
  - assert (Hne : lower_fixed I <> []) by (rewrite E; discriminate).
    right.
    exact (raises_only_RAP_disjoint
             (fun e => e = IndexError \/ e = ZeroDivisionError
                       \/ e = TypeError \/ e = OverflowError)
             (or_introl eq_refl)
             (or_intror (or_intror (or_intror eq_refl)))
             (or_intror (or_introl eq_refl))
             (or_intror (or_intror (or_introl eq_refl))) I Hne e H).
Qed.

Lemma exceptions_of_RAP_disjoint_witness :
  RAP_disjoint huge_shift = Raise OverflowError
  /\ (OverflowError = ValueError \/ OverflowError = IndexError
      \/ OverflowError = ZeroDivisionError
      \/ OverflowError = TypeError \/ OverflowError = OverflowError).
Proof.
  assert (H : RAP_disjoint huge_shift = Raise OverflowError)
    by (vm_compute; reflexivity).
  split; [exact H|].
  exact (exceptions_of_RAP_disjoint huge_shift OverflowError H).
Defined.

(** ** What a searched window stores *)

Lemma resource_equal_is_finite (B F r : Q) (nf : Z) (cand : num) :
  neq (nsub (nadd (Fin B) (nmul (Fin (inject_Z nf)) cand)) (Fin F))
      (Fin r) = true ->
  exists c, cand = Fin c /\ (B + inject_Z nf * c - F == r)%Q.
Proof.
  destruct cand as [c| | |]; simpl.
  - intro H. apply Qeq_bool_iff in H. exists c. split; [reflexivity|].
    exact H.
  - unfold ninf_of. destruct (sgn (inject_Z nf)); discriminate.
  - unfold ninf_of. destruct (sgn (inject_Z nf)); discriminate.
  - discriminate.
Qed.

Lemma math_pow2_Ok (q sq : Q) : math_pow2 q = Ok sq -> sq = pow2 q.
Proof.
  unfold math_pow2. destruct (Qle_bool float_overflow (pow2 q));
    [discriminate|]. intro H. injection H as <-. reflexivity.
Qed.

Lemma math_npow2_Fin (q : Q) (x : num) :
  math_npow2 (Fin q) = Ok x -> x = Fin (pow2 q).
Proof.
  cbn [math_npow2]. intro H. bind_inv H. injection H as <-.
  apply math_pow2_Ok in Ha. congruence.
Qed.

Lemma search_round_Found (I : instance) (pf : list Z) (bs : bounds)
    (e e' : engine) (mult obj : num) :
  search_round I pf bs e = Ok (Found e' mult obj) ->
  exists lam, mult = Fin lam /\ balanced I e' lam
              /\ obj = Fin (engine_objective e' lam).
Proof.
  unfold search_round. intro H.
  bind_inv H. destruct a as [[cl hl] nl].
  bind_inv H. destruct a as [[cu hu] nu].
  cbn [HELP_var_Bounded HELP_var_Free HELP_var_num_free
       HELP_var_value_Bound] in H.
  match type of H with
  | (if ?c then _ else _) = _ => destruct c eqn:Eeq
  end.
  { bind_inv H. rename a into sq, Ha1 into Hsq.
    injection H as <- <- <-.
    destruct (resource_equal_is_finite _ _ _ _ _ Eeq) as (c & Hc & Hb).
    rewrite Hc in *. apply math_npow2_Fin in Hsq. subst sq.
    exists c. split; [reflexivity|]. split; [exact Hb | reflexivity]. }
  match type of H with
  | (if ?c then _ else _) = _ => destruct c
  end.
  { destruct (HELP_var_num_free e =? 0) eqn:Ez; [discriminate H|].
    bind_inv H. rename a into sq, Ha1 into Hsq.
    injection H as <- <- <-.
    apply math_npow2_Fin in Hsq. subst sq.
    eexists. split; [reflexivity|]. split; [|reflexivity].
    unfold balanced. cbn [HELP_var_Bounded HELP_var_Free HELP_var_num_free].
    apply Z.eqb_neq in Ez.
    assert (Hnz : ~ (inject_Z (HELP_var_num_free e) == 0)%Q).
    { intro Hq. apply Ez. unfold Qeq, inject_Z in Hq. simpl in Hq. lia. }
    field. exact Hnz. }
  destruct (nlt cl cu).
  - bind_inv H. bind_inv H. bind_inv H. bind_inv H. bind_inv H.
    discriminate H.
  - bind_inv H. bind_inv H. bind_inv H. bind_inv H. bind_inv H.
    discriminate H.
Qed.

Lemma search_balanced (I : instance) (pf : list Z) (bs : bounds)
    (fuel : nat) :
  forall e e' mult obj,
    search I fuel pf bs e = Ok (e', mult, obj) ->
    exists lam, mult = Fin lam /\ balanced I e' lam
                /\ obj = Fin (engine_objective e' lam).
Proof.
  induction fuel as [|fuel IH]; intros e e' mult obj H;
    [discriminate H|].
  cbn [search] in H. bind_inv H. destruct a as [e1 m1 o1|e1].
  - injection H as <- <- <-. eapply search_round_Found. eassumption.
  - eapply IH. eassumption.
Qed.

(** ** The best record at the end of the enumeration *)

Lemma record_ok_grow (st st' : list (list Z)) (t : tracker) :
  (length st <= length st')%nat -> record_ok st t -> record_ok st' t.
Proof.
  intros Hlen [->|(q & r & lam & -> & Hr)]; [left; reflexivity|].
  right. exists q, r, lam. split; [reflexivity | lia].
Qed.

Lemma evaluate_record (I : instance) (f f' : frame) :
  evaluate I f = Ok (Some f') ->
  store f' = store f /\ partition_full f' = partition_full f
  /\ (best f' = best f
      \/ exists q lam,
           best f' = Tracker (Fin q) (Some (partition_full f))
                             (Some (Fin lam))).
Proof.
  unfold evaluate. intro H.
  destruct (Qltb (R I) (HELP_feasible_check_lower (bnds f))).
  - injection H as <-. simpl. auto.
  - destruct (Qltb (HELP_feasible_check_upper (bnds f)) (R I));
      [discriminate H|].
    bind_inv H. bind_inv H. destruct a0 as [[e mult] obj].
    injection H as <-. cbn [store partition_full best].
    split; [reflexivity|]. split; [reflexivity|].
    destruct (search_balanced _ _ _ _ _ _ _ _ Ha0) as (lam & -> & _ & ->).
    unfold track. destruct (nlt _ _); [right; eauto | left; reflexivity].
Qed.

Lemma advance_store (I : instance) (f f' : frame) (go : bool) :
  advance I f = Ok (f', go) ->
  length (store f') = length (store f)
  /\ partition_full f' = partition_full f /\ best f' = best f.
Proof.
  unfold advance. intro H.
  bind_inv H. bind_inv H. bind_inv H. bind_inv H.
  destruct (num_var I <=? a2).
  - injection H as <- _. cbn [store partition_full best].
    rewrite set_nth_length. auto.
  - bind_inv H. bind_inv H. bind_inv H. bind_inv H.
    injection H as <- _. cbn [store partition_full best].
    rewrite set_nth_length. auto.
Qed.

Lemma sweep_record_ok (I : instance) (fuel : nat) :
  forall f f',
    sweep I fuel f = Ok f' ->
    (partition_full f < length (store f))%nat ->
    record_ok (store f) (best f) ->
    record_ok (store f') (best f').
Proof.
  induction fuel as [|fuel IH]; intros f f' H Href Hrec; [discriminate H|].
  cbn [sweep] in H. bind_inv H. bind_inv H.
  destruct (a0 <? num_var I); [|injection H as <-; assumption].
  bind_inv H. destruct a1 as [f1|]; [|injection H as <-; assumption].
  destruct (evaluate_record _ _ _ Ha1) as (Hst & Hpf & Hbest).
  assert (H1 : record_ok (store f1) (best f1)).
  { rewrite Hst. destruct Hbest as [->|(q & lam & ->)]; [assumption|].
    right. exists q, (partition_full f), lam. split; [reflexivity|].
    assumption. }
  bind_inv H. destruct a1 as [f2 go].
  destruct (advance_store _ _ _ _ Ha2) as (Hlen & Hpf2 & Hbest2).
  assert (H2 : record_ok (store f2) (best f2)).
  { rewrite Hbest2. eapply record_ok_grow; [|exact H1]. lia. }
  destruct go; [|injection H as <-; assumption].
  eapply IH; [eassumption | | assumption].
  rewrite Hpf2, Hpf, Hlen, Hst. assumption.
Qed.

(** X5.  When the enumeration of lines 61-239 ends, the best record is
    either still empty or made of a finite objective, a finite
    multiplier and a reference to one of the partition lists created so
    far: the three variables are always written together, by a window
    that was searched. *)
Theorem final_record_is_well_formed (I : instance) (f : frame) :
  enumerate I = Ok f -> record_ok (store f) (best f).
Proof.
  unfold enumerate. intro H. bind_inv H.
  eapply (for_each_preserves (fun f => record_ok (store f) (best f)));
    [|eassumption|left; reflexivity].
  intros p s s' Hbody Hs. unfold trunk_body in Hbody. bind_inv Hbody.
  unfold trunk_init in Ha0. bind_inv Ha0. bind_inv Ha0. bind_inv Ha0.
  injection Ha0 as <-.
  eapply sweep_record_ok; [eassumption| |]; cbn [store partition_full best].
  - rewrite length_app. simpl. lia.
  - eapply record_ok_grow; [|exact Hs]. rewrite length_app. lia.
Qed.

Lemma final_record_is_well_formed_witness :
  enumerate two_semicontinuous = Ok final_frame
  /\ record_ok (store final_frame) (best final_frame).
Proof.
  assert (H : enumerate two_semicontinuous = Ok final_frame)
    by (vm_compute; reflexivity).
  split; [exact H|].
  exact (final_record_is_well_formed two_semicontinuous final_frame H).
Defined.

(** ** The heap counters *)

Lemma heappush_length (h : heap) (e : entry) :
  length (heappush h e) = S (length h).
Proof.
  induction h as [|x h IH]; simpl; [reflexivity|].
  destruct (entry_ltb e x); simpl; [reflexivity | now rewrite IH].
Qed.

Lemma heapify_length (l : list entry) : length (heapify l) = length l.
Proof.
  unfold heapify.
  assert (H : forall h, length (fold_left heappush l h)
                        = (length l + length h)%nat).
  { induction l as [|x l IH]; intro h; simpl; [reflexivity|].
    rewrite IH, heappush_length. lia. }
  rewrite H. simpl. lia.
Qed.

Lemma trunk_init_counted (I : instance) (p : list Z) (f f0 : frame) :
  trunk_init I p f = Ok f0 -> counted (eng f0).
Proof.
  unfold trunk_init. intro H. bind_inv H. bind_inv H. bind_inv H.
  injection H as <-. cbn [eng].
  unfold initial_engine, entries_of in Ha1.
  bind_inv Ha1. bind_inv Ha1. bind_inv Ha1. injection Ha1 as <-.
  apply comprehension_length in Ha3, Ha4.
  unfold counted. cbn [HELP_num_lower_heap HELP_num_upper_heap
                       heap_lower_BPs heap_upper_BPs].
  rewrite !heapify_length, Ha3, Ha4, py_range_length.
  unfold num_var. split; lia.
Qed.

(** With a counter that equals the size of the heap, the candidate
    search never reads the top of an empty heap: it ends with the
    infinite candidate on an empty heap or with the breakpoint of the
    entry at the top. *)
Lemma find_candidate_counted (upto : bool) (pf : list Z) (h : heap) :
  forall cnt c h' cnt',
    cnt = Z.of_nat (length h) ->
    find_candidate upto pf h cnt = Ok (c, h', cnt') ->
    cnt' = Z.of_nat (length h')
    /\ ((c = PInf /\ h' = [])
        \/ exists e t, h' = e :: t /\ c = Fin (e_bp e)).
Proof.
  induction h as [|e h IH]; intros cnt c h' cnt' Hcnt H;
    cbn [find_candidate] in H; simpl length in Hcnt.
  - replace (0 <? cnt) with false in H by (symmetry; apply Z.ltb_ge; lia).
    injection H as <- <- <-. split; [assumption|]. left. split; reflexivity.
  - replace (0 <? cnt) with true in H by (symmetry; apply Z.ltb_lt; lia).
    bind_inv H. destruct a.
    + eapply IH; [|exact H]. lia.
    + injection H as <- <- <-. split; [assumption|]. right. eauto.
Qed.

Lemma search_round_Found_heaps (I : instance) (pf : list Z) (bs : bounds)
    (e e' : engine) (mult obj : num) :
  search_round I pf bs e = Ok (Found e' mult obj) ->
  exists cl cu,
    find_candidate false pf (heap_lower_BPs e) (HELP_num_lower_heap e)
    = Ok (cl, heap_lower_BPs e', HELP_num_lower_heap e')
    /\ find_candidate true pf (heap_upper_BPs e) (HELP_num_upper_heap e)
       = Ok (cu, heap_upper_BPs e', HELP_num_upper_heap e').
Proof.
  unfold search_round. intro H.
  bind_inv H. destruct a as [[cl hl] nl].
  bind_inv H. destruct a as [[cu hu] nu].
  cbn [HELP_var_Bounded HELP_var_Free HELP_var_num_free
       HELP_var_value_Bound] in H.
  exists cl, cu.
  match type of H with
  | (if ?c then _ else _) = _ => destruct c
  end.
  { bind_inv H. injection H as <- _ _. split; assumption. }
  match type of H with
  | (if ?c then _ else _) = _ => destruct c
  end.
  { destruct (HELP_var_num_free e =? 0); [discriminate H|].
    bind_inv H. injection H as <- _ _. split; assumption. }
  destruct (nlt cl cu).
  - bind_inv H. bind_inv H. bind_inv H. bind_inv H. bind_inv H.
    discriminate H.
  - bind_inv H. bind_inv H. bind_inv H. bind_inv H. bind_inv H.
    discriminate H.
Qed.

Lemma search_round_counted (I : instance) (pf : list Z) (bs : bounds)
    (e : engine) (o : round_outcome) :
  search_round I pf bs e = Ok o ->
  counted e ->
  match o with
  | Found e' _ _ => counted e'
  | Continue e' => counted e'
  end.
Proof.
  intros H [Hl Hu]. destruct o as [e' mult obj|e'].
  - destruct (search_round_Found_heaps _ _ _ _ _ _ _ H)
      as (cl & cu & Hfl & Hfu).
    destruct (find_candidate_counted _ _ _ _ _ _ _ Hl Hfl) as [Hnl _].
    destruct (find_candidate_counted _ _ _ _ _ _ _ Hu Hfu) as [Hnu _].
    split; assumption.
  - destruct (search_round_Continue _ _ _ _ _ H)
      as (cl & hl & nl & cu & hu & nu & top & Hfl & Hfu & Hpop).
    destruct (find_candidate_counted _ _ _ _ _ _ _ Hl Hfl) as [Hnl _].
    destruct (find_candidate_counted _ _ _ _ _ _ _ Hu Hfu) as [Hnu _].
    unfold counted.
    destruct Hpop as [(_ & Hh & -> & -> & ->)|(_ & Hh & -> & -> & ->)];
      rewrite Hh in *; simpl length in *; split; lia.
Qed.

Lemma search_counted (I : instance) (pf : list Z) (bs : bounds)
    (fuel : nat) :
  forall e e' mult obj,
    search I fuel pf bs e = Ok (e', mult, obj) ->
    counted e -> counted e'.
Proof.
  induction fuel as [|fuel IH]; intros e e' mult obj H Hc;
    [discriminate H|].
  cbn [search] in H. bind_inv H.
  pose proof (search_round_counted _ _ _ _ _ Ha Hc) as Hc'.
  destruct a as [e1 m1 o1|e1].
  - injection H as <- _ _. exact Hc'.
  - eapply IH; eassumption.
Qed.

Lemma evaluate_counted (I : instance) (f f' : frame) :
  evaluate I f = Ok (Some f') -> counted (eng f) -> counted (eng f').
Proof.
  unfold evaluate. intros H Hc.
  destruct (Qltb (R I) (HELP_feasible_check_lower (bnds f))).
  - injection H as <-. assumption.
  - destruct (Qltb (HELP_feasible_check_upper (bnds f)) (R I));
      [discriminate H|].
    bind_inv H. bind_inv H. destruct a0 as [[e mult] obj].
    injection H as <-. cbn [eng].
    eapply search_counted; eassumption.
Qed.

Lemma first_round_counted (I : instance) (mult : num) (v : Z)
    (bs : bounds) (e e' : engine) :
  first_round I mult v bs e = Ok e' -> counted e -> counted e'.
Proof.
  unfold first_round. intros H Hc.
  bind_inv H. bind_inv H. bind_inv H. bind_inv H. bind_inv H.
  destruct (regime_of mult a0 a1); [bind_inv H| |bind_inv H];
    injection H as <-; exact Hc.
Qed.

Lemma second_round_counted (I : instance) (mult : num) (v : Z)
    (bs : bounds) (e e' : engine) :
  second_round I mult v bs e = Ok e' -> counted e -> counted e'.
Proof.
  unfold second_round. intros H [Hl Hu].
  bind_inv H. bind_inv H. bind_inv H. bind_inv H. bind_inv H.
  unfold counted.
  destruct (regime_of mult a0 a1); [bind_inv H| |bind_inv H];
    injection H as <-;
    cbn [HELP_num_lower_heap HELP_num_upper_heap
         heap_lower_BPs heap_upper_BPs];
    rewrite ?heappush_length; split; lia.
Qed.

Lemma advance_counted (I : instance) (f f' : frame) (go : bool) :
  advance I f = Ok (f', go) -> counted (eng f) -> counted (eng f').
Proof.
  unfold advance. intros H Hc.
  bind_inv H. bind_inv H. bind_inv H. bind_inv H.
  destruct (num_var I <=? a2).
  - injection H as <- _. exact Hc.
  - bind_inv H. bind_inv H. bind_inv H. bind_inv H.
    injection H as <- _. cbn [eng].
    eapply second_round_counted; [eassumption|].
    eapply first_round_counted; eassumption.
Qed.

(** X6.  [HELP_num_lower_heap] and [HELP_num_upper_heap] are the sizes
    of the two heaps: lines 98-103 set them so, and every window and
    every cursor step keeps them so. *)
Theorem heap_counters_are_heap_sizes (I : instance) :
  (forall p f f0, trunk_init I p f = Ok f0 -> counted (eng f0))
  /\ (forall f f', evaluate I f = Ok (Some f') ->
                   counted (eng f) -> counted (eng f'))
  /\ (forall f f' go, advance I f = Ok (f', go) ->
                      counted (eng f) -> counted (eng f')).
Proof.
  split; [exact (trunk_init_counted I)|].
  split; [exact (evaluate_counted I) | exact (advance_counted I)].
Qed.

Lemma heap_counters_are_heap_sizes_witness :
  trunk_init two_semicontinuous [] initial_frame = Ok first_frame
  /\ counted (eng first_frame)
  /\ evaluate two_semicontinuous first_frame = Ok (Some evaluated_frame)
  /\ counted (eng evaluated_frame)
  /\ advance two_semicontinuous evaluated_frame = Ok (second_frame, true)
  /\ counted (eng second_frame).
Proof.
  destruct (heap_counters_are_heap_sizes two_semicontinuous)
    as (Hinit & Heval & Hadv).
  assert (H0 : trunk_init two_semicontinuous [] initial_frame
               = Ok first_frame) by (vm_compute; reflexivity).
  assert (H1 : evaluate two_semicontinuous first_frame
               = Ok (Some evaluated_frame)) by (vm_compute; reflexivity).
  assert (H2 : advance two_semicontinuous evaluated_frame
               = Ok (second_frame, true)) by (vm_compute; reflexivity).
  pose proof (Hinit _ _ _ H0) as C0.
  pose proof (Heval _ _ H1 C0) as C1.
  pose proof (Hadv _ _ _ H2 C1) as C2.
  repeat split; assumption.
Defined.

(** ** The bound arrays, their sums and their breakpoints *)

Lemma py_get_inv {A : Type} (l : list A) (i : Z) (a : A) :
  py_get l i = Ok a ->
  exists p, py_pos (length l) i = Ok p /\ nth_error l p = Some a.
Proof.
  unfold py_get. intro H. bind_inv H. exists a0. split; [assumption|].
  destruct (nth_error l a0); [|discriminate H]. injection H as <-.
  reflexivity.
Qed.

Lemma py_set_inv {A : Type} (l : list A) (i : Z) (a : A) (l' : list A) :
  py_set l i a = Ok l' ->
  exists p, py_pos (length l) i = Ok p /\ l' = set_nth p a l.
Proof.
  unfold py_set. intro H. bind_inv H. injection H as <-.
  exists a0. split; [assumption | reflexivity].
Qed.

Lemma nth_set_nth {A : Type} (p q : nat) (a d : A) (l : list A) :
  nth q (set_nth p a l) d
  = if (q =? p)%nat && (p <? length l)%nat then a else nth q l d.
Proof.
  revert p q. induction l as [|x l IH]; intros [|p] [|q]; simpl; auto;
    try (rewrite andb_false_r; reflexivity).
Qed.

Lemma for_each_set_length (k : nat) (xs : list Z) (g : Z -> result Q) :
  forall arr arr',
    for_each xs (fun i arr => v <- g i ;; py_set arr i v) arr = Ok arr' ->
    length arr = k -> length arr' = k.
Proof.
  apply (for_each_preserves (fun arr : list Q => length arr = k)).
  intros i arr arr' H Hlen. bind_inv H.
  apply py_set_length in H. congruence.
Qed.

Lemma assign_bounds_length (I : instance) (shift : Z) (pf : list Z)
    (first middle final : Z -> result Q) (arr : list Q) :
  assign_bounds I shift pf first middle final = Ok arr ->
  length arr = length (b I).
Proof.
  unfold assign_bounds. intro H.
  bind_inv H. bind_inv H. bind_inv H. bind_inv H.
  eapply for_each_set_length; [exact H|].
  eapply (for_each_preserves
            (fun arr : list Q => length arr = length (b I)));
    [|exact Ha1|].
  - intros j arr1 arr2 Hj Hlen. bind_inv Hj. bind_inv Hj.
    eapply (for_each_set_length _ _ (fun _ => middle j));
      [exact Hj | exact Hlen].
  - eapply for_each_set_length; [exact Ha0|].
    rewrite repeat_length. unfold num_var. apply Nat2Z.id.
Qed.

Lemma breakpoints_of_spec (I : instance) (bnd bps : list Q) :
  length bnd = length (b I) ->
  breakpoints_of I bnd = Ok bps ->
  length bps = length (b I)
  /\ forall p, (p < length (b I))%nat ->
       nth p bps 0%Q = (nth p bnd 0 + nth p (b I) 0)%Q.
Proof.
  unfold breakpoints_of, num_var. intro Hlen.
  assert (H : forall (n0 : nat) (start : nat) ys,
            comprehension
              (map (fun k => 0 + Z.of_nat k) (seq start n0))
              (fun i => x <- py_get bnd i ;;
                        y <- py_get (b I) i ;; Ok (x + y)%Q) = Ok ys ->
            (start + n0 <= length (b I))%nat ->
            length ys = n0
            /\ forall p, (p < n0)%nat ->
                 nth p ys 0%Q
                 = (nth (start + p) bnd 0 + nth (start + p) (b I) 0)%Q).
  { induction n0 as [|n0 IH]; intros start ys H Hle; simpl in H.
    - injection H as <-. split; [reflexivity|]. intros p Hp. lia.
    - bind_inv H. bind_inv H. injection H as <-.
      bind_inv Ha. bind_inv Ha. injection Ha as <-.
      destruct (IH _ _ Ha0) as [Hl Hn]; [lia|].
      split; [simpl; congruence|].
      intros [|p] Hp.
      + simpl. rewrite Nat.add_0_r.
        rewrite (py_get_nth bnd (Z.of_nat start) 0%Q) in Ha1 by lia.
        rewrite (py_get_nth (b I) (Z.of_nat start) 0%Q) in Ha2 by lia.
        injection Ha1 as <-. injection Ha2 as <-.
        rewrite Nat2Z.id. reflexivity.
      + replace (start + S p)%nat with (S start + p)%nat by lia.
        cbn [nth]. apply Hn. lia. }
  intro Hc. unfold py_range in Hc.
  destruct (H _ _ _ Hc) as [Hl Hn]; [lia|].
  split; [lia|]. intros p Hp. apply Hn. lia.
Qed.

Lemma trunk_init_bounds (I : instance) (p : list Z) (f f0 : frame) :
  trunk_init I p f = Ok f0 ->
  bounds_ok I (bnds f0) /\ breakpoints_ok I (bnds f0).
Proof.
  unfold trunk_init. intro H. bind_inv H. bind_inv H. bind_inv H.
  injection H as <-. cbn [bnds].
  unfold initial_bounds, initial_lower_bounds, initial_upper_bounds in Ha0.
  bind_inv Ha0. bind_inv Ha0. bind_inv Ha0. bind_inv Ha0.
  injection Ha0 as <-.
  apply assign_bounds_length in Ha2, Ha3.
  destruct (breakpoints_of_spec _ _ _ Ha2 Ha4) as [Hl1 Hn1].
  destruct (breakpoints_of_spec _ _ _ Ha3 Ha5) as [Hl2 Hn2].
  split.
  - unfold bounds_ok; simpl. repeat split; auto; reflexivity.
  - intros q Hq. simpl. split; auto.
Qed.

Lemma slide_bounds_keeps (I : instance) (v : Z) (bs bs' : bounds) :
  slide_bounds I v bs = Ok bs' ->
  bounds_ok I bs ->
  bounds_ok I bs'
  /\ (breakpoints_ok I bs -> breakpoints_ok I bs').
Proof.
  unfold slide_bounds.
  intros H (Hlb & Hub & Hlbp & Hubp & Hcl & Hcu).
  bind_inv H. rename a into bi, Ha into Hb.
  bind_inv H. rename a into lo, Ha into Hlo.
  bind_inv H. rename a into up, Ha into Hup.
  bind_inv H. rename a into new_lo, Ha into Hnew.
  bind_inv H. rename a into lbps, Ha into Hlbps.
  bind_inv H. rename a into new_up, Ha into Hnup.
  bind_inv H. rename a into ubps, Ha into Hubps.
  bind_inv H. rename a into lbs, Ha into Hlbs.
  bind_inv H. rename a into ubs, Ha into Hubs.
  bind_inv H. rename a into lo', Ha into Hlo'.
  bind_inv H. rename a into up', Ha into Hup'.
  injection H as <-.
  rewrite (py_get_set _ _ _ _ Hlbs) in Hlo'. injection Hlo' as <-.
  rewrite (py_get_set _ _ _ _ Hubs) in Hup'. injection Hup' as <-.
  apply py_get_inv in Hb as (pb & Hpb & Hnb).
  apply py_get_inv in Hlo as (pl & Hpl & Hnl).
  apply py_get_inv in Hup as (pu & Hpu & Hnu).
  apply py_set_inv in Hlbps as (p1 & Hp1 & ->).
  apply py_set_inv in Hubps as (p2 & Hp2 & ->).
  apply py_set_inv in Hlbs as (p3 & Hp3 & ->).
  apply py_set_inv in Hubs as (p4 & Hp4 & ->).
  rewrite Hlb in Hpl, Hp3. rewrite Hub in Hpu, Hp4.
  rewrite Hlbp in Hp1. rewrite Hubp in Hp2.
  assert (pl = pb) by congruence. assert (pu = pb) by congruence.
  assert (p1 = pb) by congruence. assert (p2 = pb) by congruence.
  assert (p3 = pb) by congruence. assert (p4 = pb) by congruence.
  subst pl pu p1 p2 p3 p4.
  pose proof (py_pos_lt _ _ _ Hpb) as Hlt.
  split.
  - unfold bounds_ok; simpl. rewrite !set_nth_length.
    repeat split; auto.
    + rewrite py_sum_set_nth by lia. rewrite Hcl.
      rewrite (nth_error_nth _ _ 0%Q Hnl). reflexivity.
    + rewrite py_sum_set_nth by lia. rewrite Hcu.
      rewrite (nth_error_nth _ _ 0%Q Hnu). reflexivity.
  - intros Hbp q Hq. simpl. rewrite !nth_set_nth.
    rewrite Hlb, Hub, Hlbp, Hubp.
    destruct ((q =? pb)%nat && (pb <? length (b I))%nat) eqn:E.
    + apply andb_prop in E as [E _]. apply Nat.eqb_eq in E. subst q.
      rewrite (nth_error_nth _ _ 0%Q Hnb). split; reflexivity.
    + apply Hbp. assumption.
Qed.

Lemma advance_keeps_bounds (I : instance) (f f' : frame) (go : bool) :
  advance I f = Ok (f', go) ->
  bounds_ok I (bnds f) ->
  bounds_ok I (bnds f')
  /\ (breakpoints_ok I (bnds f) -> breakpoints_ok I (bnds f')).
Proof.
  unfold advance. intros H Hok.
  bind_inv H. bind_inv H. bind_inv H. bind_inv H.
  destruct (num_var I <=? a2).
  - injection H as <- _. cbn [bnds]. auto.
  - bind_inv H. bind_inv H. bind_inv H. bind_inv H.
    injection H as <- _. cbn [bnds].
    eapply slide_bounds_keeps; eassumption.
Qed.

Lemma evaluate_bounds (I : instance) (f f' : frame) :
  evaluate I f = Ok (Some f') -> bnds f' = bnds f.
Proof.
  unfold evaluate. intro H.
  destruct (Qltb (R I) (HELP_feasible_check_lower (bnds f))).
  - injection H as <-. reflexivity.
  - destruct (Qltb (HELP_feasible_check_upper (bnds f)) (R I));
      [discriminate H|].
    bind_inv H. bind_inv H. destruct a0 as [[e mult] obj].
    injection H as <-. reflexivity.
Qed.

Lemma sweep_keeps_bounds (I : instance) (fuel : nat) :
  forall f f',
    sweep I fuel f = Ok f' ->
    bounds_ok I (bnds f) /\ breakpoints_ok I (bnds f) ->
    bounds_ok I (bnds f') /\ breakpoints_ok I (bnds f').
Proof.
  induction fuel as [|fuel IH]; intros f f' H Hf; [discriminate H|].
  cbn [sweep] in H. bind_inv H. bind_inv H.
  destruct (a0 <? num_var I); [|injection H as <-; assumption].
  bind_inv H. destruct a1 as [f1|]; [|injection H as <-; assumption].
  rewrite <- (evaluate_bounds _ _ _ Ha1) in Hf.
  bind_inv H. destruct a1 as [f2 go].
  destruct Hf as [Hok Hbp].
  destruct (advance_keeps_bounds _ _ _ _ Ha2 Hok) as [Hok2 Hbp2].
  destruct go; [|injection H as <-; auto].
  eapply IH; [eassumption|]. auto.
Qed.

(** X8.  When the sweep of a trunk ends, every breakpoint is the bound
    of its variable plus its shift, [lower_breakpoints[i] =
    lower_bounds[i] + b[i]] and the same for the upper ones: lines 88-89
    compute them so and every cursor step (lines 209-219) rewrites bound
    and breakpoint of the moving variable together. *)
Theorem breakpoints_are_bounds_plus_shifts (I : instance) (p : list Z)
    (f f' : frame) :
  trunk_body I p f = Ok f' -> breakpoints_ok I (bnds f').
Proof.
  unfold trunk_body. intro H. bind_inv H.
  eapply sweep_keeps_bounds; [eassumption|].
  eapply trunk_init_bounds; eassumption.
Qed.

Lemma breakpoints_are_bounds_plus_shifts_witness :
  trunk_body two_semicontinuous [] initial_frame = Ok final_frame
  /\ breakpoints_ok two_semicontinuous (bnds final_frame).
Proof.
  assert (H : trunk_body two_semicontinuous [] initial_frame
              = Ok final_frame) by (vm_compute; reflexivity).
  split; [exact H|].
  exact (breakpoints_are_bounds_plus_shifts two_semicontinuous [] _ _ H).
Defined.

(** ** The best objective and the windows searched *)

Lemma nlt_Fin (x y : Q) : nlt (Fin x) (Fin y) = Qltb x y.
Proof. reflexivity. Qed.

Lemma track_sane (q : Q) (mult : num) (r : nat) (t : tracker) :
  sane t -> sane (track (Fin q) mult r t).
Proof.
  intro H. unfold track. destruct (nlt (Fin q) (current_best_obj t)).
  - right. exists q. reflexivity.
  - assumption.
Qed.

Lemma track_below (q q0 : Q) (mult : num) (r : nat) (t : tracker) :
  below q0 t -> below q0 (track (Fin q) mult r t).
Proof.
  intros (q' & Hq' & Hle). unfold track. rewrite Hq', nlt_Fin.
  destruct (Qltb q q') eqn:E.
  - exists q. split; [reflexivity|]. apply Qltb_lt in E. lra.
  - exists q'. split; assumption.
Qed.

Lemma track_reaches (q : Q) (mult : num) (r : nat) (t : tracker) :
  sane t -> below q (track (Fin q) mult r t).
Proof.
  intros [H|(q' & H)]; unfold track; rewrite H.
  - exists q. split; [reflexivity | lra].
  - rewrite nlt_Fin. destruct (Qltb q q') eqn:E.
    + exists q. split; [reflexivity | lra].
    + exists q'. split; [assumption|]. apply Qltb_ge in E. exact E.
Qed.

Lemma evaluate_track (I : instance) (f f1 : frame) :
  evaluate I f = Ok (Some f1) ->
  (Qltb (R I) (HELP_feasible_check_lower (bnds f)) = true
   /\ best f1 = best f)
  \/ (Qltb (R I) (HELP_feasible_check_lower (bnds f)) = false
      /\ exists q mult,
           Obj_value f1 = Some (Fin q)
           /\ best f1 = track (Fin q) mult (partition_full f) (best f)).
Proof.
  unfold evaluate. intro H.
  destruct (Qltb (R I) (HELP_feasible_check_lower (bnds f))).
  - injection H as <-. left. auto.
  - destruct (Qltb (HELP_feasible_check_upper (bnds f)) (R I));
      [discriminate H|].
    bind_inv H. bind_inv H. destruct a0 as [[e mult] obj].
    injection H as <-. right. split; [reflexivity|].
    destruct (search_balanced _ _ _ _ _ _ _ _ Ha0) as (lam & _ & _ & ->).
    eexists. exists mult. split; reflexivity.
Qed.

Lemma evaluate_sane (I : instance) (f f1 : frame) :
  evaluate I f = Ok (Some f1) -> sane (best f) -> sane (best f1).
Proof.
  intros H Hs.
  destruct (evaluate_track _ _ _ H)
    as [[_ ->]|(_ & q & mult & _ & ->)]; [assumption|].
  apply track_sane. assumption.
Qed.

Lemma evaluate_below (I : instance) (f f1 : frame) (q0 : Q) :
  evaluate I f = Ok (Some f1) -> below q0 (best f) -> below q0 (best f1).
Proof.
  intros H Hs.
  destruct (evaluate_track _ _ _ H)
    as [[_ ->]|(_ & q & mult & _ & ->)]; [assumption|].
  apply track_below. assumption.
Qed.

Lemma sweep_keeps (I : instance) (P : tracker -> Prop) :
  (forall f f1, evaluate I f = Ok (Some f1) -> P (best f) -> P (best f1)) ->
  forall fuel f f',
    sweep I fuel f = Ok f' -> P (best f) -> P (best f').
Proof.
  intro Hev.
  induction fuel as [|fuel IH]; intros f f' H Hf; [discriminate H|].
  cbn [sweep] in H. bind_inv H. bind_inv H.
  destruct (a0 <? num_var I); [|injection H as <-; assumption].
  bind_inv H. destruct a1 as [f1|]; [|injection H as <-; assumption].
  bind_inv H. destruct a1 as [f2 go].
  assert (H2 : P (best f2)).
  { rewrite (advance_best _ _ _ _ Ha2). eapply Hev; eassumption. }
  destruct go; [|injection H as <-; assumption].
  eapply IH; eassumption.
Qed.

Lemma trunk_body_keeps (I : instance) (P : tracker -> Prop) :
  (forall f f1, evaluate I f = Ok (Some f1) -> P (best f) -> P (best f1)) ->
  forall p f f',
    trunk_body I p f = Ok f' -> P (best f) -> P (best f').
Proof.
  intros Hev p f f' H Hf. unfold trunk_body in H. bind_inv H.
  eapply sweep_keeps; [exact Hev | exact H |].
  unfold trunk_init in Ha. bind_inv Ha. bind_inv Ha. bind_inv Ha.
  injection Ha as <-. exact Hf.
Qed.

Lemma sweep_window (I : instance) (fuel : nat) :
  forall k f f' obj,
    sweep I fuel f = Ok f' ->
    sane (best f) ->
    window_objective I k f = Some obj ->
    exists q, obj = Fin q /\ below q (best f').
Proof.
  induction fuel as [|fuel IH]; intros k f f' obj H Hs Hw;
    [discriminate H|].
  cbn [sweep] in H. bind_inv H. bind_inv H.
  assert (Hcur : cursor_in_range I f = (a0 <? num_var I)).
  { unfold cursor_in_range. rewrite Ha. cbn [bind]. rewrite Ha0.
    reflexivity. }
  assert (Hw' : (if a0 <? num_var I then
                   match evaluate I f with
                   | Ok (Some f1) =>
                       match k with
                       | O => if Qltb (R I)
                                   (HELP_feasible_check_lower (bnds f))
                              then None else Obj_value f1
                       | S k' =>
                           match advance I f1 with
                           | Ok (f2, true) => window_objective I k' f2
                           | _ => None
                           end
                       end
                   | _ => None
                   end
                 else None) = Some obj).
  { rewrite <- Hcur. destruct k; exact Hw. }
  clear Hw Hcur.
  destruct (a0 <? num_var I); [|discriminate Hw'].
  bind_inv H. rewrite Ha1 in Hw'.
  destruct a1 as [f1|]; [|discriminate Hw'].
  bind_inv H. destruct a1 as [f2 go]. rewrite Ha2 in Hw'.
  pose proof (advance_best _ _ _ _ Ha2) as Hb2.
  destruct k as [|k].
  - destruct (evaluate_track _ _ _ Ha1)
      as [[E _]|(E & q & mult & Hobj & Hbest)];
      rewrite E in Hw'; [discriminate Hw'|].
    rewrite Hobj in Hw'. injection Hw' as <-.
    exists q. split; [reflexivity|].
    assert (H2 : below q (best f2)).
    { rewrite Hb2, Hbest. apply track_reaches. assumption. }
    destruct go; [|injection H as <-; assumption].
    eapply (sweep_keeps I (below q)); [|eassumption|assumption].
    intros g g1. apply evaluate_below.
  - destruct go; [|discriminate Hw'].
    eapply IH; [eassumption| |eassumption].
    rewrite Hb2. eapply evaluate_sane; eassumption.
Qed.

Lemma for_each_app {X S : Type} (xs ys : list X)
    (body : X -> S -> result S) (s : S) :
  for_each (xs ++ ys) body s
  = (s1 <- for_each xs body s ;; for_each ys body s1).
Proof.
  revert s. induction xs as [|x xs IH]; intro s; simpl; [reflexivity|].
  destruct (body x s); simpl; auto.
Qed.

Lemma nth_error_split_at {A : Type} (l : list A) (j : nat) (a : A) :
  nth_error l j = Some a ->
  l = firstn j l ++ a :: skipn (S j) l.
Proof.
  revert j. induction l as [|x l IH]; intros [|j] H; simpl in *;
    try discriminate.
  - injection H as ->. reflexivity.
  - f_equal. apply IH. assumption.
Qed.



(** ** Two intervals: sliding the window against computing it afresh *)

Lemma py_range_nil (a c : Z) : c <= a -> py_range a c = [].
Proof.
  intro H. unfold py_range.
  replace (Z.to_nat (c - a)) with O by lia. reflexivity.
Qed.

Lemma py_range_cons (a c : Z) :
  a < c -> py_range a c = a :: py_range (a + 1) c.
Proof.
  intro H. unfold py_range.
  replace (Z.to_nat (c - a)) with (S (Z.to_nat (c - (a + 1)))) by lia.
  cbn [seq map]. f_equal; [lia|].
  rewrite <- seq_shift, map_map. apply map_ext. intro k. lia.
Qed.

Lemma py_pos_nonneg_inv (len : nat) (i : Z) (p : nat) :
  0 <= i -> py_pos len i = Ok p -> p = Z.to_nat i /\ i < Z.of_nat len.
Proof.
  intros Hi H. unfold py_pos in H.
  destruct ((0 <=? i) && (i <? Z.of_nat len)) eqn:E.
  - injection H as <-. apply andb_prop in E as [_ E].
    apply Z.ltb_lt in E. auto.
  - destruct ((- Z.of_nat len <=? i) && (i <? 0)) eqn:E'; [|discriminate H].
    apply andb_prop in E' as [_ E']. apply Z.ltb_lt in E'. lia.
Qed.

(** What a loop [for i in range(a, c): arr[i] = g(i)] leaves in the
    cells of [arr]. *)
Lemma for_each_set_cells (g : Z -> result Q) (d : Q) (c : Z) (k : nat) :
  forall (a : Z) (arr arr' : list Q),
    Z.to_nat (c - a) = k -> 0 <= a ->
    for_each (py_range a c) (fun i arr => v <- g i ;; py_set arr i v) arr
    = Ok arr' ->
    length arr' = length arr
    /\ forall q,
         (a <= Z.of_nat q < c -> g (Z.of_nat q) = Ok (nth q arr' d))
         /\ (~ a <= Z.of_nat q < c -> nth q arr' d = nth q arr d).
Proof.
  induction k as [|k IH]; intros a arr arr' Hk Ha H.
  - rewrite py_range_nil in H by lia. injection H as <-.
    split; [reflexivity|]. intro q. split; [lia | reflexivity].
  - rewrite py_range_cons in H by lia. cbn [for_each] in H.
    bind_inv H. bind_inv Ha0. rename a1 into v, Ha1 into Hv.
    apply py_set_inv in Ha0 as (p & Hp & ->).
    destruct (py_pos_nonneg_inv _ _ _ Ha Hp) as [-> Hlt].
    destruct (IH (a + 1) _ _ ltac:(lia) ltac:(lia) H) as [Hlen Hcells].
    rewrite set_nth_length in Hlen. split; [exact Hlen|].
    intro q. destruct (Hcells q) as [Hin Hout]. split.
    + intro Hq. destruct (Z.eq_dec (Z.of_nat q) a) as [E|E].
      * rewrite Hout by lia. rewrite nth_set_nth.
        replace (q =? Z.to_nat a)%nat with true
          by (symmetry; apply Nat.eqb_eq; lia).
        replace (Z.to_nat a <? length arr)%nat with true
          by (symmetry; apply Nat.ltb_lt; lia).
        rewrite E. exact Hv.
      * apply Hin. lia.
    + intro Hq. rewrite Hout by lia. rewrite nth_set_nth.
      replace (q =? Z.to_nat a)%nat with false
        by (symmetry; apply Nat.eqb_neq; lia).
      reflexivity.
Qed.

(** With two intervals there is no middle segment: the cells up to the
    cursor are filled by the first loop, the others by the last. *)
Lemma assign_bounds_two (I : instance) (c : Z)
    (first middle final : Z -> result Q) (arr : list Q) :
  length (lower_fixed I) = 1%nat -> -1 <= c ->
  assign_bounds I 1 [c] first middle final = Ok arr ->
  length arr = length (b I)
  /\ forall q, (q < length (b I))%nat ->
       (Z.of_nat q <= c -> first (Z.of_nat q) = Ok (nth q arr 0%Q))
       /\ (c < Z.of_nat q -> final (Z.of_nat q) = Ok (nth q arr 0%Q)).
Proof.
  intros Hm Hc H.
  pose proof (assign_bounds_length _ _ _ _ _ _ _ H) as Hlen.
  split; [exact Hlen|].
  unfold assign_bounds, num_intervals, num_var in H. rewrite Hm in H.
  change (py_get [c] 0) with (@Ok Z c) in H.
  change (py_get [c] (Z.of_nat 1 + 1 - 2)) with (@Ok Z c) in H.
  change (py_range 1 (Z.of_nat 1 + 1 - 2)) with (@nil Z) in H.
  cbn [bind for_each] in H.
  bind_inv H. rename a into arr1, Ha into H1.
  assert (Hc' : 0 <= c + 1) by lia.
  destruct (for_each_set_cells first 0%Q _ _ 0 _ _ eq_refl
              (Z.le_refl 0) H1) as [_ Hc1].
  destruct (for_each_set_cells final 0%Q _ _ (c + 1) _ _ eq_refl
              Hc' H) as [_ Hc2].
  intros q Hq. split.
  - intro Hle. destruct (Hc2 q) as [_ Hout]. rewrite Hout by lia.
    apply (Hc1 q). lia.
  - intro Hgt. apply (Hc2 q). lia.
Qed.

Lemma initial_bounds_ok (I : instance) (pf : list Z) (bs : bounds) :
  initial_bounds I pf = Ok bs ->
  bounds_ok I bs /\ breakpoints_ok I bs.
Proof.
  unfold initial_bounds, initial_lower_bounds, initial_upper_bounds.
  intro H. bind_inv H. bind_inv H. bind_inv H. bind_inv H.
  injection H as <-.
  apply assign_bounds_length in Ha, Ha0.
  destruct (breakpoints_of_spec _ _ _ Ha Ha1) as [Hl1 Hn1].
  destruct (breakpoints_of_spec _ _ _ Ha0 Ha2) as [Hl2 Hn2].
  split.
  - unfold bounds_ok; simpl. repeat split; auto; reflexivity.
  - intros q Hq. simpl. split; auto.
Qed.

Lemma slide_bounds_arrays (I : instance) (v : Z) (bs bs' : bounds) :
  0 <= v -> bounds_ok I bs ->
  slide_bounds I v bs = Ok bs' ->
  exists new_lo new_up,
    (if (length (lower_fixed I) =? 1)%nat
     then py_get (lower_var I) v
     else py_get (lower_fixed I) (-2)) = Ok new_lo
    /\ py_get (upper_fixed I) (-1) = Ok new_up
    /\ lower_bounds bs' = set_nth (Z.to_nat v) new_lo (lower_bounds bs)
    /\ upper_bounds bs' = set_nth (Z.to_nat v) new_up (upper_bounds bs).
Proof.
  unfold slide_bounds. intros Hv (Hlb & Hub & _) H.
  bind_inv H. bind_inv H. bind_inv H.
  bind_inv H. rename a2 into new_lo, Ha2 into Hlo.
  bind_inv H.
  bind_inv H. rename a3 into new_up, Ha3 into Hup.
  bind_inv H.
  bind_inv H. rename a4 into lbs, Ha4 into Hlbs.
  bind_inv H. rename a4 into ubs, Ha4 into Hubs.
  bind_inv H. bind_inv H. injection H as <-.
  cbn [lower_bounds upper_bounds].
  apply py_set_inv in Hlbs as (p1 & Hp1 & ->).
  apply py_set_inv in Hubs as (p2 & Hp2 & ->).
  apply (py_pos_nonneg_inv _ _ _ Hv) in Hp1 as [-> _].
  apply (py_pos_nonneg_inv _ _ _ Hv) in Hp2 as [-> _].
  exists new_lo, new_up. auto.
Qed.

Lemma breakpoints_determined (I : instance) (bs bs' : bounds) :
  bounds_ok I bs -> breakpoints_ok I bs ->
  bounds_ok I bs' -> breakpoints_ok I bs' ->
  lower_bounds bs = lower_bounds bs' ->
  upper_bounds bs = upper_bounds bs' ->
  same_arrays bs bs'.
Proof.
  intros (Hlb & Hub & Hlbp & Hubp & Hcl & Hcu) Hbp
         (Hlb' & Hub' & Hlbp' & Hubp' & Hcl' & Hcu') Hbp' El Eu.
  unfold same_arrays. split; [exact El|]. split; [exact Eu|].
  split.
  - apply (nth_ext _ _ 0%Q 0%Q); [congruence|].
    intros q Hq. rewrite Hlbp in Hq.
    destruct (Hbp q Hq) as [-> _]. destruct (Hbp' q Hq) as [-> _].
    rewrite El. reflexivity.
  - apply (nth_ext _ _ 0%Q 0%Q); [congruence|].
    intros q Hq. rewrite Hubp in Hq.
    destruct (Hbp q Hq) as [_ ->]. destruct (Hbp' q Hq) as [_ ->].
    rewrite Eu. reflexivity.
Qed.

(** X10.  With two intervals, moving the cursor from [c] to [c + 1] by
    lines 209-219 leaves the very bound arrays and breakpoint arrays
    that lines 69-89 compute afresh for the partition [c + 1]: on the
    four arrays the sliding update and the initial assignment agree. *)
Theorem sliding_agrees_with_fresh_arrays (I : instance) (c : Z)
    (bs bs' : bounds) :
  well_formed I ->
  length (lower_fixed I) = 1%nat ->
  -1 <= c ->
  initial_bounds I [c] = Ok bs ->
  slide_bounds I (c + 1) bs = Ok bs' ->
  exists bs'', initial_bounds I [c + 1] = Ok bs'' /\ same_arrays bs' bs''.
Proof.
  intros Hwf Hm Hc Hinit Hslide.
  assert (Hv : 0 <= c + 1) by lia.
  destruct (slide_index_range I _ _ _ Hv Hslide) as [_ Hn].
  unfold num_var in Hn.
  destruct (initial_bounds_ok _ _ _ Hinit) as [Hok Hbp].
  destruct (slide_bounds_keeps _ _ _ _ Hslide Hok) as [Hok' Hbp'].
  specialize (Hbp' Hbp).
  destruct (initial_bounds_defined I Hwf [c + 1]) as (bs'' & Hinit' & Hok'').
  { unfold num_intervals. rewrite Hm. reflexivity. }
  { constructor; [unfold num_var; lia | constructor]. }
  exists bs''. split; [exact Hinit'|].
  destruct (initial_bounds_ok _ _ _ Hinit') as [_ Hbp''].
  destruct (slide_bounds_arrays _ _ _ _ Hv Hok Hslide)
    as (new_lo & new_up & Hlo & Hup & El & Eu).
  rewrite Hm in Hlo. cbn [Nat.eqb] in Hlo.
  unfold initial_bounds, initial_lower_bounds, initial_upper_bounds,
    lower_of, upper_of in Hinit, Hinit'.
  bind_inv Hinit. rename a into lb, Ha into Hlb.
  bind_inv Hinit. rename a into ub, Ha into Hub.
  bind_inv Hinit. bind_inv Hinit. injection Hinit as <-.
  bind_inv Hinit'. rename a1 into lb', Ha1 into Hlb'.
  bind_inv Hinit'. rename a1 into ub', Ha1 into Hub'.
  bind_inv Hinit'. bind_inv Hinit'. injection Hinit' as <-.
  cbn [lower_bounds upper_bounds] in El, Eu.
  destruct (assign_bounds_two _ _ _ _ _ _ Hm Hc Hlb) as [Ll Cl].
  destruct (assign_bounds_two _ _ _ _ _ _ Hm Hc Hub) as [Lu Cu].
  destruct (assign_bounds_two I (c + 1) _ _ _ _ Hm ltac:(lia) Hlb')
    as [Ll' Cl'].
  destruct (assign_bounds_two I (c + 1) _ _ _ _ Hm ltac:(lia) Hub')
    as [Lu' Cu'].
  assert (Hfix : py_get (upper_fixed I) 0 = py_get (upper_fixed I) (-1)).
  { pose proof (wf_fixed I Hwf) as Hf. rewrite Hm in Hf.
    destruct (upper_fixed I) as [|x [|y l]]; try discriminate Hf.
    reflexivity. }
  apply (breakpoints_determined I); try assumption;
    cbn [lower_bounds upper_bounds].
  - rewrite El. apply (nth_ext _ _ 0%Q 0%Q).
    + rewrite set_nth_length. congruence.
    + intros q Hq. rewrite set_nth_length, Ll in Hq.
      rewrite nth_set_nth.
      destruct (Cl q Hq) as [C1 C2]. destruct (Cl' q Hq) as [C1' C2'].
      destruct (q =? Z.to_nat (c + 1))%nat eqn:E.
      * apply Nat.eqb_eq in E. subst q.
        replace (Z.to_nat (c + 1) <? length lb)%nat with true
          by (symmetry; apply Nat.ltb_lt; lia).
        cbn [andb]. rewrite Z2Nat.id in C1' by lia.
        specialize (C1' ltac:(lia)). congruence.
      * apply Nat.eqb_neq in E. cbn [andb].
        destruct (Z_le_gt_dec (Z.of_nat q) c) as [Hle|Hgt].
        -- specialize (C1 Hle). specialize (C1' ltac:(lia)). congruence.
        -- specialize (C2 ltac:(lia)). specialize (C2' ltac:(lia)).
           congruence.
  - rewrite Eu. apply (nth_ext _ _ 0%Q 0%Q).
    + rewrite set_nth_length. congruence.
    + intros q Hq. rewrite set_nth_length, Lu in Hq.
      rewrite nth_set_nth.
      destruct (Cu q Hq) as [C1 C2]. destruct (Cu' q Hq) as [C1' C2'].
      destruct (q =? Z.to_nat (c + 1))%nat eqn:E.
      * apply Nat.eqb_eq in E. subst q.
        replace (Z.to_nat (c + 1) <? length ub)%nat with true
          by (symmetry; apply Nat.ltb_lt; lia).
        cbn [andb]. specialize (C1' ltac:(lia)). congruence.
      * apply Nat.eqb_neq in E. cbn [andb].
        destruct (Z_le_gt_dec (Z.of_nat q) c) as [Hle|Hgt].
        -- specialize (C1 Hle). specialize (C1' ltac:(lia)). congruence.
        -- specialize (C2 ltac:(lia)). specialize (C2' ltac:(lia)).
           congruence.
Qed.

Lemma sliding_agrees_with_fresh_arrays_witness :
  well_formed two_semicontinuous
  /\ length (lower_fixed two_semicontinuous) = 1%nat
  /\ -1 <= -1
  /\ initial_bounds two_semicontinuous [-1] = Ok (bnds first_frame)
  /\ slide_bounds two_semicontinuous (-1 + 1) (bnds first_frame)
     = Ok (bnds second_frame)
  /\ exists bs'',
       initial_bounds two_semicontinuous [-1 + 1] = Ok bs''
       /\ same_arrays (bnds second_frame) bs''.
Proof.
  assert (Hwf : well_formed two_semicontinuous)
    by (constructor; simpl; lia).
  assert (Hm : length (lower_fixed two_semicontinuous) = 1%nat)
    by reflexivity.
  assert (Hc : -1 <= -1) by lia.
  assert (Hi : initial_bounds two_semicontinuous [-1]
               = Ok (bnds first_frame)) by (vm_compute; reflexivity).
  assert (Hs : slide_bounds two_semicontinuous (-1 + 1) (bnds first_frame)
               = Ok (bnds second_frame)) by (vm_compute; reflexivity).
  split; [exact Hwf|]. split; [exact Hm|]. split; [exact Hc|].
  split; [exact Hi|]. split; [exact Hs|].
  exact (sliding_agrees_with_fresh_arrays two_semicontinuous (-1) _ _
           Hwf Hm Hc Hi Hs).
Defined.

(** ** The partition lists of earlier trunks *)

Lemma nth_error_set_nth_other {A : Type} (p r : nat) (a : A) (l : list A) :
  r <> p -> nth_error (set_nth p a l) r = nth_error l r.
Proof.
  revert p r. induction l as [|x l IH]; intros [|p] [|r] H; simpl; auto.
  contradiction.
Qed.

Lemma advance_other_lists (I : instance) (f f' : frame) (go : bool) :
  advance I f = Ok (f', go) ->
  forall r, r <> partition_full f ->
    nth_error (store f') r = nth_error (store f) r.
Proof.
  unfold advance. intros H r Hr.
  bind_inv H. bind_inv H. bind_inv H. bind_inv H.
  destruct (num_var I <=? a2).
  - injection H as <- _. cbn [store].
    apply nth_error_set_nth_other. assumption.
  - bind_inv H. bind_inv H. bind_inv H. bind_inv H.
    injection H as <- _. cbn [store].
    apply nth_error_set_nth_other. assumption.
Qed.

Lemma sweep_other_lists (I : instance) (fuel : nat) :
  forall f f',
    sweep I fuel f = Ok f' ->
    length (store f') = length (store f)
    /\ forall r, r <> partition_full f ->
         nth_error (store f') r = nth_error (store f) r.
Proof.
  induction fuel as [|fuel IH]; intros f f' H; [discriminate H|].
  cbn [sweep] in H. bind_inv H. bind_inv H.
  destruct (a0 <? num_var I); [|injection H as <-; auto].
  bind_inv H. destruct a1 as [f1|]; [|injection H as <-; auto].
  destruct (evaluate_frame _ _ _ Ha1) as (Hst & Href & _).
  bind_inv H. destruct a1 as [f2 go].
  destruct (advance_store _ _ _ _ Ha2) as (Hlen & Href2 & _).
  pose proof (advance_other_lists _ _ _ _ Ha2) as Hoth.
  rewrite Hst in Hlen. rewrite Href, Hst in Hoth.
  destruct go; [|injection H as <-; auto].
  destruct (IH _ _ H) as [Hlen' Hoth'].
  rewrite Href2, Href in Hoth'.
  split; [congruence|].
  intros r Hr. rewrite (Hoth' r Hr). apply Hoth. assumption.
Qed.

(** X12.  A trunk adds one list, its own [partition_full], to the list
    objects made so far and changes none of the earlier ones: line 187
    writes only to the list of the current trunk, so a record taken in
    an earlier trunk refers to a list that no longer moves. *)
Theorem trunk_leaves_earlier_lists_alone (I : instance) (p : list Z)
    (f f' : frame) :
  trunk_body I p f = Ok f' ->
  length (store f') = S (length (store f))
  /\ forall r, (r < length (store f))%nat ->
       nth_error (store f') r = nth_error (store f) r.
Proof.
  unfold trunk_body. intro H. bind_inv H. rename a into f0.
  destruct (sweep_other_lists _ _ _ _ H) as [Hlen Hoth].
  unfold trunk_init in Ha. bind_inv Ha. bind_inv Ha. bind_inv Ha.
  injection Ha as <-. cbn [store partition_full] in Hlen, Hoth.
  split.
  - rewrite Hlen, length_app. simpl. lia.
  - intros r Hr. rewrite Hoth by lia. apply nth_error_app1. assumption.
Qed.

Lemma trunk_leaves_earlier_lists_alone_witness :
  trunk_body two_semicontinuous [] final_frame
  = Ok (frame_of (trunk_body two_semicontinuous [] final_frame))
  /\ length (store (frame_of (trunk_body two_semicontinuous []
                                final_frame)))
     = S (length (store final_frame))
  /\ forall r, (r < length (store final_frame))%nat ->
       nth_error (store (frame_of (trunk_body two_semicontinuous []
                                     final_frame))) r
       = nth_error (store final_frame) r.
Proof.
  assert (H : trunk_body two_semicontinuous [] final_frame
              = Ok (frame_of (trunk_body two_semicontinuous []
                                final_frame)))
    by (vm_compute; reflexivity).
  split; [exact H|].
  exact (trunk_leaves_earlier_lists_alone two_semicontinuous [] _ _ H).
Defined.

(** * Instances beyond reach *)

(** ** The cells of the bound arrays *)

Lemma good_upto_weaken (I : instance) (allowed : nat -> Q -> Prop)
    (c c' : Z) (arr : list Q) :
  c <= c' -> good_upto I allowed c' arr -> good_upto I allowed c arr.
Proof. intros Hc H k Hk Hn. apply H; [lia | assumption]. Qed.

(** One assignment loop makes the cells of its range good and leaves
    the others as they were. *)
Lemma loop_good (I : instance) (allowed : nat -> Q -> Prop)
    (g : Z -> result Q) (a c' c0 : Z) (arr arr' : list Q) :
  0 <= a -> a <= c0 ->
  (forall i v, a <= i < c' -> g i = Ok v -> allowed (Z.to_nat i) v) ->
  for_each (py_range a c') (fun i arr => v <- g i ;; py_set arr i v) arr
  = Ok arr' ->
  good_upto I allowed c0 arr ->
  good_upto I allowed (Z.max c0 c') arr'.
Proof.
  intros Ha Hac Hg H Hgood k Hk Hn.
  destruct (for_each_set_cells g 0%Q c' (Z.to_nat (c' - a)) a arr arr'
              eq_refl Ha H) as [_ Hcells].
  destruct (Hcells k) as [Hin Hout].
  destruct (Z_lt_ge_dec (Z.of_nat k) a) as [Hlt|Hge].
  - rewrite Hout by lia. apply Hgood; [lia | assumption].
  - destruct (Z_lt_ge_dec (Z.of_nat k) c') as [Hlt'|Hge'].
    + assert (Hr : a <= Z.of_nat k < c') by lia.
      pose proof (Hg (Z.of_nat k) _ Hr (Hin Hr)) as Hal.
      rewrite Nat2Z.id in Hal. exact Hal.
    + rewrite Hout by lia. apply Hgood; [lia | assumption].
Qed.

Section BeyondReach.
Variable I : instance.
Hypothesis Hwf : well_formed I.

Local Abbreviation n := (num_var I).
Local Abbreviation m := (num_intervals I).

(** At the start of a trunk the sliding boundary repeats the one before
    it. *)
Lemma full_partition_tail (p : list Z) :
  Z.of_nat (length p) = m - 2 ->
  py_get (p ++ [seed p]) (m - 2)
  = py_get (p ++ [seed p]) (Z.max 0 (m - 3)).
Proof.
  intro Hlen. destruct p as [|x0 p0] eqn:Ep.
  - simpl length in Hlen.
    replace (m - 2) with 0 by lia.
    replace (Z.max 0 (m - 3)) with 0 by lia. reflexivity.
  - rewrite <- Ep in *.
    assert (Hne : p <> []) by (rewrite Ep; discriminate).
    destruct (exists_last Hne) as (q & y & Hq).
    unfold seed. rewrite Hq, last_last.
    rewrite Hq, length_app in Hlen. simpl length in Hlen.
    rewrite (py_get_nth _ (m - 2) 0)
      by (rewrite !length_app; simpl length; lia).
    rewrite (py_get_nth _ (Z.max 0 (m - 3)) 0)
      by (rewrite !length_app; simpl length; lia).
    f_equal.
    replace (Z.to_nat (m - 2)) with (S (length q)) by lia.
    replace (Z.to_nat (Z.max 0 (m - 3))) with (length q) by lia.
    rewrite <- app_assoc. cbn [app].
    rewrite (app_nth2 q [y; y] 0 (n := S (length q))) by lia.
    rewrite (app_nth2 q [y; y] 0 (n := length q)) by lia.
    replace (S (length q) - length q)%nat with 1%nat by lia.
    replace (length q - length q)%nat with 0%nat by lia.
    reflexivity.
Qed.

(** The loops over the middle segments: when the cells up to the
    boundary before segment [j0] are good, the cells up to the last
    boundary the loops reach are good afterwards. *)
Lemma middle_good (allowed : nat -> Q -> Prop) (pf : list Z)
    (middle : Z -> result Q) (len : nat) :
  Forall (fun x => -1 <= x < n) pf ->
  (forall j i v, 0 <= i < n -> middle j = Ok v ->
                 allowed (Z.to_nat i) v) ->
  forall (j0 : Z) (arr arr' : list Q),
    Z.to_nat (m - 2 - j0) = len -> 1 <= j0 ->
    (forall x, py_get pf (j0 - 1) = Ok x ->
               good_upto I allowed (x + 1) arr) ->
    for_each (py_range j0 (m - 2))
      (fun j arr =>
         lo <- py_get pf (j - 1) ;;
         hi <- py_get pf j ;;
         for_each (py_range (lo + 1) (hi + 1))
           (fun i arr => v <- middle j ;; py_set arr i v) arr) arr
    = Ok arr' ->
    forall x, py_get pf (Z.max (j0 - 1) (m - 3)) = Ok x ->
              good_upto I allowed (x + 1) arr'.
Proof.
  intros Hpf Hmid. rewrite Forall_forall in Hpf.
  induction len as [|len IH]; intros j0 arr arr' Hlen Hj0 Hgood H x Hx.
  - rewrite py_range_nil in H by lia. injection H as <-.
    replace (Z.max (j0 - 1) (m - 3)) with (j0 - 1) in Hx by lia. auto.
  - rewrite py_range_cons in H by lia. cbn [for_each] in H.
    bind_inv H. bind_inv Ha. bind_inv Ha.
    pose proof (Hpf _ (py_get_In _ _ _ Ha0)) as Hlo.
    pose proof (Hpf _ (py_get_In _ _ _ Ha1)) as Hhi.
    assert (Hloop : good_upto I allowed (Z.max (a0 + 1) (a1 + 1)) a).
    { apply (loop_good I allowed (fun _ => middle j0)
               (a0 + 1) (a1 + 1) (a0 + 1) arr a);
        [lia | lia | | exact Ha | auto].
      intros i v Hi Hv. eapply Hmid; [|exact Hv]. lia. }
    apply (IH (j0 + 1) a arr'); [lia | lia | | exact H |].
    + intros y Hy. replace (j0 + 1 - 1) with j0 in Hy by lia.
      rewrite Ha1 in Hy. injection Hy as <-.
      eapply good_upto_weaken; [|exact Hloop]. lia.
    + replace (Z.max (j0 + 1 - 1) (m - 3))
        with (Z.max (j0 - 1) (m - 3)) by lia.
      exact Hx.
Qed.

(** Lines 69-85 leave no cell unassigned at the start of a trunk. *)
Lemma assign_bounds_cells (allowed : nat -> Q -> Prop) (pf : list Z)
    (first middle final : Z -> result Q) (arr : list Q) :
  Forall (fun x => -1 <= x < n) pf ->
  py_get pf (m - 2) = py_get pf (Z.max 0 (m - 3)) ->
  (forall i v, 0 <= i < n -> first i = Ok v -> allowed (Z.to_nat i) v) ->
  (forall j i v, 0 <= i < n -> middle j = Ok v ->
                 allowed (Z.to_nat i) v) ->
  (forall i v, 0 <= i < n -> final i = Ok v -> allowed (Z.to_nat i) v) ->
  assign_bounds I 1 pf first middle final = Ok arr ->
  forall k, (k < length (b I))%nat -> allowed k (nth k arr 0%Q).
Proof.
  intros Hpf Htail Hfirst Hmid Hfinal H k Hk.
  pose proof Hpf as Hpf'. rewrite Forall_forall in Hpf'.
  unfold assign_bounds in H.
  bind_inv H. bind_inv H. bind_inv H. bind_inv H.
  pose proof (Hpf' _ (py_get_In _ _ _ Ha)) as Hp0.
  pose proof (Hpf' _ (py_get_In _ _ _ Ha2)) as Hpl.
  assert (G1 : good_upto I allowed (a + 1) a0).
  { apply (good_upto_weaken I allowed _ (Z.max 0 (a + 1))); [lia|].
    apply (loop_good I allowed first 0 (a + 1) 0
             (repeat 0%Q (Z.to_nat n)) a0);
      [lia | lia | | exact Ha0 |].
    - intros i v Hi Hv. eapply Hfirst; [|exact Hv]. lia.
    - intros q Hq. lia. }
  assert (G2 : forall x, py_get pf (Z.max 0 (m - 3)) = Ok x ->
                         good_upto I allowed (x + 1) a1).
  { intros x Hx.
    apply (middle_good allowed pf middle (Z.to_nat (m - 2 - 1)) Hpf Hmid
             1 a0 a1 eq_refl); [lia | | exact Ha1 |].
    - intros y Hy. replace (1 - 1) with 0 in Hy by lia.
      rewrite Ha in Hy. injection Hy as <-. exact G1.
    - replace (1 - 1) with 0 by lia. exact Hx. }
  rewrite Htail in Ha2. specialize (G2 _ Ha2).
  assert (G3 : good_upto I allowed (Z.max (a2 + 1) n) arr).
  { apply (loop_good I allowed final (a2 + 1) n (a2 + 1) a1 arr);
      [lia | lia | | exact H | exact G2].
    intros i v Hi Hv. eapply Hfinal; [|exact Hv]. lia. }
  apply G3; [unfold num_var; lia | exact Hk].
Qed.

Lemma initial_bounds_cells (p : list Z) (bs : bounds) :
  In p (trunks I) ->
  initial_bounds I (p ++ [seed p]) = Ok bs -> cells_within I bs.
Proof.
  intros Hp H.
  destruct (full_partition_shape I Hwf p Hp) as [_ Hall].
  destruct (trunk_shape I Hwf p Hp) as [Hlen _].
  pose proof (full_partition_tail p Hlen) as Htail.
  unfold initial_bounds, initial_lower_bounds, initial_upper_bounds in H.
  bind_inv H. bind_inv H. bind_inv H. bind_inv H. injection H as <-.
  intros k Hk. cbn [lower_bounds upper_bounds].
  pose proof (wf_lower_var I Hwf) as Hlv.
  pose proof (wf_upper_var I Hwf) as Huv.
  unfold num_var in *. split.
  - unfold lower_of in Ha.
    apply (assign_bounds_cells (fun k v => In v (lower_ends I k))
             _ _ _ _ _ Hall Htail) with (k := k) in Ha;
      [exact Ha | | | | exact Hk].
    + intros i v Hi Hv. unfold num_var in Hi. left.
      rewrite (py_get_nth (lower_var I) i 0%Q) in Hv by lia.
      injection Hv as <-. reflexivity.
    + intros j i v Hi Hv. right. eapply py_get_In; exact Hv.
    + intros i v Hi Hv. right. eapply py_get_In; exact Hv.
  - unfold upper_of in Ha0.
    apply (assign_bounds_cells (fun k v => In v (upper_ends I k))
             _ _ _ _ _ Hall Htail) with (k := k) in Ha0;
      [exact Ha0 | | | | exact Hk].
    + intros i v Hi Hv. right. eapply py_get_In; exact Hv.
    + intros j i v Hi Hv. right. eapply py_get_In; exact Hv.
    + intros i v Hi Hv. unfold num_var in Hi. left.
      rewrite (py_get_nth (upper_var I) i 0%Q) in Hv by lia.
      injection Hv as <-. reflexivity.
Qed.

Lemma slide_bounds_cells (v : Z) (bs bs' : bounds) :
  0 <= v -> bounds_ok I bs -> cells_within I bs ->
  slide_bounds I v bs = Ok bs' -> cells_within I bs'.
Proof.
  intros Hv Hok Hcells H.
  destruct (slide_bounds_arrays I v bs bs' Hv Hok H)
    as (new_lo & new_up & Hlo & Hup & El & Eu).
  destruct (slide_index_range I v bs bs' Hv H) as [_ Hn].
  pose proof (wf_lower_var I Hwf) as Hlv.
  destruct Hok as (Hlb & Hub & _).
  unfold num_var in *.
  intros k Hk. rewrite El, Eu, !nth_set_nth, Hlb, Hub.
  destruct (Hcells k Hk) as [Cl Cu].
  destruct (k =? Z.to_nat v)%nat eqn:E; cbn [andb];
    [|split; assumption].
  apply Nat.eqb_eq in E. subst k.
  replace (Z.to_nat v <? length (b I))%nat with true
    by (symmetry; apply Nat.ltb_lt; exact Hk).
  split.
  - destruct (length (lower_fixed I) =? 1)%nat.
    + left. rewrite (py_get_nth (lower_var I) v 0%Q) in Hlo by lia.
      injection Hlo as <-. reflexivity.
    + right. eapply py_get_In; exact Hlo.
  - right. eapply py_get_In; exact Hup.
Qed.

(** What holds of the bounds of every window of every trunk. *)
Lemma window_invariants (p : list Z) (k : nat) (bs : bounds) :
  In p (trunks I) -> window_bounds I p k = Ok bs ->
  bounds_ok I bs /\ breakpoints_ok I bs /\ cells_within I bs.
Proof.
  intro Hp. revert bs. induction k as [|k IH]; intros bs H.
  - cbn [window_bounds] in H.
    destruct (initial_bounds_ok _ _ _ H) as [Hok Hbp].
    split; [assumption|]. split; [assumption|].
    eapply initial_bounds_cells; eassumption.
  - rewrite window_bounds_S in H. bind_inv H.
    destruct (IH _ Ha) as (Hok & Hbp & Hc).
    destruct (trunk_shape I Hwf p Hp) as [_ Hall].
    pose proof (seed_range I p Hall) as Hseed.
    assert (Hv : 0 <= seed p + Z.of_nat (S k)) by lia.
    destruct (slide_bounds_keeps _ _ _ _ H Hok) as [Hok' Hbp'].
    split; [assumption|]. split; [auto|].
    exact (slide_bounds_cells _ _ _ Hv Hok Hc H).
Qed.

(** ** The sums of a window against the reach of the instance *)

Lemma largest_upper_bound (x v : Q) (l : list Q) :
  In v (x :: l) -> (v <= largest x l)%Q.
Proof.
  unfold largest. induction l as [|y l IH]; intro H; cbn [fold_right].
  - destruct H as [<-|[]]. apply Qle_refl.
  - destruct H as [<-|[<-|H]].
    + eapply Qle_trans; [apply IH; left; reflexivity | apply Q.le_max_r].
    + apply Q.le_max_l.
    + eapply Qle_trans; [apply IH; right; exact H | apply Q.le_max_r].
Qed.

Lemma least_lower_bound (x v : Q) (l : list Q) :
  In v (x :: l) -> (least x l <= v)%Q.
Proof.
  unfold least. induction l as [|y l IH]; intro H; cbn [fold_right].
  - destruct H as [<-|[]]. apply Qle_refl.
  - destruct H as [<-|[<-|H]].
    + eapply Qle_trans; [apply Q.le_min_r | apply IH; left; reflexivity].
    + apply Q.le_min_l.
    + eapply Qle_trans; [apply Q.le_min_r | apply IH; right; exact H].
Qed.

Lemma Qsum_pointwise_le (f : nat -> Q) :
  forall (l : list Q) (start : nat),
    (forall k, (k < length l)%nat -> (nth k l 0 <= f (start + k)%nat)%Q) ->
    (Qsum l <= Qsum (map f (seq start (length l))))%Q.
Proof.
  induction l as [|x l IH]; intros start H; cbn [length seq map Qsum
                                                  fold_right].
  - apply Qle_refl.
  - apply Qplus_le_compat.
    + specialize (H O ltac:(simpl; lia)). rewrite Nat.add_0_r in H.
      exact H.
    + apply IH. intros k Hk.
      specialize (H (S k) ltac:(simpl; lia)).
      rewrite Nat.add_succ_r in H. exact H.
Qed.

Lemma Qsum_pointwise_ge (f : nat -> Q) :
  forall (l : list Q) (start : nat),
    (forall k, (k < length l)%nat -> (f (start + k)%nat <= nth k l 0)%Q) ->
    (Qsum (map f (seq start (length l))) <= Qsum l)%Q.
Proof.
  induction l as [|x l IH]; intros start H; cbn [length seq map Qsum
                                                  fold_right].
  - apply Qle_refl.
  - apply Qplus_le_compat.
    + specialize (H O ltac:(simpl; lia)). rewrite Nat.add_0_r in H.
      exact H.
    + apply IH. intros k Hk.
      specialize (H (S k) ltac:(simpl; lia)).
      rewrite Nat.add_succ_r in H. exact H.
Qed.

Lemma window_sums (bs : bounds) :
  bounds_ok I bs -> cells_within I bs ->
  (py_sum (upper_bounds bs) <= max_upper_sum I)%Q
  /\ (min_lower_sum I <= py_sum (lower_bounds bs))%Q.
Proof.
  intros (Hlb & Hub & _) Hcells. rewrite !py_sum_Qsum.
  unfold max_upper_sum, min_lower_sum. split.
  - rewrite <- Hub. apply Qsum_pointwise_le. intros k Hk.
    rewrite Hub in Hk. apply largest_upper_bound. apply (Hcells k Hk).
  - rewrite <- Hlb. apply Qsum_pointwise_ge. intros k Hk.
    rewrite Hlb in Hk. apply least_lower_bound. apply (Hcells k Hk).
Qed.

Hypothesis Hbeyond : beyond_reach I.

Lemma beyond_reach_window (bs : bounds) :
  bounds_ok I bs -> cells_within I bs -> out_of_reach I bs.
Proof.
  intros Hok Hcells. destruct (window_sums bs Hok Hcells) as [Hu Hl].
  unfold out_of_reach. destruct Hbeyond as [H|H].
  - right. eapply Qle_lt_trans; eassumption.
  - left. eapply Qlt_le_trans; eassumption.
Qed.

(** A window beyond reach is left by the [break] of line 113 or with
    the multiplier [-inf] of line 111. *)
Lemma evaluate_out_of_reach (f : frame) :
  bounds_ok I (bnds f) -> out_of_reach I (bnds f) ->
  evaluate I f = Ok None
  \/ evaluate I f
     = Ok (Some (Frame (store f) (partition_full f) (bnds f) (eng f)
                       (Some NInf) (Obj_value f) (best f))).
Proof.
  intros (_ & _ & _ & _ & Hcl & Hcu) Hout. unfold evaluate.
  destruct (Qltb (R I) (HELP_feasible_check_lower (bnds f))) eqn:E1;
    [right; reflexivity|].
  destruct (Qltb (HELP_feasible_check_upper (bnds f)) (R I)) eqn:E2;
    [left; reflexivity|].
  apply Qltb_ge in E1, E2. exfalso.
  destruct Hout as [Hlow|Hup].
  - rewrite <- Hcl in Hlow. apply (Qlt_not_le _ _ Hlow E1).
  - rewrite <- Hcu in Hup. apply (Qlt_not_le _ _ Hup E2).
Qed.

(** ** The squares that are taken *)

Hypothesis Hsq : squares_in_range I = true.

Lemma square_in_range (k : nat) (l : Q) :
  (k < length (b I))%nat -> In l (lower_ends I k) ->
  math_pow2 (l + nth k (b I) 0)%Q = Ok (pow2 (l + nth k (b I) 0)%Q).
Proof.
  intros Hk Hl. pose proof Hsq as H. unfold squares_in_range in H.
  rewrite forallb_forall in H.
  specialize (H k ltac:(apply in_seq; lia)).
  rewrite forallb_forall in H. specialize (H l Hl).
  apply negb_true_iff in H. unfold math_pow2. rewrite H. reflexivity.
Qed.

Lemma initial_engine_defined (bs : bounds) :
  bounds_ok I bs -> breakpoints_ok I bs -> cells_within I bs ->
  exists e, initial_engine I bs = Ok e.
Proof.
  intros (Hlb & Hub & Hlbp & Hubp & _) Hbp Hcells.
  unfold initial_engine, entries_of.
  destruct (comprehension_defined (py_range 0 n)
              (fun i => x <- py_get (lower_breakpoints bs) i ;;
                        math_pow2 x)) as (sq & -> & _).
  { intros i Hi. apply in_py_range in Hi. unfold num_var in Hi.
    rewrite (py_get_nth (lower_breakpoints bs) i 0%Q) by lia.
    cbn [bind].
    assert (Hk : (Z.to_nat i < length (b I))%nat) by lia.
    destruct (Hbp _ Hk) as [-> _].
    rewrite square_in_range; [eexists; reflexivity | exact Hk |].
    apply (Hcells _ Hk). }
  cbn [bind].
  destruct (comprehension_defined (py_range 0 n)
              (fun i => x <- py_get (lower_breakpoints bs) i ;;
                        Ok (Entry x i 0))) as (hl & -> & _).
  { intros i Hi. apply in_py_range in Hi. unfold num_var in Hi.
    destruct (py_get_defined (lower_breakpoints bs) i) as (x & ->);
      [lia|]. cbn [bind]. eexists; reflexivity. }
  cbn [bind].
  destruct (comprehension_defined (py_range 0 n)
              (fun i => x <- py_get (upper_breakpoints bs) i ;;
                        Ok (Entry x i 0))) as (hu & -> & _).
  { intros i Hi. apply in_py_range in Hi. unfold num_var in Hi.
    destruct (py_get_defined (upper_breakpoints bs) i) as (x & ->);
      [lia|]. cbn [bind]. eexists; reflexivity. }
  cbn [bind]. eexists; reflexivity.
Qed.

(** With the multiplier [-inf] the moving variable counts as pinned to
    its lower bound in both update rounds. *)
Lemma first_round_pinned_low (v : Z) (bs : bounds) (e : engine) :
  bounds_ok I bs -> cells_within I bs -> 0 <= v < n ->
  exists e', first_round I NInf v bs e = Ok e'.
Proof.
  intros (Hlb & Hub & Hlbp & Hubp & _) Hcells Hv. unfold num_var in Hv.
  unfold first_round.
  rewrite (py_get_nth (b I) v 0%Q) by lia. cbn [bind].
  rewrite (py_get_nth (lower_breakpoints bs) v 0%Q) by lia. cbn [bind].
  rewrite (py_get_nth (upper_breakpoints bs) v 0%Q) by lia. cbn [bind].
  rewrite (py_get_nth (lower_bounds bs) v 0%Q) by lia. cbn [bind].
  rewrite (py_get_nth (upper_bounds bs) v 0%Q) by lia. cbn [bind].
  cbn [regime_of nlt].
  assert (Hk : (Z.to_nat v < length (b I))%nat) by lia.
  rewrite square_in_range; [eexists; reflexivity | exact Hk |].
  apply (Hcells _ Hk).
Qed.

Lemma second_round_pinned_low (v : Z) (bs : bounds) (e : engine) :
  bounds_ok I bs -> cells_within I bs -> 0 <= v < n ->
  exists e', second_round I NInf v bs e = Ok e'.
Proof.
  intros (Hlb & Hub & Hlbp & Hubp & _) Hcells Hv. unfold num_var in Hv.
  unfold second_round.
  rewrite (py_get_nth (b I) v 0%Q) by lia. cbn [bind].
  rewrite (py_get_nth (lower_breakpoints bs) v 0%Q) by lia. cbn [bind].
  rewrite (py_get_nth (upper_breakpoints bs) v 0%Q) by lia. cbn [bind].
  rewrite (py_get_nth (lower_bounds bs) v 0%Q) by lia. cbn [bind].
  rewrite (py_get_nth (upper_bounds bs) v 0%Q) by lia. cbn [bind].
  cbn [regime_of nlt].
  assert (Hk : (Z.to_nat v < length (b I))%nat) by lia.
  rewrite square_in_range; [eexists; reflexivity | exact Hk |].
  apply (Hcells _ Hk).
Qed.

(** ** No window is recorded *)

Section Trunk.
Variable p : list Z.
Hypothesis Hp : In p (trunks I).

Lemma sweep_out_of_reach (fuel : nat) :
  forall (k : nat) (f : frame),
    window_bounds I p k = Ok (bnds f) ->
    deref (store f) (partition_full f)
      = Ok (p ++ [seed p + Z.of_nat k]) ->
    (Z.to_nat (n - (seed p + Z.of_nat k)) < fuel)%nat ->
    exists f', sweep I fuel f = Ok f' /\ best f' = best f.
Proof.
  induction fuel as [|fuel IH]; intros k f Hwb Hpf Hfuel; [lia|].
  destruct (trunk_shape I Hwf p Hp) as [_ Hall].
  pose proof (seed_range I p Hall) as Hseed.
  cbn [sweep]. rewrite Hpf. cbn [bind]. rewrite py_get_last. cbn [bind].
  destruct (seed p + Z.of_nat k <? n) eqn:Ecur;
    [|exists f; split; reflexivity].
  apply Z.ltb_lt in Ecur.
  destruct (window_invariants p k _ Hp Hwb) as (Hok & Hbp & Hcells).
  destruct (evaluate_out_of_reach f Hok
              (beyond_reach_window _ Hok Hcells)) as [-> | ->];
    cbn [bind]; [exists f; split; reflexivity|].
  unfold advance. cbn [store partition_full bnds eng Opt_mult
                             Obj_value best].
  rewrite Hpf. cbn [bind]. rewrite py_get_last. cbn [bind].
  rewrite py_set_last. cbn [bind]. rewrite py_get_last. cbn [bind].
  destruct (n <=? seed p + Z.of_nat k + 1) eqn:En.
  - eexists. split; reflexivity.
  - apply Z.leb_gt in En. cbn [local bind].
    assert (Hv : 0 <= seed p + Z.of_nat k + 1 < n) by lia.
    destruct (first_round_pinned_low _ (bnds f) (eng f) Hok Hcells Hv)
      as (e1 & ->). cbn [bind].
    destruct (slide_bounds_defined I Hwf _ (bnds f) Hok Hv)
      as (bs' & Hs & Hok'). rewrite Hs. cbn [bind].
    assert (Hcells' : cells_within I bs').
    { eapply slide_bounds_cells; [|exact Hok|exact Hcells|exact Hs]. lia. }
    destruct (second_round_pinned_low _ bs' e1 Hok' Hcells' Hv)
      as (e2 & ->). cbn [bind].
    match goal with
    | |- exists f', sweep I fuel ?g = Ok f' /\ _ =>
        destruct (IH (S k) g) as (f' & Hsweep & Hbest)
    end; cbn [store partition_full bnds best] in *.
    + rewrite window_bounds_S, Hwb. cbn [bind].
      rewrite <- Hs. f_equal. lia.
    + erewrite deref_set_nth by eassumption.
      do 3 f_equal. lia.
    + lia.
    + exists f'. split; assumption.
Qed.

Lemma trunk_body_out_of_reach (f : frame) :
  exists f', trunk_body I p f = Ok f' /\ best f' = best f.
Proof.
  destruct (full_partition_shape I Hwf p Hp) as [Hlen Hall].
  destruct (trunk_shape I Hwf p Hp) as [_ Hall'].
  pose proof (seed_range I p Hall') as Hseed.
  destruct (initial_bounds_defined I Hwf _ Hlen Hall) as (bs & Hbs & Hok).
  destruct (window_invariants p 0 bs Hp Hbs) as (_ & Hbp & Hcells).
  destruct (initial_engine_defined bs Hok Hbp Hcells) as (e & He).
  unfold trunk_body, trunk_init.
  assert (Htl : (if (length p =? 0)%nat then Ok (-1)
                 else py_get p (-1)) = Ok (seed p)).
  { unfold seed. destruct p as [|x q]; [reflexivity|].
    cbn [length Nat.eqb]. apply py_get_nonempty_last. discriminate. }
  rewrite Htl. cbn [bind]. rewrite Hbs. cbn [bind].
  rewrite He. cbn [bind].
  destruct (sweep_out_of_reach (Z.to_nat n + 2) 0
              (Frame (store f ++ [p ++ [seed p]]) (length (store f))
                     bs e (Opt_mult f) (Obj_value f) (best f)))
    as (f' & Hsweep & Hbest).
  - exact Hbs.
  - cbn [store partition_full]. unfold deref.
    rewrite nth_error_app2 by lia. rewrite Nat.sub_diag.
    cbn [nth_error]. do 3 f_equal. cbn [Z.of_nat]. lia.
  - cbn [Z.of_nat]. unfold num_var in *. lia.
  - exists f'. split; assumption.
Qed.
End Trunk.

Lemma enumerate_out_of_reach :
  exists f, enumerate I = Ok f /\ best f = no_record.
Proof.
  pose proof (two_intervals I Hwf) as Hm.
  unfold enumerate, combinations_with_replacement.
  assert (E : (m - 2 <? 0) = false) by (apply Z.ltb_ge; lia).
  rewrite E. cbn [bind].
  apply (for_each_invariant (fun f => best f = no_record));
    [|reflexivity].
  intros p f Hp Hf.
  destruct (trunk_body_out_of_reach p Hp f) as (f' & Hbody & Hbest).
  exists f'. split; [assumption | congruence].
Qed.
End BeyondReach.

(** ** Whole-number data *)

Lemma small_bound (k : nat) (q : Q) :
  whole_and_small k q = true -> (Qabs q <= exact_limit)%Q.
Proof.
  unfold whole_and_small. intro H. apply andb_prop in H as [_ H].
  apply Qle_bool_iff in H.
  eapply Qle_trans; [|exact H].
  rewrite <- (Qmult_1_r (Qabs q)) at 1.
  apply Qmult_le_compat_nonneg.
  - split; [apply Qabs_nonneg | apply Qle_refl].
  - split; [discriminate|]. unfold Qle. simpl. lia.
Qed.

Lemma square_of_small (x y : Q) :
  (Qabs x <= exact_limit)%Q -> (Qabs y <= exact_limit)%Q ->
  Qle_bool float_overflow (pow2 (x + y)) = false.
Proof.
  intros Hx Hy.
  assert (Hs : (Qabs (x + y) <= exact_limit + exact_limit)%Q).
  { eapply Qle_trans; [apply Qabs_triangle|].
    apply Qplus_le_compat; assumption. }
  assert (Hp : (pow2 (x + y)
                <= (exact_limit + exact_limit)
                   * (exact_limit + exact_limit))%Q).
  { unfold pow2. eapply Qle_trans; [apply Qle_Qabs|].
    rewrite Qabs_Qmult.
    apply Qmult_le_compat_nonneg; split;
      try apply Qabs_nonneg; assumption. }
  assert (Hlt : ((exact_limit + exact_limit)
                 * (exact_limit + exact_limit) < float_overflow)%Q)
    by (vm_compute; reflexivity).
  destruct (Qle_bool float_overflow (pow2 (x + y))) eqn:E;
    [|reflexivity].
  apply Qle_bool_iff in E. exfalso.
  apply (Qlt_irrefl float_overflow).
  eapply Qle_lt_trans; [exact E|].
  eapply Qle_lt_trans; [exact Hp | exact Hlt].
Qed.

Lemma exact_squares (I : instance) :
  well_formed I -> exact_in_floats I = true -> squares_in_range I = true.
Proof.
  intros Hwf H. unfold exact_in_floats in H.
  rewrite forallb_forall in H.
  assert (Hnum : forall q, In q (numbers_of I) ->
                           (Qabs q <= exact_limit)%Q).
  { intros q Hq. eapply small_bound. apply H. exact Hq. }
  unfold squares_in_range. apply forallb_forall. intros i Hi.
  apply in_seq in Hi. apply forallb_forall. intros l Hl.
  apply negb_true_iff. apply square_of_small; apply Hnum;
    unfold numbers_of; right.
  - destruct Hl as [<-|Hl].
    + apply in_or_app. right. apply in_or_app. right.
      apply in_or_app. right. apply in_or_app. left.
      apply nth_In. rewrite (wf_lower_var I Hwf). lia.
    + apply in_or_app. right. apply in_or_app. left. exact Hl.
  - apply in_or_app. left. apply nth_In. lia.
Qed.




(** * Ties between equal breakpoints *)

(** ** The order of a heap through the run *)

Lemma ordered_suffix (gone h : heap) :
  heap_ordered (gone ++ h) -> heap_ordered h.
Proof.
  unfold heap_ordered. induction gone as [|x gone IH]; intro H;
    [exact H|].
  apply IH. inversion H; assumption.
Qed.

Lemma ordered_top_comes_first (top : entry) (t : heap) :
  heap_ordered (top :: t) -> comes_first top (top :: t).
Proof.
  intros Hs e Hin.
  assert (Hle : entry_le top e).
  { destruct Hin as [<-|Hin].
    - apply entry_le_iff. right. split; [reflexivity|]. lia.
    - inversion Hs as [|? ? _ Hall]; subst.
      rewrite Forall_forall in Hall. auto. }
  apply entry_le_iff in Hle. destruct Hle as [Hlt|[Heq Hidx]].
  - split; [apply Qlt_le_weak; assumption|].
    intro Heq. rewrite Heq in Hlt. exfalso. revert Hlt. apply Qlt_irrefl.
  - split; [rewrite Heq; apply Qle_refl|]. intros _. lia.
Qed.

(** Lines 118-148: the candidate search pops the entries that the test
    of line 125 (141) rejects and stops at the first one it does not
    reject. *)
Lemma find_candidate_spec (upto : bool) (pf : list Z) (h : heap) :
  forall cnt c h' cnt',
    find_candidate upto pf h cnt = Ok (c, h', cnt') ->
    exists gone,
      h = gone ++ h'
      /\ Forall (fun e => dropped upto pf e = Ok true) gone
      /\ (cnt = Z.of_nat (length h) ->
          (c = PInf /\ h' = [])
          \/ exists top t,
               h' = top :: t /\ c = Fin (e_bp top)
               /\ dropped upto pf top = Ok false).
Proof.
  induction h as [|e h IH]; intros cnt c h' cnt' H;
    cbn [find_candidate] in H.
  - destruct (0 <? cnt); [discriminate H|].
    injection H as <- <- <-. exists []. split; [reflexivity|].
    split; [constructor|]. intros _. left. split; reflexivity.
  - destruct (0 <? cnt) eqn:Ecnt.
    + bind_inv H. destruct a.
      * destruct (IH _ _ _ _ H) as (gone & Hh & Hgone & Htop).
        exists (e :: gone). split; [simpl; congruence|].
        split; [constructor; assumption|].
        intro Hc. apply Htop. simpl length in Hc. lia.
      * injection H as <- <- <-. exists []. split; [reflexivity|].
        split; [constructor|]. intros _. right.
        exists e, h. split; [reflexivity|]. split; [reflexivity|].
        assumption.
    + injection H as <- <- <-. exists []. split; [reflexivity|].
      split; [constructor|]. intro Hc. apply Z.ltb_ge in Ecnt.
      simpl length in Hc. lia.
Qed.

Lemma find_candidate_ordered (upto : bool) (pf : list Z) (h : heap)
    (cnt : Z) (c : num) (h' : heap) (cnt' : Z) :
  find_candidate upto pf h cnt = Ok (c, h', cnt') ->
  heap_ordered h -> heap_ordered h'.
Proof.
  intros H Hs. destruct (find_candidate_spec _ _ _ _ _ _ _ H)
    as (gone & Hh & _). rewrite Hh in Hs. eapply ordered_suffix; exact Hs.
Qed.

Lemma ordered_tail (top : entry) (t : heap) :
  heap_ordered (top :: t) -> heap_ordered t.
Proof. apply (ordered_suffix [top]). Qed.

Lemma search_round_ordered (I : instance) (pf : list Z) (bs : bounds)
    (e : engine) (o : round_outcome) :
  search_round I pf bs e = Ok o ->
  heaps_ordered e -> heaps_ordered (engine_of o).
Proof.
  intros H [Hl Hu]. destruct o as [e' mult obj|e']; cbn [engine_of].
  - destruct (search_round_Found_heaps _ _ _ _ _ _ _ H)
      as (cl & cu & Hfl & Hfu).
    split; eapply find_candidate_ordered; eassumption.
  - destruct (search_round_Continue _ _ _ _ _ H)
      as (cl & hl & nl & cu & hu & nu & top & Hfl & Hfu & Hpop).
    pose proof (find_candidate_ordered _ _ _ _ _ _ _ Hfl Hl) as Hl'.
    pose proof (find_candidate_ordered _ _ _ _ _ _ _ Hfu Hu) as Hu'.
    unfold heaps_ordered.
    destruct Hpop as [(_ & Hh & _ & Ho & _)|(_ & Hh & _ & Ho & _)];
      rewrite Hh in *; rewrite Ho; split;
      try assumption; eapply ordered_tail; eassumption.
Qed.

Lemma search_ordered (I : instance) (pf : list Z) (bs : bounds)
    (fuel : nat) :
  forall e e' mult obj,
    search I fuel pf bs e = Ok (e', mult, obj) ->
    heaps_ordered e -> heaps_ordered e'.
Proof.
  induction fuel as [|fuel IH]; intros e e' mult obj H Hs;
    [discriminate H|].
  cbn [search] in H. bind_inv H.
  pose proof (search_round_ordered _ _ _ _ _ Ha Hs) as Hs'.
  destruct a as [e1 m1 o1|e1]; cbn [engine_of] in Hs'.
  - injection H as <- _ _. exact Hs'.
  - eapply IH; eassumption.
Qed.

Lemma evaluate_ordered (I : instance) (f f' : frame) :
  evaluate I f = Ok (Some f') ->
  heaps_ordered (eng f) -> heaps_ordered (eng f').
Proof.
  unfold evaluate. intros H Hs.
  destruct (Qltb (R I) (HELP_feasible_check_lower (bnds f))).
  - injection H as <-. assumption.
  - destruct (Qltb (HELP_feasible_check_upper (bnds f)) (R I));
      [discriminate H|].
    bind_inv H. bind_inv H. destruct a0 as [[e mult] obj].
    injection H as <-. cbn [eng].
    eapply search_ordered; eassumption.
Qed.

Lemma first_round_ordered (I : instance) (mult : num) (v : Z)
    (bs : bounds) (e e' : engine) :
  first_round I mult v bs e = Ok e' -> heaps_ordered e -> heaps_ordered e'.
Proof.
  unfold first_round. intros H Hs.
  bind_inv H. bind_inv H. bind_inv H. bind_inv H. bind_inv H.
  destruct (regime_of mult a0 a1); [bind_inv H| |bind_inv H];
    injection H as <-; exact Hs.
Qed.

Lemma second_round_ordered (I : instance) (mult : num) (v : Z)
    (bs : bounds) (e e' : engine) :
  second_round I mult v bs e = Ok e' -> heaps_ordered e -> heaps_ordered e'.
Proof.
  unfold second_round. intros H [Hl Hu].
  bind_inv H. bind_inv H. bind_inv H. bind_inv H. bind_inv H.
  unfold heaps_ordered.
  destruct (regime_of mult a0 a1); [bind_inv H| |bind_inv H];
    injection H as <-; cbn [heap_lower_BPs heap_upper_BPs];
    split; try assumption; apply heappush_ordered; assumption.
Qed.

Lemma advance_ordered (I : instance) (f f' : frame) (go : bool) :
  advance I f = Ok (f', go) ->
  heaps_ordered (eng f) -> heaps_ordered (eng f').
Proof.
  unfold advance. intros H Hs.
  bind_inv H. bind_inv H. bind_inv H. bind_inv H.
  destruct (num_var I <=? a2).
  - injection H as <- _. exact Hs.
  - bind_inv H. bind_inv H. bind_inv H. bind_inv H.
    injection H as <- _. cbn [eng].
    eapply second_round_ordered; [eassumption|].
    eapply first_round_ordered; eassumption.
Qed.

Lemma trunk_init_ordered (I : instance) (p : list Z) (f f0 : frame) :
  trunk_init I p f = Ok f0 -> heaps_ordered (eng f0).
Proof.
  unfold trunk_init. intro H. bind_inv H. bind_inv H. bind_inv H.
  injection H as <-. cbn [eng].
  unfold initial_engine in Ha1.
  bind_inv Ha1. bind_inv Ha1. bind_inv Ha1. injection Ha1 as <-.
  split; apply heapify_ordered.
Qed.

(** ** The candidate of each heap, and the pass between the two *)

Lemma candidate_comes_first (upto : bool) (pf : list Z) (h : heap)
    (c : num) (h' : heap) (cnt' : Z) :
  heap_ordered h ->
  find_candidate upto pf h (Z.of_nat (length h)) = Ok (c, h', cnt') ->
  exists gone,
    h = gone ++ h'
    /\ Forall (fun e => dropped upto pf e = Ok true) gone
    /\ ((c = PInf /\ h' = [])
        \/ exists top,
             hd_error h' = Some top /\ c = Fin (e_bp top)
             /\ dropped upto pf top = Ok false
             /\ comes_first top h').
Proof.
  intros Hs H.
  destruct (find_candidate_spec _ _ _ _ _ _ _ H)
    as (gone & Hh & Hgone & Htop).
  exists gone. split; [assumption|]. split; [assumption|].
  destruct (Htop eq_refl) as [Hempty|(top & t & Hh' & Hc & Hd)];
    [left; assumption|].
  right. exists top. rewrite Hh'. split; [reflexivity|].
  split; [assumption|]. split; [assumption|].
  apply ordered_top_comes_first.
  rewrite Hh, Hh' in Hs. eapply ordered_suffix; exact Hs.
Qed.

Lemma pass_pops_lower_or_upper (I : instance) (pf : list Z) (bs : bounds)
    (e e' : engine) (cl : num) (hl : heap) (nl : Z) (cu : num) (hu : heap)
    (nu : Z) :
  find_candidate false pf (heap_lower_BPs e) (HELP_num_lower_heap e)
  = Ok (cl, hl, nl) ->
  find_candidate true pf (heap_upper_BPs e) (HELP_num_upper_heap e)
  = Ok (cu, hu, nu) ->
  search_round I pf bs e = Ok (Continue e') ->
  exists top,
    if nlt cl cu
    then hl = top :: heap_lower_BPs e' /\ heap_upper_BPs e' = hu
    else hu = top :: heap_upper_BPs e' /\ heap_lower_BPs e' = hl.
Proof.
  intros Hfl Hfu H.
  destruct (search_round_Continue _ _ _ _ _ H)
    as (cl' & hl' & nl' & cu' & hu' & nu' & top & Hfl' & Hfu' & Hpop).
  rewrite Hfl in Hfl'. rewrite Hfu in Hfu'.
  injection Hfl' as <- <- <-. injection Hfu' as <- <- <-.
  exists top.
  destruct Hpop as [(-> & Hh & _ & Ho & _)|(-> & Hh & _ & Ho & _)];
    split; assumption.
Qed.

(** C10.  The result of a call is a function of the six inputs: it
    does not depend on the module state the seeded generator lives in,
    and the call leaves that state alone.  Both heaps are in the
    lexicographic order of (breakpoint, index, tag) at the start of a
    trunk and stay so through every pass of the search, every window
    and every cursor step; so the candidate that lines 118-148 take
    from a heap is the first entry the test of line 125 (141) does not
    reject, it has the least breakpoint of that heap and, among the
    entries with that breakpoint, the least index.  Between the two
    heaps the index plays no part: a pass that goes on pops the lower
    heap when the lower candidate is strictly smaller, and the upper
    heap otherwise, also when the two candidates are equal (line 163). *)
Theorem ties_by_index_within_a_heap_upper_first_between (I : instance) :
  (forall g1 g2,
     fst (call_RAP_disjoint g1 I) = fst (call_RAP_disjoint g2 I))
  /\ (forall g, snd (call_RAP_disjoint g I) = g)
  /\ (forall p f f0, trunk_init I p f = Ok f0 -> heaps_ordered (eng f0))
  /\ (forall pf bs e o,
        search_round I pf bs e = Ok o ->
        heaps_ordered e -> heaps_ordered (engine_of o))
  /\ (forall f f',
        evaluate I f = Ok (Some f') ->
        heaps_ordered (eng f) -> heaps_ordered (eng f'))
  /\ (forall f f' go,
        advance I f = Ok (f', go) ->
        heaps_ordered (eng f) -> heaps_ordered (eng f'))
  /\ (forall upto pf h c h' cnt',
        heap_ordered h ->
        find_candidate upto pf h (Z.of_nat (length h)) = Ok (c, h', cnt') ->
        exists gone,
          h = gone ++ h'
          /\ Forall (fun e => dropped upto pf e = Ok true) gone
          /\ ((c = PInf /\ h' = [])
              \/ exists top,
                   hd_error h' = Some top /\ c = Fin (e_bp top)
                   /\ dropped upto pf top = Ok false
                   /\ comes_first top h'))
  /\ (forall pf bs e e' cl hl nl cu hu nu,
        find_candidate false pf (heap_lower_BPs e) (HELP_num_lower_heap e)
        = Ok (cl, hl, nl) ->
        find_candidate true pf (heap_upper_BPs e) (HELP_num_upper_heap e)
        = Ok (cu, hu, nu) ->
        search_round I pf bs e = Ok (Continue e') ->
        exists top,
          if nlt cl cu
          then hl = top :: heap_lower_BPs e' /\ heap_upper_BPs e' = hu
          else hu = top :: heap_upper_BPs e' /\ heap_lower_BPs e' = hl).
Proof.
  split; [reflexivity|]. split; [reflexivity|].
  split; [exact (trunk_init_ordered I)|].
  split; [exact (search_round_ordered I)|].
  split; [exact (evaluate_ordered I)|].
  split; [exact (advance_ordered I)|].
  split; [exact candidate_comes_first|].
  exact (pass_pops_lower_or_upper I).
Qed.

Lemma ties_by_index_within_a_heap_upper_first_between_witness :
  find_candidate false [-1] (heap_lower_BPs tie_engine)
    (HELP_num_lower_heap tie_engine)
  = Ok (Fin 3, [Entry 3 0 0], 1)
  /\ find_candidate true [-1] (heap_upper_BPs tie_engine)
       (HELP_num_upper_heap tie_engine)
     = Ok (Fin 3, [Entry 3 1 0; Entry 7 0 0], 2)
  /\ search_round tie_instance [-1] (bnds tie_frame) tie_engine
     = Ok (Continue tie_next)
  /\ exists top,
       if nlt (Fin 3) (Fin 3)
       then [Entry 3 0 0] = top :: heap_lower_BPs tie_next
            /\ heap_upper_BPs tie_next = [Entry 3 1 0; Entry 7 0 0]
       else [Entry 3 1 0; Entry 7 0 0] = top :: heap_upper_BPs tie_next
            /\ heap_lower_BPs tie_next = [Entry 3 0 0].
Proof.
  pose proof (ties_by_index_within_a_heap_upper_first_between tie_instance)
    as (_ & _ & _ & _ & _ & _ & _ & Hpass).
  assert (Hl : find_candidate false [-1] (heap_lower_BPs tie_engine)
                 (HELP_num_lower_heap tie_engine)
               = Ok (Fin 3, [Entry 3 0 0], 1))
    by (vm_compute; reflexivity).
  assert (Hu : find_candidate true [-1] (heap_upper_BPs tie_engine)
                 (HELP_num_upper_heap tie_engine)
               = Ok (Fin 3, [Entry 3 1 0; Entry 7 0 0], 2))
    by (vm_compute; reflexivity).
  assert (Hr : search_round tie_instance [-1] (bnds tie_frame) tie_engine
               = Ok (Continue tie_next)) by (vm_compute; reflexivity).
  split; [exact Hl|]. split; [exact Hu|]. split; [exact Hr|].
  exact (Hpass _ _ _ _ _ _ _ _ _ _ Hl Hu Hr).
Defined.

(** In the first window of [tie_instance] the second pass of the search
    finds the lower breakpoint of variable 0 and the upper breakpoint
    of variable 1 both equal to 3, and it is the entry of variable 1
    that is popped: the tie does not go to the smaller index. *)
Lemma tie_between_heaps_goes_to_larger_index :
  ~ ties_by_ascending_index tie_instance [-1] (bnds tie_frame) tie_engine.
Proof.
  intro H.
  assert (Hl : find_candidate false [-1] (heap_lower_BPs tie_engine)
                 (HELP_num_lower_heap tie_engine)
               = Ok (Fin (e_bp (Entry 3 0 0)), [Entry 3 0 0], 1))
    by (vm_compute; reflexivity).
  assert (Hu : find_candidate true [-1] (heap_upper_BPs tie_engine)
                 (HELP_num_upper_heap tie_engine)
               = Ok (Fin (e_bp (Entry 3 1 0)),
                     [Entry 3 1 0; Entry 7 0 0], 2))
    by (vm_compute; reflexivity).
  assert (Hr : search_round tie_instance [-1] (bnds tie_frame) tie_engine
               = Ok (Continue tie_next)) by (vm_compute; reflexivity).
  destruct (H _ _ _ _ _ _ _ Hl Hu Hr) as [_ Hup].
  - reflexivity.
  - reflexivity.
  - vm_compute in Hup. discriminate Hup.
Qed.
